(** * shared-allocator: a boundary-tag heap inside a POSIX shared-memory segment

    Shallow embedding of [global_shared_allocator::driver] (the in-place heap
    manager of shared_allocator.cpp) and of its nested [chunk] type, followed
    by the representation invariant of the arena and the theorems about
    allocation, deallocation, coalescing and segment extension.

    Platform: LP64 (size_t, uintptr_t and pointers are 64 bits wide, glibc's
    sem_t is 32 bytes).  Every size_t / uintptr_t operation is written with
    its wrap-around modulo 2^64. *)

From Stdlib Require Import ZArith Lia String DecimalString.
From stdpp Require Import base gmap.

Open Scope Z_scope.

(** ** Machine words *)

Definition word_bits : Z := 64.
Definition word_mod : Z := 2 ^ 64.

Definition wrap (x : Z) : Z := x mod word_mod.
Definition wadd (x y : Z) : Z := wrap (x + y).
Definition wsub (x y : Z) : Z := wrap (x - y).
Definition wmul (x y : Z) : Z := wrap (x * y).
(** [~x] on a size_t. *)
Definition wnot (x : Z) : Z := word_mod - 1 - x.

(** [__builtin_clzll]: the number of leading zero bits of a 64-bit value,
    scanning from bit 63 downwards. *)
Fixpoint clz_from (k : nat) (s : Z) : Z :=
  match k with
  | O => 0
  | S k' => if Z.testbit s (Z.of_nat k') then 0 else 1 + clz_from k' s
  end.

Definition clzll (s : Z) : Z := clz_from 64 s.

(** ** Compile-time constants of [driver] *)

Definition max_size_ : Z := Z.shiftl 1 32.
Definition min_size_ : Z := 4096.
Definition data_align_ : Z := 16.
Definition min_data_size_ : Z := data_align_.
Definition n_free_list_ : Z := Z.shiftl 8 3.

Definition sizeof_chunk_header : Z := 16.
Definition sizeof_chunk_footer : Z := 16.
Definition sizeof_chunk : Z := sizeof_chunk_header + sizeof_chunk_footer.
Definition min_chunk_size_ : Z := sizeof_chunk + min_data_size_.

(** Field offsets: [chunk_header] is {size_; prev_}, [chunk_footer] is
    {size_; next_}. *)
Definition off_size_ : Z := 0.
Definition off_link_ : Z := 8.

(** Layout of [driver]: sem_ (32 bytes), addr_, size_, then free_list_. *)
Definition sizeof_sem_t : Z := 32.
Definition off_free_list_ : Z := sizeof_sem_t + 8 + 8.
Definition sizeof_driver : Z := off_free_list_ + n_free_list_ * sizeof_chunk.

Definition NULL : Z := 0.

(** ** Shared state

    [sem_], [addr_] and [size_] are the scalar members of the driver object;
    [mem] holds every 8-byte word of the segment that is reached through
    chunk pointers (the free-list heads included), keyed by its absolute
    address.  A word that was never written reads as 0. *)

Record state : Type := mkState {
  sem_ : Z;
  addr_ : Z;
  size_ : Z;
  mem : gmap Z Z
}.

Definition read (m : gmap Z Z) (a : Z) : Z := default 0 (m !! a).

Definition set_mem (m : gmap Z Z) (st : state) : state :=
  mkState (sem_ st) (addr_ st) (size_ st) m.
Definition set_size_ (s : Z) (st : state) : state :=
  mkState (sem_ st) (addr_ st) s (mem st).
Definition set_sem_ (v : Z) (st : state) : state :=
  mkState v (addr_ st) (size_ st) (mem st).

(** ** Exceptions and the execution monad *)

Inductive exn : Type :=
| logic_error (what : string)
| bad_alloc
| system_error (what : string).

(** [Blocked]: the caller waits on the semaphore forever (nobody else runs in
    this sequential model).  [Timeout]: the fuel of a loop ran out. *)
Inductive outcome (A : Type) : Type :=
| Ok (a : A) (st : state)
| Throw (e : exn) (st : state)
| Blocked
| Timeout.

Arguments Ok {A} a st.
Arguments Throw {A} e st.
Arguments Blocked {A}.
Arguments Timeout {A}.

Definition M (A : Type) : Type := state -> outcome A.

Definition ret {A} (a : A) : M A := fun st => Ok a st.
Definition throw {A} (e : exn) : M A := fun st => Throw e st.
Definition bind {A B} (c : M A) (k : A -> M B) : M B :=
  fun st =>
    match c st with
    | Ok a st' => k a st'
    | Throw e st' => Throw e st'
    | Blocked => Blocked
    | Timeout => Timeout
    end.

Notation "'do' x <- c ; k" := (bind c (fun x => k))
  (at level 10, x name, c at level 100, k at level 200).
Notation "'run' c ; k" := (bind c (fun _ => k))
  (at level 10, c at level 100, k at level 200).

Definition gets {A} (f : state -> A) : M A := fun st => Ok (f st) st.
Definition modify (f : state -> state) : M unit := fun st => Ok tt (f st).
Definition load (a : Z) : M Z := gets (fun st => read (mem st) a).
Definition store (a v : Z) : M unit :=
  modify (fun st => set_mem (<[a := v]> (mem st)) st).
Definition when (b : bool) (c : M unit) : M unit := if b then c else ret tt.

(** [struct lock]: sem_wait in the constructor, sem_post in the destructor,
    which also runs when the guarded body throws. *)
Definition sem_wait : M unit :=
  fun st => if 0 <? sem_ st then Ok tt (set_sem_ (sem_ st - 1) st) else Blocked.
Definition sem_post : M unit :=
  modify (fun st => set_sem_ (sem_ st + 1) st).
Definition with_lock {A} (body : M A) : M A :=
  fun st =>
    match sem_wait st with
    | Ok _ st1 =>
        match body st1 with
        | Ok a st2 => (run sem_post; ret a) st2
        | Throw e st2 => (run sem_post; throw e) st2
        | Blocked => Blocked
        | Timeout => Timeout
        end
    | Throw e st1 => Throw e st1
    | Blocked => Blocked
    | Timeout => Timeout
    end.

(** ** [driver::chunk] *)

Module chunk.
Section with_driver.

(** The process-local static [global_shared_allocator::driver_]: the address
    at which this process maps the segment. *)
Variable driver_ : Z.

(** [&driver_->free_list_[i]] *)
Definition free_list_ (i : Z) : Z :=
  wadd driver_ (wadd off_free_list_ (wmul i sizeof_chunk)).

(** [&driver_[1]], the address of the first chunk. *)
Definition first_chunk : Z := wadd driver_ sizeof_driver.

Definition list_index (size : Z) : M Z :=
  if size =? 0 then throw (logic_error "list_index: zero size")
  else ret (wsub 63 (clzll size)).

Definition get_chunk (data : Z) : M Z :=
  if negb (Z.land data (data_align_ - 1) =? 0)
  then throw (logic_error "get_chunk: data unaligned")
  else ret (wsub data sizeof_chunk_header).

(** Accessors, as functions of the memory they read. *)
Definition header (c : Z) : Z := c.
Definition size (m : gmap Z Z) (c : Z) : Z := read m (wadd (header c) off_size_).
Definition full_size (m : gmap Z Z) (c : Z) : Z := wadd (size m c) sizeof_chunk.
Definition footer (m : gmap Z Z) (c : Z) : Z :=
  wsub (wadd c (full_size m c)) sizeof_chunk_footer.
Definition allocated (m : gmap Z Z) (c : Z) : bool :=
  read m (wadd (footer m c) off_size_) =? 0.
Definition data (c : Z) : Z := wadd (header c) sizeof_chunk_header.

(** Field reads and writes; the footer is located when the access is made. *)
Definition header_size (c : Z) : M Z := gets (fun st => size (mem st) c).
Definition header_prev (c : Z) : M Z := load (wadd (header c) off_link_).
Definition footer_size (c : Z) : M Z :=
  do f <- gets (fun st => footer (mem st) c); load (wadd f off_size_).
Definition footer_next (c : Z) : M Z :=
  do f <- gets (fun st => footer (mem st) c); load (wadd f off_link_).
Definition set_header_size (c v : Z) : M unit := store (wadd (header c) off_size_) v.
Definition set_header_prev (c v : Z) : M unit := store (wadd (header c) off_link_) v.
Definition set_footer_size (c v : Z) : M unit :=
  do f <- gets (fun st => footer (mem st) c); store (wadd f off_size_) v.
Definition set_footer_next (c v : Z) : M unit :=
  do f <- gets (fun st => footer (mem st) c); store (wadd f off_link_) v.

Definition before (c : Z) : M Z :=
  if c =? first_chunk then ret NULL
  else
    let footer := wsub c sizeof_chunk_footer in
    do fs <- load (wadd footer off_size_);
    if fs =? 0 then ret NULL
    else get_chunk (wsub footer fs).

Definition after (c : Z) : M Z :=
  do f <- gets (fun st => footer (mem st) c);
  let c' := wadd f sizeof_chunk_footer in
  do sz <- gets size_;
  if wadd driver_ sz <? wadd c' min_chunk_size_ then ret NULL
  else
    do al <- gets (fun st => allocated (mem st) c');
    if al then ret NULL else ret c'.

Definition add (c : Z) : M unit :=
  do s <- header_size c;
  do i <- list_index s;
  let p := free_list_ i in
  do n <- footer_next p;
  run set_footer_next p c;
  run set_header_prev c p;
  run set_footer_next c n;
  when (negb (n =? NULL)) (set_header_prev n c).

Definition remove (c : Z) : M unit :=
  do p <- header_prev c;
  do n <- footer_next c;
  run set_header_prev c NULL;
  run set_footer_next c NULL;
  run set_footer_next p n;
  when (negb (n =? NULL)) (set_header_prev n p).

(** [coalesce], with the call back into [add_chunk] taken as a parameter. *)
Definition coalesce_with (add_chunk : Z -> Z -> M Z) (c : Z) : M Z :=
  do b <- before c;
  do a <- after c;
  if (a =? NULL) && (b =? NULL) then run add c; ret c
  else
    run when (negb (b =? NULL)) (remove b);
    run when (negb (a =? NULL)) (remove a);
    do fc <- gets (fun st => full_size (mem st) c);
    do fb <- gets (fun st => if b =? NULL then 0 else full_size (mem st) b);
    do fa <- gets (fun st => if a =? NULL then 0 else full_size (mem st) a);
    let new_size := wadd (wadd fc fb) fa in
    let b := if b =? NULL then c else b in
    add_chunk b new_size.

(** [add_chunk] and [coalesce] call each other; [fuel] bounds the depth. *)
Fixpoint add_chunk (fuel : nat) (addr size : Z) : M Z :=
  match fuel with
  | O => fun _ => Timeout
  | S fuel' =>
      if negb (Z.land size (data_align_ - 1) =? 0)
      then throw (logic_error "add_chunk: size unaligned")
      else if size <? min_chunk_size_
      then throw (logic_error "add_chunk: size too small")
      else
        let c := addr in
        run set_header_size c (wsub size sizeof_chunk);
        run set_header_prev c NULL;
        do hs <- header_size c;
        run set_footer_size c hs;
        run set_footer_next c NULL;
        coalesce_with (add_chunk fuel') c
  end.

Definition coalesce (fuel : nat) (c : Z) : M Z :=
  coalesce_with (add_chunk fuel) c.

Definition split (fuel : nat) (c remsize : Z) : M unit :=
  if remsize <? min_chunk_size_
  then throw (logic_error "split: size too small")
  else if negb (Z.land remsize (data_align_ - 1) =? 0)
  then throw (logic_error "split: size unaligned")
  else
    do hs <- header_size c;
    run set_header_size c (wsub hs remsize);
    run set_footer_size c 0;
    run set_footer_next c NULL;
    do f <- gets (fun st => footer (mem st) c);
    run add_chunk fuel (wadd f sizeof_chunk_footer) remsize;
    ret tt.

Definition allocate (fuel : nat) (c reqsize : Z) : M unit :=
  if negb (Z.land reqsize (data_align_ - 1) =? 0)
  then throw (logic_error "allocate: size unaligned")
  else
    do s <- header_size c;
    if s <? reqsize then throw (logic_error "allocate: size too small")
    else
      run remove c;
      do s <- header_size c;
      let remsize := wsub s reqsize in
      if min_chunk_size_ <=? remsize then split fuel c remsize
      else set_footer_size c 0.

Definition deallocate (fuel : nat) (c : Z) : M unit :=
  do fs <- footer_size c;
  if negb (fs =? 0)
  then throw (logic_error "deallocate: unexpected footer size")
  else
    do hs <- header_size c;
    run set_footer_size c hs;
    run coalesce fuel c;
    ret tt.

End with_driver.
End chunk.

(** ** [driver] *)

Module driver.
Section with_driver.

Variable driver_ : Z.

(** The answer of the operating system to [ftruncate(shmfd_, len)]:
    [true] when the call succeeds. *)
Variable ftruncate_ok : Z -> bool.

(** [memset(a, 0, 8 * n)] on the word-addressed memory. *)
Fixpoint zero_words (n : nat) (a : Z) (m : gmap Z Z) : gmap Z Z :=
  match n with
  | O => m
  | S n' => zero_words n' (wadd a 8) (<[a := 0]> m)
  end.

(** The doubling loop of [extend]. *)
Fixpoint grow (fuel : nat) (cur size s : Z) : option Z :=
  match fuel with
  | O => None
  | S fuel' =>
      if (s <? max_size_) && (wsub s cur <? size)
      then grow fuel' cur size (wmul s 2)
      else Some s
  end.

Definition extend (fuel : nat) (size : Z) : M Z :=
  do cur <- gets size_;
  match grow fuel cur size cur with
  | None => fun _ => Timeout
  | Some s =>
      if wsub s cur <? size then throw bad_alloc
      else
        let size := wsub s cur in
        if negb (ftruncate_ok s) then throw (system_error "ftruncate")
        else
          let c := wadd driver_ cur in
          run modify (set_size_ s);
          chunk.add_chunk driver_ fuel c size
  end.

(** The inner [while(c)] loop of [allocate]: first fit along one list. *)
Fixpoint walk (fuel : nat) (size c : Z) : M (option Z) :=
  match fuel with
  | O => fun _ => Timeout
  | S fuel' =>
      if c =? NULL then ret None
      else
        do s <- chunk.header_size c;
        if size <=? s then
          run chunk.allocate driver_ fuel c size;
          ret (Some (chunk.data c))
        else
          do n <- chunk.footer_next c;
          walk fuel' size n
  end.

(** The outer [for] loop over the size classes [i], [i+1], ... *)
Fixpoint scan (fuel : nat) (size i : Z) : M (option Z) :=
  match fuel with
  | O => fun _ => Timeout
  | S fuel' =>
      if i <? n_free_list_ then
        do c <- chunk.footer_next (chunk.free_list_ driver_ i);
        do r <- walk fuel size c;
        match r with
        | Some p => ret (Some p)
        | None => scan fuel' size (wadd i 1)
        end
      else ret None
  end.

Definition round_up (size : Z) : Z :=
  Z.land (wsub (wadd size data_align_) 1) (wnot (wsub data_align_ 1)).

Definition allocate (fuel : nat) (size : Z) : M Z :=
  if size =? 0 then ret NULL
  else
    let size := round_up size in
    with_lock (
      do i <- chunk.list_index size;
      do r <- scan fuel size i;
      match r with
      | Some p => ret p
      | None =>
          do c <- extend fuel (wadd size sizeof_chunk);
          run chunk.allocate driver_ fuel c size;
          ret (chunk.data c)
      end).

Definition deallocate (fuel : nat) (p n : Z) : M unit :=
  if p =? NULL then ret tt
  else
    with_lock (
      do c <- chunk.get_chunk p;
      chunk.deallocate driver_ fuel c).

(** The constructor [driver(size)], placed at [driver_]. *)
Definition construct (fuel : nat) (size : Z) : M unit :=
  run modify (set_sem_ 1);
  run modify (fun st => mkState (sem_ st) driver_ (size_ st) (mem st));
  run modify (set_size_ size);
  run modify (fun st =>
    set_mem (zero_words (Z.to_nat (n_free_list_ * sizeof_chunk / 8))
               (wadd driver_ off_free_list_) (mem st)) st);
  let size := wsub size sizeof_driver in
  if min_chunk_size_ <=? size then
    run chunk.add_chunk driver_ fuel (chunk.first_chunk driver_) size; ret tt
  else ret tt.

End with_driver.
End driver.

(** ** The arena seen as a sequence of chunks

    The bytes from [&driver_[1]] to [driver_ + size_] are described by a list
    of chunks, each given by its payload size and whether it is free; the
    free lists are described by the (address, payload size) pairs they link,
    in list order. *)

Module heap.
Section with_driver.

Variable driver_ : Z.

Definition first : Z := driver_ + sizeof_driver.
Definition head (i : Z) : Z := driver_ + off_free_list_ + i * sizeof_chunk.

(** Bytes covered by a sequence of chunks. *)
Fixpoint total (l : list (Z * bool)) : Z :=
  match l with
  | [] => 0
  | (s, _) :: l' => s + sizeof_chunk + total l'
  end.

(** The chunks of [l] laid out back to back from address [a]:
    (address, payload size, free). *)
Fixpoint layout (a : Z) (l : list (Z * bool)) : list (Z * Z * bool) :=
  match l with
  | [] => []
  | (s, f) :: l' => (a, s, f) :: layout (a + s + sizeof_chunk) l'
  end.

Definition sizes_ok (l : list (Z * bool)) : Prop :=
  Forall (fun c => min_data_size_ <= fst c /\ fst c mod data_align_ = 0) l.

(** No two neighbours in the address space are both free. *)
Fixpoint no_adj_free (l : list (Z * bool)) : bool :=
  match l with
  | (_, f1) :: l' =>
      match l' with
      | (_, f2) :: _ => negb (f1 && f2) && no_adj_free l'
      | [] => true
      end
  | [] => true
  end.

(** The doubly linked list hanging off node [p] (payload size [sp]):
    [footer.next_] of each node is the next one, whose [header.prev_]
    points back; the last [next_] is NULL. *)
Fixpoint dlls (m : gmap Z Z) (p sp : Z) (L : list (Z * Z)) : Prop :=
  match L with
  | [] => read m (p + sp + sizeof_chunk_header + off_link_) = NULL
  | (c, sc) :: L' =>
      read m (p + sp + sizeof_chunk_header + off_link_) = c /\
      read m (c + off_link_) = p /\
      dlls m c sc L'
  end.

(** Chunks [l1] from the first chunk on, then [n] bytes in no particular
    state, then chunks [l2] up to the end of the segment. *)
Definition chunks_of (l1 : list (Z * bool)) (n : Z) (l2 : list (Z * bool))
  : list (Z * Z * bool) :=
  layout first l1 ++ layout (first + total l1 + n) l2.

Record Hole (m : gmap Z Z) (sz : Z) (l1 : list (Z * bool)) (n : Z)
    (l2 : list (Z * bool)) (fl : Z -> list (Z * Z)) : Prop := mkHole {
  hole_sizes1 : sizes_ok l1;
  hole_sizes2 : sizes_ok l2;
  hole_n : 0 <= n /\ n mod data_align_ = 0;
  hole_end : first + total l1 + n + total l2 = driver_ + sz;
  hole_bound : sz <= 2 * max_size_;
  hole_tags : forall (x s : Z) (f : bool), (x, s, f) ∈ chunks_of l1 n l2 ->
      read m x = s /\
      read m (x + s + sizeof_chunk_header) = (if f then s else 0);
  hole_lists : forall i, 0 <= i < n_free_list_ ->
      read m (head i) = 0 /\ dlls m (head i) 0 (fl i);
  hole_in : forall (i x s : Z), 0 <= i < n_free_list_ -> (x, s) ∈ fl i ->
      (x, s, true) ∈ chunks_of l1 n l2 /\ Z.log2 s = i;
  hole_all : forall (x s : Z), (x, s, true) ∈ chunks_of l1 n l2 ->
      (x, s) ∈ fl (Z.log2 s);
  hole_nodup : forall i, 0 <= i < n_free_list_ -> NoDup (fl i)
}.

(** The representation invariant: chunks tile the committed segment, every
    free chunk is on the list of its size class and nowhere else, and no
    two neighbours are both free. *)
Definition Rep (m : gmap Z Z) (sz : Z) (l : list (Z * bool))
    (fl : Z -> list (Z * Z)) : Prop :=
  Hole m sz l 0 [] fl /\ no_adj_free l = true.

Definition arena_ok (st : state) : Prop :=
  sem_ st = 1 /\ exists l fl, Rep (mem st) (size_ st) l fl.

(** Nodes of the free lists: the dummy heads and the chunks. *)
Definition node (l1 : list (Z * bool)) (n : Z) (l2 : list (Z * bool))
    (u : Z * Z) : Prop :=
  (exists k, 0 <= k < n_free_list_ /\ u = (head k, 0)) \/
  (exists f, (fst u, snd u, f) ∈ chunks_of l1 n l2).

(** Whether the last / first chunk of a sequence is free. *)
Fixpoint last_free (l : list (Z * bool)) : bool :=
  match l with
  | [] => false
  | (_, f) :: l' => match l' with [] => f | _ :: _ => last_free l' end
  end.

Definition head_free (l : list (Z * bool)) : bool :=
  match l with
  | (_, f) :: _ => f
  | [] => false
  end.

(** Detach a free chunk from the end / the front of a sequence: what is
    left, and the bytes the detached chunk covered (0 when the neighbour is
    absent or allocated). *)
Fixpoint pop_free_tail (l : list (Z * bool)) : list (Z * bool) * Z :=
  match l with
  | [] => ([], 0)
  | (s, f) :: l' =>
      match l' with
      | [] => if f then ([], s + sizeof_chunk) else ([(s, f)], 0)
      | _ :: _ => let r := pop_free_tail l' in ((s, f) :: fst r, snd r)
      end
  end.

Definition pop_free_head (l : list (Z * bool)) : list (Z * bool) * Z :=
  match l with
  | (s, true) :: l' => (l', s + sizeof_chunk)
  | _ => (l, 0)
  end.

(** The memory after [add_chunk] has written the boundary tags of a chunk
    of [n] bytes at [c]. *)
Definition write_tags (m : gmap Z Z) (c n : Z) : gmap Z Z :=
  <[c + n - 8 := NULL]> (<[c + n - 16 := n - sizeof_chunk]>
    (<[c + 8 := NULL]> (<[c := n - sizeof_chunk]> m))).

(** What [chunk::allocate(r)] turns a free chunk of payload size [s] into. *)
Definition alloc_split (s r : Z) : list (Z * bool) :=
  if min_chunk_size_ <=? s - r
  then [(r, false); (s - r - sizeof_chunk, true)]
  else [(s, false)].

(** [c ⊑ c']: wherever [c] does not run out of fuel, [c'] agrees with it. *)
Definition le_M {A} (c c' : M A) : Prop :=
  forall st, c st = Timeout \/ c' st = c st.

(** First fit along a list of (address, payload size) pairs. *)
Fixpoint find_fit (r : Z) (L : list (Z * Z)) : option (Z * Z) :=
  match L with
  | [] => None
  | (x, s) :: L' => if r <=? s then Some (x, s) else find_fit r L'
  end.

(** The free lists of [k] consecutive size classes from class [i] on,
    one after the other. *)
Fixpoint classes_from (k : nat) (i : Z) (fl : Z -> list (Z * Z)) : list (Z * Z) :=
  match k with
  | O => []
  | S k' => fl i ++ classes_from k' (i + 1) fl
  end.

Definition candidates (fl : Z -> list (Z * Z)) (i : Z) : list (Z * Z) :=
  classes_from (Z.to_nat (n_free_list_ - i)) i fl.

(** [n] rounded up to a multiple of the payload alignment. *)
Definition aligned_size (n : Z) : Z := data_align_ * ((n + data_align_ - 1) / data_align_).

(** Payload addresses of the allocated chunks of a sequence laid out from
    address [a]. *)
Fixpoint payloads (a : Z) (l : list (Z * bool)) : list Z :=
  match l with
  | [] => []
  | (s, f) :: l' =>
      (if f then [] else [a + sizeof_chunk_header]) ++
      payloads (a + s + sizeof_chunk) l'
  end.

(** The pointers handed out and not yet given back: each once, and exactly
    the payloads of the allocated chunks. *)
Definition live_ok (a : Z) (live : list Z) (l : list (Z * bool)) : Prop :=
  NoDup live /\ forall p, p ∈ live <-> p ∈ payloads a l.

(** Free-list descriptions after linking / unlinking a chunk. *)
Definition fl_add (i : Z) (c : Z * Z) (fl : Z -> list (Z * Z)) : Z -> list (Z * Z) :=
  fun j => if j =? i then c :: fl j else fl j.
Definition fl_set (i : Z) (L : list (Z * Z)) (fl : Z -> list (Z * Z)) : Z -> list (Z * Z) :=
  fun j => if j =? i then L else fl j.

(** Two nodes whose byte ranges do not overlap. *)
Definition apart (u v : Z * Z) : Prop :=
  fst u + snd u + sizeof_chunk <= fst v \/ fst v + snd v + sizeof_chunk <= fst u.

Fixpoint all_apart (L : list (Z * Z)) : Prop :=
  match L with
  | [] => True
  | u :: L' => 0 <= snd u /\ Forall (apart u) L' /\ all_apart L'
  end.

Fixpoint last_node (p : Z * Z) (L : list (Z * Z)) : Z * Z :=
  match L with
  | [] => p
  | q :: L' => last_node q L'
  end.

Definition head_addr (L : list (Z * Z)) : Z :=
  match L with
  | [] => NULL
  | (c, _) :: _ => c
  end.

(** The memory after [remove] on chunk [x] of payload size [s], whose list
    neighbours are [p0] (payload size [sp0]) and [n0]. *)
Definition unlink (m : gmap Z Z) (x s p0 sp0 n0 : Z) : gmap Z Z :=
  let m3 := <[p0 + sp0 + 24 := n0]> (<[x + s + 24 := NULL]> (<[x + 8 := NULL]> m)) in
  if n0 =? NULL then m3 else <[n0 + 8 := p0]> m3.

(** The memory after [add] on chunk [c] of payload size [s], pushed in front
    of [n0] on the list headed by [p]. *)
Definition link (m : gmap Z Z) (c s p n0 : Z) : gmap Z Z :=
  let m3 := <[c + s + 24 := n0]> (<[c + 8 := p]> (<[p + 24 := c]> m)) in
  if n0 =? NULL then m3 else <[n0 + 8 := c]> m3.

End with_driver.
End heap.

(** ** Histories of an arena

    [reachable st live]: the state [st] is reached from a freshly constructed
    arena by calls of [allocate] and [deallocate]; [live] lists the pointers
    that [allocate] returned and that were not passed to [deallocate] since.
    A call that throws also yields a state, the one it leaves behind. *)

Module arena.
Section with_driver.

Variable driver_ : Z.
Variable ftruncate_ok : Z -> bool.

Definition drop (p : Z) (live : list Z) : list Z :=
  filter (fun q => q <> p) live.

Inductive reachable : state -> list Z -> Prop :=
| reach_construct fuel size st0 st :
    min_size_ <= size <= max_size_ ->
    driver.construct driver_ fuel size st0 = Ok tt st ->
    reachable st []
| reach_allocate fuel n st live p st' :
    reachable st live -> 0 <= n < word_mod ->
    driver.allocate driver_ ftruncate_ok fuel n st = Ok p st' ->
    reachable st' (if p =? NULL then live else p :: live)
| reach_allocate_throw fuel n st live e st' :
    reachable st live -> 0 <= n < word_mod ->
    driver.allocate driver_ ftruncate_ok fuel n st = Throw e st' ->
    reachable st' live
| reach_deallocate fuel p n st live st' :
    reachable st live -> p = NULL \/ p ∈ live ->
    driver.deallocate driver_ fuel p n st = Ok tt st' ->
    reachable st' (drop p live).

(** The invariant of reachable states. *)
Definition inv (st : state) (live : list Z) : Prop :=
  sem_ st = 1 /\
  exists l fl,
    heap.Rep driver_ (mem st) (size_ st) l fl /\
    heap.live_ok (heap.first driver_) live l.

End with_driver.
End arena.

(** ** The process-local handle [global_shared_allocator] and
       [driver::create] / [driver::destroy]

    The operating system is a record of answers: what each system call
    returns.  The effect of [mmap] and [munmap] on the address space of the
    process is kept as the list of mapped ranges (address, length). *)

Module gsa.

(** Linux values of the flags the source names. *)
Definition O_WRONLY : Z := 1.
Definition O_RDWR : Z := 2.
Definition O_CREAT : Z := 64.
Definition O_TRUNC : Z := 512.
Definition PROT_READ : Z := 1.
Definition PROT_WRITE : Z := 2.
Definition MAP_SHARED : Z := 1.
Definition MAP_FIXED_NOREPLACE : Z := 1048576.
Definition MAP_FAILED : Z := word_mod - 1.

Inductive syscall : Type :=
| sys_shm_open (name : string) (oflag mode : Z)
| sys_fstat (fd : Z)
| sys_ftruncate (fd len : Z)
| sys_mmap (hint len prot flags fd : Z)
| sys_munmap (addr len : Z)
| sys_close (fd : Z)
| sys_shm_unlink (name : string).

Record os : Type := mkOs {
  os_shm_open : string -> Z -> Z -> Z;
  os_fstat : Z -> option (Z * Z);
  os_ftruncate : Z -> Z -> bool;
  os_mmap : Z -> Z -> Z -> Z -> Z;
  os_munmap : Z -> Z -> bool;
  os_shm_unlink : string -> bool
}.

(** The static members of [global_shared_allocator], the ranges this process
    has mapped, and the system calls it has made (latest first). *)
Record process : Type := mkProcess {
  name_ : string;
  shmfd_ : Z;
  oflag_ : Z;
  driver_ : Z;
  maps : list (Z * Z);
  trace : list syscall
}.

Definition call (c : syscall) (p : process) : process :=
  mkProcess (name_ p) (shmfd_ p) (oflag_ p) (driver_ p) (maps p) (c :: trace p).
Definition set_driver_ (d : Z) (p : process) : process :=
  mkProcess (name_ p) (shmfd_ p) (oflag_ p) d (maps p) (trace p).
Definition set_maps (m : list (Z * Z)) (p : process) : process :=
  mkProcess (name_ p) (shmfd_ p) (oflag_ p) (driver_ p) m (trace p).

(** What is left of the range [(b, n)] once [(a, len)] is unmapped. *)
Definition cut (a len : Z) (r : Z * Z) : list (Z * Z) :=
  let b := fst r in
  let n := snd r in
  (if (b <? a) && (0 <? Z.min (b + n) a - b) then [(b, Z.min (b + n) a - b)] else []) ++
  (if (a + len <? b + n) && (0 <? b + n - Z.max b (a + len))
   then [(Z.max b (a + len), b + n - Z.max b (a + len))] else []).

Definition unmap (a len : Z) (m : list (Z * Z)) : list (Z * Z) :=
  concat (map (cut a len) m).

Definition mapped (m : list (Z * Z)) (x : Z) : bool :=
  existsb (fun r => (fst r <=? x) && (x <? fst r + snd r)) m.

Inductive result (A : Type) : Type :=
| Done (a : A) (p : process) (sh : state)
| Fail (e : exn) (p : process) (sh : state)
| Stuck.

Arguments Done {A} a p sh.
Arguments Fail {A} e p sh.
Arguments Stuck {A}.

Section with_os.

Variable sys : os.

Definition to_string (z : Z) : string :=
  DecimalString.NilZero.string_of_int (Z.to_int z).

Definition map_prot (p : process) : Z :=
  let prot := PROT_READ in
  let prot := if negb (Z.land (oflag_ p) O_WRONLY =? 0)
              then Z.land prot (Z.lnot PROT_READ) else prot in
  let prot := if negb (Z.land (oflag_ p) O_RDWR =? 0)
              then Z.lor prot PROT_WRITE else prot in
  prot.

(** [driver::create] *)
Definition create (fuel : nat) (p : process) (sh : state) : result unit :=
  let p := call (sys_fstat (shmfd_ p)) p in
  match os_fstat sys (shmfd_ p) with
  | None => Fail (system_error "fstat") p sh
  | Some (st_size, _) =>
      let size := st_size in
      if max_size_ <? size
      then Fail (logic_error ("shared memory too large: " ++ to_string size ++ " bytes")) p sh
      else
        let grown := size <? min_size_ in
        let p := if grown then call (sys_ftruncate (shmfd_ p) min_size_) p else p in
        if grown && negb (os_ftruncate sys (shmfd_ p) min_size_)
        then Fail (system_error "ftruncate") p sh
        else
          let size := if grown then min_size_ else size in
          let p := call (sys_mmap NULL max_size_ (map_prot p) MAP_SHARED (shmfd_ p)) p in
          let addr := os_mmap sys NULL max_size_ (map_prot p) MAP_SHARED in
          if addr =? MAP_FAILED then Fail (system_error "mmap") p sh
          else
            let p := set_maps ((addr, max_size_) :: maps p) p in
            let p := set_driver_ addr p in
            if negb (Z.land (oflag_ p) O_TRUNC =? 0) then
              match driver.construct addr fuel size sh with
              | Ok _ sh' => Done tt p sh'
              | Throw e sh' => Fail e p sh'
              | Blocked => Stuck
              | Timeout => Stuck
              end
            else
              let hint := addr_ sh in
              if hint =? addr then Done tt p sh
              else
                let p := call (sys_munmap addr size) p in
                if negb (os_munmap sys addr size) then Fail (system_error "munmap") p sh
                else
                  let p := set_maps (unmap addr size (maps p)) p in
                  let flags := Z.lor MAP_SHARED MAP_FIXED_NOREPLACE in
                  let p := call (sys_mmap hint max_size_ (map_prot p) flags (shmfd_ p)) p in
                  let addr := os_mmap sys hint max_size_ (map_prot p) flags in
                  let p := if addr =? MAP_FAILED then p
                           else set_maps ((addr, max_size_) :: maps p) p in
                  if addr =? hint then Done tt p sh
                  else Fail (system_error "mmap") p sh
  end.

(** [driver::destroy]; the destructor of [driver] is empty. *)
Definition destroy (instance : Z) (p : process) (sh : state) : result unit :=
  let p := call (sys_munmap instance max_size_) p in
  if negb (os_munmap sys instance max_size_) then Fail (system_error "munmap") p sh
  else Done tt (set_maps (unmap instance max_size_ (maps p)) p) sh.

(** [shm_open]; [name] is [None] for a NULL pointer.  The value returned is
    [shm_name()]. *)
Definition shm_open (fuel : nat) (name : option string) (oflag mode : Z)
    (p : process) (sh : state) : result string :=
  if negb (driver_ p =? NULL)
  then Fail (logic_error "duplicate call to shm_open") p sh
  else
    let nm := match name with Some s => s | None => name_ p end in
    let fd := os_shm_open sys nm oflag mode in
    let p := mkProcess nm fd oflag (driver_ p) (maps p)
               (sys_shm_open nm oflag mode :: trace p) in
    if fd <? 0 then Fail (system_error "shm_open") p sh
    else
      match create fuel p sh with
      | Done _ p' sh' => Done (name_ p') p' sh'
      | Fail e p' sh' => Fail e p' sh'
      | Stuck => Stuck
      end.

Definition shm_close (p : process) (sh : state) : result unit :=
  if driver_ p =? NULL
  then Fail (logic_error "invalid call to shm_close") p sh
  else
    match destroy (driver_ p) p sh with
    | Done _ p' sh' =>
        let p' := call (sys_close (shmfd_ p')) p' in
        Done tt (mkProcess (name_ p') (-1) 0 NULL (maps p') (trace p')) sh'
    | Fail e p' sh' => Fail e p' sh'
    | Stuck => Stuck
    end.

Definition shm_unlink (p : process) (sh : state) : result unit :=
  let p' := call (sys_shm_unlink (name_ p)) p in
  if negb (os_shm_unlink sys (name_ p)) then Fail (system_error "shm_unlink") p' sh
  else Done tt p' sh.

Definition shm_mode (p : process) (sh : state) : result Z :=
  let p' := call (sys_fstat (shmfd_ p)) p in
  match os_fstat sys (shmfd_ p) with
  | None => Fail (system_error "fstat") p' sh
  | Some (_, st_mode) => Done st_mode p' sh
  end.

Definition shm_name (p : process) : string := name_ p.
Definition shm_oflag (p : process) : Z := oflag_ p.

(** [global_shared_allocator::allocate], [deallocate]: forwarded to the
    driver this process has mapped. *)
Definition allocate (fuel : nat) (n : Z) (p : process) : M Z :=
  driver.allocate (driver_ p) (os_ftruncate sys (shmfd_ p)) fuel n.
Definition deallocate (fuel : nat) (q n : Z) (p : process) : M unit :=
  driver.deallocate (driver_ p) fuel q n.

(** [shared_allocator<T>], with [sizeof_T = sizeof(T)]. *)
Definition typed_allocate (sizeof_T : Z) (fuel : nat) (n : Z) (p : process) : M Z :=
  allocate fuel (wmul n sizeof_T) p.
Definition typed_deallocate (sizeof_T : Z) (fuel : nat) (q n : Z) (p : process) : M unit :=
  deallocate fuel q (wmul n sizeof_T) p.

End with_os.
End gsa.

(** ** A concrete arena

    A segment of min_size_ bytes mapped at address 65536, an operating
    system whose calls succeed, and a process that attaches to the segment:
    the inputs at which the statements below are instantiated. *)

Module example.
Definition base : Z := 65536.
Definition ft (_ : Z) : bool := true.
Definition st0 : state := mkState 0 0 0 ∅.
Definition fresh : state :=
  match driver.construct base 2 min_size_ st0 with Ok _ s => s | _ => st0 end.
Definition after_alloc : state :=
  match driver.allocate base ft 100 64 fresh with Ok _ s => s | _ => fresh end.
Definition sys : gsa.os :=
  gsa.mkOs (fun _ _ _ => 3) (fun _ => Some (4096, 384)) (fun _ _ => true)
    (fun hint _ _ _ => if hint =? NULL then 131072 else hint)
    (fun _ _ => true) (fun _ => true).
Definition attacher : gsa.process :=
  gsa.mkProcess "1.shm" 3 (Z.lor gsa.O_RDWR gsa.O_CREAT) NULL [] [].
End example.

(** * Proofs *)

(** ** Word arithmetic *)

Ltac consts :=
  change word_mod with 18446744073709551616 in *;
  change max_size_ with 4294967296 in *;
  change min_size_ with 4096 in *;
  change data_align_ with 16 in *;
  change min_data_size_ with 16 in *;
  change n_free_list_ with 64 in *;
  change sizeof_chunk_header with 16 in *;
  change sizeof_chunk_footer with 16 in *;
  change sizeof_chunk with 32 in *;
  change min_chunk_size_ with 48 in *;
  change off_size_ with 0 in *;
  change off_link_ with 8 in *;
  change sizeof_sem_t with 32 in *;
  change off_free_list_ with 48 in *;
  change sizeof_driver with 2096 in *;
  change NULL with 0 in *.

Ltac hconsts := unfold heap.first, heap.head in *; consts.

Lemma wrap_small x : 0 <= x < word_mod -> wrap x = x.
Proof. intros. unfold wrap. apply Z.mod_small. lia. Qed.

Lemma wadd_small x y : 0 <= x + y < word_mod -> wadd x y = x + y.
Proof. apply wrap_small. Qed.

Lemma wsub_small x y : 0 <= x - y < word_mod -> wsub x y = x - y.
Proof. apply wrap_small. Qed.

Lemma wmul_small x y : 0 <= x * y < word_mod -> wmul x y = x * y.
Proof. apply wrap_small. Qed.

Lemma wrap_range x : 0 <= wrap x < word_mod.
Proof. unfold wrap. apply Z.mod_pos_bound. reflexivity. Qed.

Ltac wsimp :=
  consts;
  repeat match goal with
    | |- context [wadd ?x ?y] => rewrite (wadd_small x y) by (hconsts; lia)
    | |- context [wsub ?x ?y] => rewrite (wsub_small x y) by (hconsts; lia)
    | |- context [wmul ?x ?y] => rewrite (wmul_small x y) by (hconsts; lia)
    end.

(** ** Memory *)

Lemma read_insert_eq (m : gmap Z Z) a v : read (<[a := v]> m) a = v.
Proof. unfold read. rewrite lookup_insert_eq. reflexivity. Qed.

Lemma read_insert_ne (m : gmap Z Z) a b v :
  a <> b -> read (<[a := v]> m) b = read m b.
Proof. intros. unfold read. rewrite lookup_insert_ne by assumption. reflexivity. Qed.

Lemma read_insert (m : gmap Z Z) a b v :
  read (<[a := v]> m) b = if b =? a then v else read m b.
Proof.
  destruct (Z.eqb_spec b a) as [->|Hne].
  - apply read_insert_eq.
  - apply read_insert_ne. congruence.
Qed.

(** ** Size classes: [list_index] *)

Lemma testbit_top (k s : Z) :
  0 <= k -> 0 <= s < 2 ^ (k + 1) -> Z.testbit s k = (2 ^ k <=? s).
Proof.
  intros Hk Hs.
  assert (Hpow : 2 ^ (k + 1) = 2 * 2 ^ k)
    by (replace (k + 1) with (Z.succ k) by lia; rewrite Z.pow_succ_r; lia).
  assert (Hp : 0 < 2 ^ k) by (apply Z.pow_pos_nonneg; lia).
  destruct (Z.leb_spec (2 ^ k) s) as [Hle|Hlt].
  - apply Z.testbit_true; [lia|].
    assert (s / 2 ^ k = 1) as ->; [|reflexivity].
    symmetry. apply Z.div_unique with (r := s - 2 ^ k); lia.
  - apply Z.testbit_false; [lia|].
    rewrite Z.div_small by lia. reflexivity.
Qed.

Lemma clz_from_log2 (k : nat) (s : Z) :
  0 < s < 2 ^ Z.of_nat k -> clz_from k s = Z.of_nat k - 1 - Z.log2 s.
Proof.
  induction k as [|k IH]; intros Hs.
  - simpl in Hs. lia.
  - cbn [clz_from].
    rewrite testbit_top; [|lia|].
    2:{ replace (Z.of_nat k + 1) with (Z.of_nat (S k)) by lia. lia. }
    destruct (Z.leb_spec (2 ^ Z.of_nat k) s) as [Hle|Hlt].
    + assert (Z.log2 s = Z.of_nat k); [|lia].
      apply Z.log2_unique; [lia|].
      replace (Z.succ (Z.of_nat k)) with (Z.of_nat (S k)) by lia. lia.
    + rewrite IH by lia. lia.
Qed.

Lemma log2_range (s : Z) : 0 < s < word_mod -> 0 <= Z.log2 s < 64.
Proof.
  intros Hs. split; [apply Z.log2_nonneg|].
  apply Z.log2_lt_pow2; [lia|]. exact (proj2 Hs).
Qed.

Lemma list_index_log2 (s : Z) (st : state) :
  0 < s < word_mod ->
  chunk.list_index s st = Ok (Z.log2 s) st.
Proof.
  intros Hs. unfold chunk.list_index.
  destruct (Z.eqb_spec s 0) as [?|_]; [lia|].
  unfold ret, clzll. rewrite (clz_from_log2 64) by exact Hs.
  pose proof (log2_range s Hs).
  rewrite wsub_small by (consts; lia).
  f_equal. lia.
Qed.

(** C8: for every size s > 0 (a size_t), [list_index] returns floor(log2 s),
    the unique k with 2^k <= s < 2^(k+1), and that index lies in
    0 .. N-1 where N = n_free_list_ is the bit width of size_t; for s = 0
    it throws a logic error. *)
Theorem list_index_floor_log2 (s : Z) (st : state) :
  0 < s < 2 ^ word_bits ->
  (exists k, chunk.list_index s st = Ok k st /\
             0 <= k <= n_free_list_ - 1 /\
             n_free_list_ = word_bits /\
             2 ^ k <= s < 2 ^ (k + 1)) /\
  chunk.list_index 0 st = Throw (logic_error "list_index: zero size") st.
Proof.
  intros Hs. split; [|reflexivity].
  exists (Z.log2 s). split; [apply list_index_log2; exact Hs|].
  pose proof (log2_range s Hs) as Hr.
  split; [consts; lia|]. split; [reflexivity|].
  pose proof (Z.log2_spec s (proj1 Hs)) as Hl.
  replace (Z.succ (Z.log2 s)) with (Z.log2 s + 1) in Hl by lia. exact Hl.
Qed.

(** ** Layout of a chunk sequence *)

Import heap.

Lemma total_app l1 l2 : total (l1 ++ l2) = total l1 + total l2.
Proof. induction l1 as [|[s f] l1 IH]; simpl; lia. Qed.

Lemma layout_app a l1 l2 :
  layout a (l1 ++ l2) = layout a l1 ++ layout (a + total l1) l2.
Proof.
  revert a. induction l1 as [|[s f] l1 IH]; intros a; simpl.
  - f_equal. lia.
  - rewrite IH. do 3 f_equal. lia.
Qed.

Lemma sizes_ok_app l1 l2 : sizes_ok (l1 ++ l2) <-> sizes_ok l1 /\ sizes_ok l2.
Proof. unfold sizes_ok. apply Forall_app. Qed.

Lemma sizes_ok_cons s f l :
  sizes_ok ((s, f) :: l) <-> (16 <= s /\ s mod 16 = 0) /\ sizes_ok l.
Proof. unfold sizes_ok. rewrite Forall_cons. reflexivity. Qed.

Lemma sizes_ok_nil : sizes_ok [].
Proof. constructor. Qed.

Lemma total_nonneg l : sizes_ok l -> 0 <= total l.
Proof.
  induction l as [|[s f] l IH]; simpl; intros H; [lia|].
  apply sizes_ok_cons in H as [[? ?] H']. specialize (IH H'). consts. lia.
Qed.

Lemma total_mod l : sizes_ok l -> total l mod 16 = 0.
Proof.
  induction l as [|[s f] l IH]; simpl; intros H; [reflexivity|].
  apply sizes_ok_cons in H as [[? Hs] H']. specialize (IH H'). consts.
  rewrite <- Z.add_assoc, Z.add_mod, Hs by lia.
  rewrite (Z.add_mod 32), IH by lia. reflexivity.
Qed.

Lemma layout_bounds a l x s f :
  sizes_ok l -> (x, s, f) ∈ layout a l ->
  a <= x /\ x + s + 32 <= a + total l /\ 16 <= s /\ s mod 16 = 0 /\
  (x - a) mod 16 = 0.
Proof.
  revert a. induction l as [|[s0 f0] l IH]; intros a Hok Hin; simpl in *.
  - inversion Hin.
  - apply sizes_ok_cons in Hok as [[Hs Hm] Hok].
    pose proof (total_nonneg l Hok) as Ht.
    apply elem_of_cons in Hin as [Heq|Hin].
    + inversion Heq; subst. consts. rewrite Z.sub_diag. repeat split; try lia; auto.
    + specialize (IH _ Hok Hin) as (H1 & H2 & H3 & H4 & H5). consts.
      repeat split; try lia.
      replace (x - a) with ((x - (a + s0 + 32)) + (s0 + 32)) by lia.
      rewrite Z.add_mod, H5 by lia.
      rewrite (Z.add_mod s0), Hm by lia. reflexivity.
Qed.

Lemma layout_disjoint a l x s f y t g :
  sizes_ok l -> (x, s, f) ∈ layout a l -> (y, t, g) ∈ layout a l ->
  (x, s, f) = (y, t, g) \/ x + s + 32 <= y \/ y + t + 32 <= x.
Proof.
  revert a. induction l as [|[s0 f0] l IH]; intros a Hok Hx Hy; simpl in *.
  - inversion Hx.
  - apply sizes_ok_cons in Hok as [[Hs Hm] Hok].
    apply elem_of_cons in Hx as [Hx|Hx]; apply elem_of_cons in Hy as [Hy|Hy].
    + left. congruence.
    + inversion Hx; subst. right; left.
      apply (layout_bounds _ _ _ _ _ Hok) in Hy. consts. lia.
    + inversion Hy; subst. right; right.
      apply (layout_bounds _ _ _ _ _ Hok) in Hx. consts. lia.
    + eauto.
Qed.

Lemma layout_head_free a l x s f :
  (x, s, f) ∈ layout a l -> exists l1 l2, l = l1 ++ (s, f) :: l2 /\ x = a + total l1.
Proof.
  revert a. induction l as [|[s0 f0] l IH]; intros a Hin; simpl in *.
  - inversion Hin.
  - apply elem_of_cons in Hin as [Heq|Hin].
    + inversion Heq; subst. exists [], l. simpl. split; [reflexivity|lia].
    + destruct (IH _ Hin) as (l1 & l2 & -> & ->).
      exists ((s0, f0) :: l1), l2. simpl. split; [reflexivity|]. consts. lia.
Qed.

Lemma layout_mid a l1 s f l2 :
  (a + total l1, s, f) ∈ layout a (l1 ++ (s, f) :: l2).
Proof.
  rewrite layout_app. apply elem_of_app. right. simpl. apply elem_of_cons. left. reflexivity.
Qed.

Ltac Zify.zify_post_hook ::= Z.to_euclidean_division_equations.

Lemma bind_step {A B} (c : M A) (k : A -> M B) st a st' r :
  c st = Ok a st' -> k a st' = r -> bind c k st = r.
Proof. intros Hc Hk. unfold bind. rewrite Hc. exact Hk. Qed.

Lemma bind_throw {A B} (c : M A) (k : A -> M B) st e st' :
  c st = Throw e st' -> bind c k st = Throw e st'.
Proof. intros Hc. unfold bind. rewrite Hc. reflexivity. Qed.

Lemma dlls_nil m p sp : dlls m p sp [] <-> read m (p + sp + 24) = 0.
Proof. simpl. consts. replace (p + sp + 16 + 8) with (p + sp + 24) by lia. reflexivity. Qed.

Lemma dlls_cons m p sp c sc L :
  dlls m p sp ((c, sc) :: L) <->
  read m (p + sp + 24) = c /\ read m (c + 8) = p /\ dlls m c sc L.
Proof. simpl. consts. replace (p + sp + 16 + 8) with (p + sp + 24) by lia. reflexivity. Qed.

Lemma dlls_frame m m' p sp L :
  dlls m p sp L ->
  (forall x s, (x, s) ∈ (p, sp) :: L -> read m' (x + s + 24) = read m (x + s + 24)) ->
  (forall x s, (x, s) ∈ L -> read m' (x + 8) = read m (x + 8)) ->
  dlls m' p sp L.
Proof.
  revert p sp. induction L as [|[c sc] L IH]; intros p sp HL Hn Hp.
  - apply dlls_nil. apply dlls_nil in HL.
    rewrite Hn by (apply elem_of_cons; auto). exact HL.
  - apply dlls_cons. apply dlls_cons in HL. destruct HL as (Hn1 & Hp1 & HL).
    rewrite Hn by (apply elem_of_cons; auto).
    rewrite (Hp c sc) by (apply elem_of_cons; auto).
    repeat split; auto. apply IH; auto.
    + intros x s Hx. apply Hn. apply elem_of_cons. right. exact Hx.
    + intros x s Hx. apply (Hp x s). apply elem_of_cons. right. exact Hx.
Qed.

(** ** Field accessors *)

Lemma footer_eq m c s :
  read m c = s -> 0 <= c -> 0 <= s -> c + s + 32 < word_mod ->
  chunk.footer m c = c + s + 16.
Proof.
  intros Hr Hc Hs Hb. unfold chunk.footer, chunk.full_size, chunk.size, chunk.header.
  consts. rewrite (wadd_small c 0) by (consts; lia). rewrite Z.add_0_r, Hr.
  wsimp. lia.
Qed.

Lemma header_size_eq c st :
  0 <= c < word_mod -> chunk.header_size c st = Ok (read (mem st) c) st.
Proof.
  intros Hc. unfold chunk.header_size, gets, chunk.size, chunk.header.
  wsimp. rewrite Z.add_0_r. reflexivity.
Qed.

Lemma header_prev_eq c st :
  0 <= c -> c + 8 < word_mod ->
  chunk.header_prev c st = Ok (read (mem st) (c + 8)) st.
Proof.
  intros. unfold chunk.header_prev, load, gets, chunk.header. wsimp. reflexivity.
Qed.

Lemma set_header_size_eq c v st :
  0 <= c < word_mod ->
  chunk.set_header_size c v st = Ok tt (set_mem (<[c := v]> (mem st)) st).
Proof.
  intros. unfold chunk.set_header_size, store, modify, chunk.header. wsimp.
  rewrite Z.add_0_r. reflexivity.
Qed.

Lemma set_header_prev_eq c v st :
  0 <= c -> c + 8 < word_mod ->
  chunk.set_header_prev c v st = Ok tt (set_mem (<[c + 8 := v]> (mem st)) st).
Proof.
  intros. unfold chunk.set_header_prev, store, modify, chunk.header. wsimp. reflexivity.
Qed.

Lemma footer_size_eq c s st :
  read (mem st) c = s -> 0 <= c -> 0 <= s -> c + s + 32 < word_mod ->
  chunk.footer_size c st = Ok (read (mem st) (c + s + 16)) st.
Proof.
  intros. unfold chunk.footer_size, bind, gets, load.
  rewrite (footer_eq _ c s) by assumption. wsimp. rewrite Z.add_0_r. reflexivity.
Qed.

Lemma footer_next_eq c s st :
  read (mem st) c = s -> 0 <= c -> 0 <= s -> c + s + 32 < word_mod ->
  chunk.footer_next c st = Ok (read (mem st) (c + s + 24)) st.
Proof.
  intros. unfold chunk.footer_next, bind, gets, load.
  rewrite (footer_eq _ c s) by assumption. wsimp.
  replace (c + s + 16 + 8) with (c + s + 24) by lia. reflexivity.
Qed.

Lemma set_footer_size_eq c s v st :
  read (mem st) c = s -> 0 <= c -> 0 <= s -> c + s + 32 < word_mod ->
  chunk.set_footer_size c v st = Ok tt (set_mem (<[c + s + 16 := v]> (mem st)) st).
Proof.
  intros. unfold chunk.set_footer_size, bind, gets, store, modify.
  rewrite (footer_eq _ c s) by assumption. wsimp. rewrite Z.add_0_r. reflexivity.
Qed.

Lemma set_footer_next_eq c s v st :
  read (mem st) c = s -> 0 <= c -> 0 <= s -> c + s + 32 < word_mod ->
  chunk.set_footer_next c v st = Ok tt (set_mem (<[c + s + 24 := v]> (mem st)) st).
Proof.
  intros. unfold chunk.set_footer_next, bind, gets, store, modify.
  rewrite (footer_eq _ c s) by assumption. wsimp.
  replace (c + s + 16 + 8) with (c + s + 24) by lia. reflexivity.
Qed.

Lemma land_align x : Z.land x (data_align_ - 1) = x mod 16.
Proof. change (data_align_ - 1) with (Z.ones 4). apply Z.land_ones. lia. Qed.

Lemma get_chunk_eq d st :
  d mod 16 = 0 -> 16 <= d < word_mod ->
  chunk.get_chunk d st = Ok (d - 16) st.
Proof.
  intros Hm Hd. unfold chunk.get_chunk. rewrite land_align, Hm. simpl.
  unfold ret. wsimp. reflexivity.
Qed.

(** ** Linking and unlinking in a doubly linked list *)

Lemma dlls_store m p sp L a v :
  dlls m p sp L ->
  (forall x s, (x, s) ∈ (p, sp) :: L -> a <> x + s + 24) ->
  (forall x s, (x, s) ∈ L -> a <> x + 8) ->
  dlls (<[a := v]> m) p sp L.
Proof.
  intros HL Hn Hp. eapply dlls_frame; [exact HL| |].
  - intros x s Hx. apply read_insert_ne. eauto.
  - intros x s Hx. apply read_insert_ne. eauto.
Qed.

Lemma all_apart_cons u L :
  all_apart (u :: L) <-> 0 <= snd u /\ Forall (apart u) L /\ all_apart L.
Proof. reflexivity. Qed.

Lemma all_apart_app_r L1 L2 : all_apart (L1 ++ L2) -> all_apart L2.
Proof.
  induction L1 as [|u L1 IH]; simpl; [auto|]. intros (_ & _ & H). auto.
Qed.

Lemma all_apart_nonneg L u : all_apart L -> u ∈ L -> 0 <= snd u.
Proof.
  induction L as [|v L IH]; intros HL Hu; [inversion Hu|].
  destruct HL as (Hv & _ & HL). apply elem_of_cons in Hu as [->|Hu]; auto.
Qed.

Lemma unlink_read m x s p0 sp0 n0 a :
  a <> x + 8 -> a <> x + s + 24 -> a <> p0 + sp0 + 24 -> (n0 <> 0 -> a <> n0 + 8) ->
  read (unlink m x s p0 sp0 n0) a = read m a.
Proof.
  intros H1 H2 H3 H4. unfold unlink. consts.
  destruct (Z.eqb_spec n0 0) as [?|Hn].
  - rewrite !read_insert_ne by lia. reflexivity.
  - specialize (H4 Hn). rewrite !read_insert_ne by lia. reflexivity.
Qed.

Lemma link_read m c s p n0 a :
  a <> p + 24 -> a <> c + 8 -> a <> c + s + 24 -> (n0 <> 0 -> a <> n0 + 8) ->
  read (link m c s p n0) a = read m a.
Proof.
  intros H1 H2 H3 H4. unfold link. consts.
  destruct (Z.eqb_spec n0 0) as [?|Hn].
  - rewrite !read_insert_ne by lia. reflexivity.
  - specialize (H4 Hn). rewrite !read_insert_ne by lia. reflexivity.
Qed.

Lemma unlink_read_tag m x s p0 sp0 n0 a :
  a mod 16 = 0 -> x mod 16 = 0 -> s mod 16 = 0 -> p0 mod 16 = 0 ->
  sp0 mod 16 = 0 -> n0 mod 16 = 0 ->
  read (unlink m x s p0 sp0 n0) a = read m a.
Proof. intros. apply unlink_read; lia. Qed.

Lemma link_read_tag m c s p n0 a :
  a mod 16 = 0 -> c mod 16 = 0 -> s mod 16 = 0 -> p mod 16 = 0 -> n0 mod 16 = 0 ->
  read (link m c s p n0) a = read m a.
Proof. intros. apply link_read; lia. Qed.

(** Frame for a list whose nodes are all apart from the unlinked chunk and
    from its predecessor. *)
Lemma dlls_unlink_frame m x s p0 sp0 n0 q sq L :
  dlls m q sq L ->
  0 <= s -> 0 <= sp0 ->
  Forall (apart (x, s)) ((q, sq) :: L) ->
  Forall (apart (p0, sp0)) ((q, sq) :: L) ->
  all_apart ((q, sq) :: L) ->
  (n0 <> 0 -> exists sn, 0 <= sn /\
     Forall (fun u => u = (n0, sn) \/ apart (n0, sn) u) ((q, sq) :: L) /\
     (n0, sn) ∉ L) ->
  dlls (unlink m x s p0 sp0 n0) q sq L.
Proof.
  intros HL Hs Hsp Hx Hp0 Hap Hn0.
  eapply dlls_frame; [exact HL| |].
  - intros u su Hu.
    pose proof (all_apart_nonneg _ _ Hap Hu) as Hsu. simpl in Hsu.
    pose proof (proj1 (Forall_forall _ _) Hx _ Hu) as Hux.
    pose proof (proj1 (Forall_forall _ _) Hp0 _ Hu) as Hup.
    unfold apart in *; simpl in *; consts.
    apply unlink_read; try lia.
    intros Hn. destruct (Hn0 Hn) as (sn & Hsn & Hf & _).
    pose proof (proj1 (Forall_forall _ _) Hf _ Hu) as [Heq|Hun].
    + inversion Heq; subst. lia.
    + simpl in Hun. lia.
  - intros u su Hu.
    assert (Hu' : (u, su) ∈ (q, sq) :: L) by (apply elem_of_cons; auto).
    pose proof (all_apart_nonneg _ _ Hap Hu') as Hsu. simpl in Hsu.
    pose proof (proj1 (Forall_forall _ _) Hx _ Hu') as Hux.
    pose proof (proj1 (Forall_forall _ _) Hp0 _ Hu') as Hup.
    unfold apart in *; simpl in *; consts.
    apply unlink_read; try lia.
    intros Hn. destruct (Hn0 Hn) as (sn & Hsn & Hf & Hni).
    pose proof (proj1 (Forall_forall _ _) Hf _ Hu') as [Heq|Hun].
    + inversion Heq; subst. contradiction.
    + simpl in Hun. lia.
Qed.

Lemma last_node_in p L : last_node p L ∈ p :: L.
Proof.
  revert p. induction L as [|q L IH]; intros p; simpl.
  - apply elem_of_cons. auto.
  - apply elem_of_cons. right. apply IH.
Qed.

Lemma dlls_mid_reads m p sp La x s Lb :
  dlls m p sp (La ++ (x, s) :: Lb) ->
  read m (x + 8) = fst (last_node (p, sp) La) /\
  read m (x + s + 24) = head_addr Lb.
Proof.
  revert p sp. induction La as [|[q sq] La IH]; intros p sp HL.
  - simpl in *. apply dlls_cons in HL as (_ & Hp & HL). split; [exact Hp|].
    destruct Lb as [|[n0 sn] Lb].
    + apply dlls_nil in HL. exact HL.
    + apply dlls_cons in HL as (Hn & _). exact Hn.
  - change (((q, sq) :: La) ++ (x, s) :: Lb) with ((q, sq) :: La ++ (x, s) :: Lb) in HL.
    apply dlls_cons in HL as (_ & _ & HL). simpl. apply IH. exact HL.
Qed.

Lemma dlls_unlink m p sp La x s Lb :
  all_apart ((p, sp) :: La ++ (x, s) :: Lb) ->
  (forall u, u ∈ Lb -> fst u <> 0) ->
  dlls m p sp (La ++ (x, s) :: Lb) ->
  dlls (unlink m x s (fst (last_node (p, sp) La)) (snd (last_node (p, sp) La))
          (head_addr Lb)) p sp (La ++ Lb).
Proof.
  revert p sp. induction La as [|[q sq] La IH]; intros p sp Hap Hnz HL.
  - simpl in *. destruct Hap as (Hsp & Hfp & Hsx & Hfx & HapL).
    apply Forall_cons in Hfp as [Hpx Hfp].
    apply dlls_cons in HL as (Hpn & Hxp & HL).
    unfold apart in Hpx; simpl in Hpx; consts.
    destruct Lb as [|[n0 sn] Lb].
    + simpl. apply dlls_nil. unfold unlink. consts. simpl.
      apply read_insert_eq.
    + assert (Hn0 : n0 <> 0) by (apply (Hnz (n0, sn)); apply elem_of_cons; auto).
      apply dlls_cons in HL as (Hxn & Hnx & HL).
      apply Forall_cons in Hfp as [Hpn0 Hfp].
      apply Forall_cons in Hfx as [Hxn0 Hfx].
      destruct HapL as (Hsn & Hfn & HapL).
      unfold apart in Hpn0, Hxn0; simpl in Hpn0, Hxn0, Hsn; consts.
      apply dlls_cons. simpl head_addr. repeat split.
      * unfold unlink. consts. destruct (Z.eqb_spec n0 0) as [?|_]; [lia|].
        rewrite read_insert_ne by lia. apply read_insert_eq.
      * unfold unlink. consts. destruct (Z.eqb_spec n0 0) as [?|_]; [lia|].
        apply read_insert_eq.
      * apply (dlls_unlink_frame m x s p sp n0 n0 sn Lb HL Hsx Hsp).
        -- apply Forall_cons. split; [exact Hxn0|exact Hfx].
        -- apply Forall_cons. split; [exact Hpn0|exact Hfp].
        -- simpl. auto.
        -- intros _. exists sn. split; [exact Hsn|]. split.
           ++ apply Forall_cons. split; [left; reflexivity|].
              eapply Forall_impl; [exact Hfn|]. intros u Hu. right. exact Hu.
           ++ intros Hin. pose proof (proj1 (Forall_forall _ _) Hfn _ Hin) as Hc.
              unfold apart in Hc. simpl in Hc. consts. lia.
  - change (((q, sq) :: La) ++ (x, s) :: Lb) with ((q, sq) :: La ++ (x, s) :: Lb) in *.
    change (((q, sq) :: La) ++ Lb) with ((q, sq) :: La ++ Lb).
    change (last_node (p, sp) ((q, sq) :: La)) with (last_node (q, sq) La).
    destruct Hap as (Hsp & Hfp & Hap).
    apply dlls_cons in HL as (Hpq & Hqp & HL).
    specialize (IH q sq Hap Hnz HL).
    apply dlls_cons. repeat split; [| |exact IH].
    + pose proof (last_node_in (q, sq) La) as Hlast.
      destruct (last_node (q, sq) La) as [p0 sp0] eqn:E. simpl.
      assert (Hp0 : apart (p, sp) (p0, sp0)).
      { apply (proj1 (Forall_forall _ _) Hfp).
        change ((q, sq) :: La ++ (x, s) :: Lb) with (((q, sq) :: La) ++ (x, s) :: Lb).
        apply elem_of_app. left. exact Hlast. }
      assert (Hx : apart (p, sp) (x, s)).
      { apply (proj1 (Forall_forall _ _) Hfp).
        apply elem_of_cons. right. apply elem_of_app. right. apply elem_of_cons. auto. }
      assert (Hs0 : 0 <= sp0).
      { apply (all_apart_nonneg _ (p0, sp0) Hap).
        change ((q, sq) :: La ++ (x, s) :: Lb) with (((q, sq) :: La) ++ (x, s) :: Lb).
        apply elem_of_app. left. exact Hlast. }
      assert (Hs : 0 <= s).
      { apply (all_apart_nonneg _ (x, s) Hap).
        apply elem_of_cons. right. apply elem_of_app. right. apply elem_of_cons. auto. }
      unfold apart in Hp0, Hx; simpl in Hp0, Hx, Hs0, Hs, Hsp; consts.
      rewrite unlink_read; [exact Hpq| | | |]; try lia.
      intros Hn. destruct Lb as [|[n0 sn] Lb]; [simpl in Hn; consts; lia|]. simpl.
      assert (Hn0 : apart (p, sp) (n0, sn)).
      { apply (proj1 (Forall_forall _ _) Hfp).
        apply elem_of_cons. right. apply elem_of_app. right.
        apply elem_of_cons. right. apply elem_of_cons. auto. }
      assert (Hsn : 0 <= sn).
      { apply (all_apart_nonneg _ (n0, sn) Hap).
        apply elem_of_cons. right. apply elem_of_app. right.
        apply elem_of_cons. right. apply elem_of_cons. auto. }
      unfold apart in Hn0; simpl in Hn0, Hsn; consts. lia.
    + pose proof (last_node_in (q, sq) La) as Hlast.
      destruct (last_node (q, sq) La) as [p0 sp0] eqn:E. simpl.
      destruct Hap as (Hsq & Hfq & Hap).
      assert (Hp0 : (p0, sp0) = (q, sq) \/ apart (q, sq) (p0, sp0)).
      { apply elem_of_cons in Hlast as [?|Hl]; [left; assumption|]. right.
        apply (proj1 (Forall_forall _ _) Hfq).
        apply elem_of_app. left. exact Hl. }
      assert (Hs0 : 0 <= sp0).
      { destruct Hp0 as [Heq|_]; [inversion Heq; subst; exact Hsq|].
        apply elem_of_cons in Hlast as [Heq|Hl]; [inversion Heq; subst; exact Hsq|].
        apply (all_apart_nonneg _ (p0, sp0) Hap). apply elem_of_app. left. exact Hl. }
      assert (Hx : apart (q, sq) (x, s)).
      { apply (proj1 (Forall_forall _ _) Hfq).
        apply elem_of_app. right. apply elem_of_cons. auto. }
      assert (Hs : 0 <= s).
      { apply (all_apart_nonneg _ (x, s) Hap).
        apply elem_of_app. right. apply elem_of_cons. auto. }
      unfold apart in Hx; simpl in Hx, Hs0, Hs, Hsq; consts.
      rewrite unlink_read; [exact Hqp| | | |]; try lia.
      * destruct Hp0 as [Heq|Hp0]; [inversion Heq; subst; lia|].
        unfold apart in Hp0; simpl in Hp0; consts. lia.
      * intros Hn. destruct Lb as [|[n0 sn] Lb]; [simpl in Hn; consts; lia|]. simpl.
        assert (Hn0 : apart (q, sq) (n0, sn)).
        { apply (proj1 (Forall_forall _ _) Hfq).
          apply elem_of_app. right.
          apply elem_of_cons. right. apply elem_of_cons. auto. }
        unfold apart in Hn0; simpl in Hn0; consts.
        assert (Hsn : 0 <= sn).
        { apply (all_apart_nonneg _ (n0, sn) Hap).
          apply elem_of_app. right.
          apply elem_of_cons. right. apply elem_of_cons. auto. }
        lia.
Qed.

(** ** [remove] and [add] on the memory *)

Lemma remove_eq st x s p0 sp0 n0 :
  read (mem st) x = s -> read (mem st) (x + 8) = p0 ->
  read (mem st) (x + s + 24) = n0 -> read (mem st) p0 = sp0 ->
  0 < x -> 0 <= s -> x + s + 32 < 2 ^ 64 -> x mod 16 = 0 -> s mod 16 = 0 ->
  0 < p0 -> 0 <= sp0 -> p0 + sp0 + 32 < 2 ^ 64 -> p0 mod 16 = 0 ->
  0 <= n0 < 2 ^ 64 - 8 ->
  chunk.remove x st = Ok tt (set_mem (unlink (mem st) x s p0 sp0 n0) st).
Proof.
  intros Hx Hp Hn Hsp ? ? ? ? ? ? ? ? ? ?. unfold chunk.remove.
  eapply bind_step; [apply header_prev_eq; consts; lia|]. rewrite Hp.
  eapply bind_step; [apply (footer_next_eq x s); auto; consts; lia|]. rewrite Hn.
  eapply bind_step; [apply set_header_prev_eq; consts; lia|].
  eapply bind_step.
  { apply (set_footer_next_eq x s); try (consts; lia).
    cbn [mem set_mem]. rewrite read_insert_ne by lia. exact Hx. }
  cbn [mem set_mem].
  eapply bind_step.
  { apply (set_footer_next_eq p0 sp0); try (consts; lia).
    cbn [mem set_mem]. rewrite !read_insert_ne by lia. exact Hsp. }
  cbn [mem set_mem]. unfold unlink, when. consts.
  destruct (Z.eqb_spec n0 0) as [Hz|Hz]; cbn [negb].
  - reflexivity.
  - rewrite set_header_prev_eq by (consts; lia). reflexivity.
Qed.

Lemma add_eq (driver_ : Z) st c s i n0 :
  0 < driver_ < 2 ^ 63 ->
  read (mem st) c = s -> Z.log2 s = i ->
  read (mem st) (heap.head driver_ i) = 0 ->
  read (mem st) (heap.head driver_ i + 24) = n0 ->
  0 < c -> 16 <= s -> c + s + 32 < 2 ^ 64 -> c mod 16 = 0 -> s mod 16 = 0 ->
  driver_ mod 16 = 0 -> heap.head driver_ i + 32 <= c ->
  0 <= n0 < 2 ^ 64 - 8 ->
  chunk.add driver_ c st =
    Ok tt (set_mem (link (mem st) c s (heap.head driver_ i) n0) st).
Proof.
  intros Hd Hc Hi Hz Hn ? ? ? ? ? ? ? ?. unfold chunk.add.
  assert (Hs : 0 < s < word_mod) by (consts; lia).
  pose proof (log2_range s Hs) as Hr. rewrite Hi in Hr.
  eapply bind_step; [apply header_size_eq; consts; lia|]. rewrite Hc.
  eapply bind_step; [apply list_index_log2; exact Hs|]. rewrite Hi.
  assert (Hfl : chunk.free_list_ driver_ i = heap.head driver_ i).
  { unfold chunk.free_list_. hconsts. wsimp. lia. }
  rewrite Hfl. cbv zeta.
  assert (Hh : 0 < heap.head driver_ i /\ heap.head driver_ i mod 16 = 0 /\
               heap.head driver_ i + 32 < 2 ^ 64).
  { hconsts. lia. }
  destruct Hh as (Hh1 & Hh2 & Hh3).
  eapply bind_step; [apply (footer_next_eq _ 0); auto; consts; lia|].
  rewrite Z.add_0_r, Hn.
  eapply bind_step; [apply (set_footer_next_eq _ 0); auto; consts; lia|].
  rewrite Z.add_0_r. cbn [mem set_mem].
  eapply bind_step; [apply set_header_prev_eq; consts; lia|]. cbn [mem set_mem].
  eapply bind_step.
  { apply (set_footer_next_eq c s); try (consts; lia).
    cbn [mem set_mem]. rewrite !read_insert_ne by lia. exact Hc. }
  cbn [mem set_mem]. unfold link, when. consts.
  destruct (Z.eqb_spec n0 0) as [Hz0|Hz0]; cbn [negb].
  - reflexivity.
  - rewrite set_header_prev_eq by (consts; lia). reflexivity.
Qed.

(** ** Neighbours in the chunk sequence *)

Lemma last_free_snoc l s f : last_free (l ++ [(s, f)]) = f.
Proof.
  induction l as [|[t g] l IH]; simpl; [reflexivity|].
  destruct (l ++ [(s, f)]) eqn:E; [destruct l; discriminate|]. exact IH.
Qed.

Lemma list_snoc_cases {A} (l : list A) : l = [] \/ exists l' x, l = l' ++ [x].
Proof.
  induction l as [|a l IH]; [left; reflexivity|]. right.
  destruct IH as [->|(l' & x & ->)].
  - exists [], a. reflexivity.
  - exists (a :: l'), x. reflexivity.
Qed.

Lemma pop_free_tail_snoc l s f :
  pop_free_tail (l ++ [(s, f)]) =
  if f then (l, s + 32) else (l ++ [(s, f)], 0).
Proof.
  induction l as [|[t g] l IH]; simpl.
  - destruct f; reflexivity.
  - destruct (l ++ [(s, f)]) eqn:E; [destruct l; discriminate|].
    rewrite IH. destruct f; reflexivity.
Qed.

Lemma no_adj_free_cons s f l :
  no_adj_free ((s, f) :: l) = negb (f && head_free l) && no_adj_free l.
Proof.
  destruct l as [|[t g] l]; simpl.
  - destruct f; reflexivity.
  - reflexivity.
Qed.

Lemma no_adj_free_app l1 s f l2 :
  no_adj_free (l1 ++ (s, f) :: l2) =
  no_adj_free l1 && negb (last_free l1 && f) && negb (f && head_free l2) &&
  no_adj_free l2.
Proof.
  induction l1 as [|[t g] l1 IH].
  - simpl app. rewrite no_adj_free_cons. simpl. reflexivity.
  - change (((t, g) :: l1) ++ (s, f) :: l2) with ((t, g) :: l1 ++ (s, f) :: l2).
    rewrite !no_adj_free_cons, IH. clear IH.
    destruct l1 as [|[t' g'] k].
    + simpl. destruct g, f, (head_free l2), (no_adj_free l2); reflexivity.
    + simpl app. simpl head_free.
      change (last_free ((t, g) :: (t', g') :: k)) with (last_free ((t', g') :: k)).
      destruct (no_adj_free ((t', g') :: k)), (last_free ((t', g') :: k)), g, g',
        f, (head_free l2), (no_adj_free l2); reflexivity.
Qed.

Lemma no_adj_free_snoc l s f :
  no_adj_free (l ++ [(s, f)]) = no_adj_free l && negb (last_free l && f).
Proof.
  rewrite no_adj_free_app. simpl.
  destruct (no_adj_free l), (last_free l), f; reflexivity.
Qed.

(** ** Fuel: more fuel never changes a result *)

Lemma le_refl {A} (c : M A) : le_M c c.
Proof. intros st. right. reflexivity. Qed.

Lemma le_trans {A} (c1 c2 c3 : M A) : le_M c1 c2 -> le_M c2 c3 -> le_M c1 c3.
Proof.
  intros H12 H23 st. destruct (H12 st) as [?|E12]; [left; assumption|].
  destruct (H23 st) as [E|E23].
  - left. congruence.
  - right. congruence.
Qed.

Lemma le_timeout {A} (c : M A) : le_M (fun _ => Timeout) c.
Proof. intros st. left. reflexivity. Qed.

Lemma le_bind {A B} (c c' : M A) (k k' : A -> M B) :
  le_M c c' -> (forall a, le_M (k a) (k' a)) -> le_M (bind c k) (bind c' k').
Proof.
  intros Hc Hk st. unfold bind. destruct (Hc st) as [E|E].
  - left. rewrite E. reflexivity.
  - rewrite E. destruct (c st) as [a st'| | |]; auto. apply Hk.
Qed.

Lemma le_with_lock {A} (c c' : M A) : le_M c c' -> le_M (with_lock c) (with_lock c').
Proof.
  intros Hc st. unfold with_lock. destruct (sem_wait st) as [u st1| | |]; auto.
  destruct (Hc st1) as [E|E].
  - left. rewrite E. reflexivity.
  - rewrite E. right. reflexivity.
Qed.

Lemma le_mono {A} (f : nat -> M A) :
  (forall n, le_M (f n) (f (S n))) -> forall n n', (n <= n')%nat -> le_M (f n) (f n').
Proof.
  intros Hs n n' Hle. induction Hle as [|n' Hle IH]; [apply le_refl|].
  eapply le_trans; [exact IH|apply Hs].
Qed.

Ltac le_step :=
  match goal with
  | |- le_M ?c ?c' => constr_eq c c'; apply le_refl
  | |- le_M (with_lock _) (with_lock _) => apply le_with_lock
  | |- le_M (bind _ _) (bind _ _) => apply le_bind; [|intros ?]
  | |- le_M (if ?b then _ else _) (if ?b then _ else _) => destruct b
  | |- le_M (match ?x with _ => _ end) (match ?x with _ => _ end) => destruct x
  | |- le_M (when ?b _) (when ?b _) => destruct b; unfold when
  end.

Lemma coalesce_with_le (driver_ : Z) rec rec' c :
  (forall a n, le_M (rec a n) (rec' a n)) ->
  le_M (chunk.coalesce_with driver_ rec c) (chunk.coalesce_with driver_ rec' c).
Proof. intros Hrec. unfold chunk.coalesce_with. repeat le_step. apply Hrec. Qed.

Lemma add_chunk_le (driver_ : Z) fuel a n :
  le_M (chunk.add_chunk driver_ fuel a n) (chunk.add_chunk driver_ (S fuel) a n).
Proof.
  revert a n. induction fuel as [|fuel IH]; intros a n.
  - apply le_timeout.
  - cbn [chunk.add_chunk]. cbv zeta. repeat le_step. apply coalesce_with_le. exact IH.
Qed.

Lemma split_le (driver_ : Z) fuel c n :
  le_M (chunk.split driver_ fuel c n) (chunk.split driver_ (S fuel) c n).
Proof. unfold chunk.split. repeat le_step. apply add_chunk_le. Qed.

Lemma chunk_allocate_le (driver_ : Z) fuel c n :
  le_M (chunk.allocate driver_ fuel c n) (chunk.allocate driver_ (S fuel) c n).
Proof. unfold chunk.allocate. repeat le_step. apply split_le. Qed.

Lemma chunk_deallocate_le (driver_ : Z) fuel c :
  le_M (chunk.deallocate driver_ fuel c) (chunk.deallocate driver_ (S fuel) c).
Proof.
  unfold chunk.deallocate, chunk.coalesce. repeat le_step.
  apply coalesce_with_le. intros. apply add_chunk_le.
Qed.

Lemma grow_le fuel cur size s s' :
  driver.grow fuel cur size s = Some s' -> driver.grow (S fuel) cur size s = Some s'.
Proof.
  revert s. induction fuel as [|fuel IH]; intros s H; [discriminate|].
  cbn [driver.grow] in *.
  destruct ((s <? max_size_) && (wsub s cur <? size)); [apply IH; exact H|exact H].
Qed.

Lemma extend_le (driver_ : Z) ft fuel size :
  le_M (driver.extend driver_ ft fuel size) (driver.extend driver_ ft (S fuel) size).
Proof.
  unfold driver.extend. apply le_bind; [apply le_refl|]. intros cur.
  destruct (driver.grow fuel cur size cur) as [s|] eqn:E.
  - rewrite (grow_le _ _ _ _ _ E). repeat le_step. apply add_chunk_le.
  - apply le_timeout.
Qed.

Lemma walk_le (driver_ : Z) fuel size c :
  le_M (driver.walk driver_ fuel size c) (driver.walk driver_ (S fuel) size c).
Proof.
  revert c. induction fuel as [|fuel IH]; intros c.
  - apply le_timeout.
  - cbn [driver.walk]. repeat le_step.
    + apply chunk_allocate_le.
    + apply IH.
Qed.

Lemma scan_le (driver_ : Z) fuel size i :
  le_M (driver.scan driver_ fuel size i) (driver.scan driver_ (S fuel) size i).
Proof.
  revert i. induction fuel as [|fuel IH]; intros i.
  - apply le_timeout.
  - cbn [driver.scan]. repeat le_step.
    + apply walk_le.
    + apply IH.
Qed.

Lemma allocate_le (driver_ : Z) ft fuel n :
  le_M (driver.allocate driver_ ft fuel n) (driver.allocate driver_ ft (S fuel) n).
Proof.
  unfold driver.allocate. repeat le_step.
  - apply scan_le.
  - apply extend_le.
  - apply chunk_allocate_le.
Qed.

Lemma deallocate_le (driver_ : Z) fuel p n :
  le_M (driver.deallocate driver_ fuel p n) (driver.deallocate driver_ (S fuel) p n).
Proof. unfold driver.deallocate. repeat le_step. apply chunk_deallocate_le. Qed.

Lemma construct_le (driver_ : Z) fuel size :
  le_M (driver.construct driver_ fuel size) (driver.construct driver_ (S fuel) size).
Proof. unfold driver.construct. repeat le_step. apply add_chunk_le. Qed.

(** A result reached with some fuel is the result with any larger fuel. *)
Lemma fuel_stable {A} (f : nat -> M A) fuel fuel' st :
  (forall n, le_M (f n) (f (S n))) -> (fuel <= fuel')%nat ->
  f fuel st <> Timeout -> f fuel' st = f fuel st.
Proof.
  intros Hs Hle Hne. destruct (le_mono f Hs fuel fuel' Hle st) as [E|E]; [contradiction|exact E].
Qed.

(** ** Rounding *)

Lemma land_round x : 0 <= x < 2 ^ 64 -> Z.land x (wnot (wsub data_align_ 1)) = 16 * (x / 16).
Proof.
  intros Hx.
  change (wnot (wsub data_align_ 1)) with (Z.land (Z.ones 64) (Z.lnot (Z.ones 4))).
  rewrite Z.land_assoc, Z.land_ones by lia.
  rewrite Z.mod_small by lia.
  rewrite <- Z.ldiff_land, Z.ldiff_ones_r by lia.
  rewrite Z.shiftr_div_pow2, Z.shiftl_mul_pow2 by lia.
  change (2 ^ 4) with 16. lia.
Qed.

Lemma round_up_eq n :
  0 < n -> n + 15 < 2 ^ 64 -> driver.round_up n = aligned_size n.
Proof.
  intros Hn Hb. unfold driver.round_up, aligned_size.
  assert (Hw : wsub (wadd n data_align_) 1 = n + 15).
  { unfold wsub, wadd, wrap. rewrite Zminus_mod_idemp_l. consts.
    rewrite Z.mod_small by lia. lia. }
  rewrite Hw, land_round by lia. consts.
  replace (n + 16 - 1) with (n + 15) by lia. reflexivity.
Qed.

Lemma aligned_size_facts n :
  0 < n -> n <= aligned_size n < n + 16 /\ aligned_size n mod 16 = 0 /\ 16 <= aligned_size n.
Proof. intros Hn. unfold aligned_size. consts. lia. Qed.

Lemma round_up_wraps n :
  2 ^ 64 - 16 < n < 2 ^ 64 -> driver.round_up n = 0.
Proof.
  intros Hn. unfold driver.round_up.
  assert (Hw : wsub (wadd n data_align_) 1 = n + 15 - 2 ^ 64).
  { unfold wsub, wadd, wrap. rewrite Zminus_mod_idemp_l. consts.
    symmetry. apply Z.mod_unique with (q := 1); lia. }
  rewrite Hw, land_round by lia. lia.
Qed.

(** ** First fit *)

Lemma find_fit_some r L x s :
  find_fit r L = Some (x, s) -> (x, s) ∈ L /\ r <= s.
Proof.
  induction L as [|[y t] L IH]; simpl; [discriminate|].
  destruct (Z.leb_spec r t).
  - intros E. inversion E; subst. split; [apply elem_of_cons; auto|lia].
  - intros E. destruct (IH E). split; [apply elem_of_cons; auto|assumption].
Qed.

Lemma find_fit_none r L x s :
  find_fit r L = None -> (x, s) ∈ L -> s < r.
Proof.
  induction L as [|[y t] L IH]; simpl; intros E Hin; [inversion Hin|].
  destruct (Z.leb_spec r t); [discriminate|].
  apply elem_of_cons in Hin as [Heq|Hin]; [inversion Heq; subst; lia|auto].
Qed.

Lemma find_fit_app r L1 L2 :
  find_fit r (L1 ++ L2) =
  match find_fit r L1 with Some u => Some u | None => find_fit r L2 end.
Proof.
  induction L1 as [|[y t] L1 IH]; simpl; [reflexivity|].
  destruct (r <=? t); [reflexivity|exact IH].
Qed.

Lemma classes_from_in k i fl u :
  u ∈ classes_from k i fl -> exists j, i <= j < i + Z.of_nat k /\ u ∈ fl j.
Proof.
  revert i. induction k as [|k IH]; intros i Hin; simpl in Hin; [inversion Hin|].
  apply elem_of_app in Hin as [Hin|Hin].
  - exists i. split; [lia|exact Hin].
  - destruct (IH _ Hin) as (j & Hj & Hu). exists j. split; [lia|exact Hu].
Qed.

Lemma run_ret_match {A} (c : M unit) (d : A) (k : M (option A)) st :
  (do r <- (run c; ret (Some d)); match r with Some p => ret (Some p) | None => k end) st =
  (run c; ret (Some d)) st.
Proof. unfold bind, ret. destruct (c st); reflexivity. Qed.

(** ** The scoped lock *)

Lemma with_lock_ok {A} (body : M A) st a st2 :
  0 < sem_ st -> body (set_sem_ (sem_ st - 1) st) = Ok a st2 ->
  sem_ st2 = sem_ st - 1 ->
  with_lock body st = Ok a (set_sem_ (sem_ st) st2).
Proof.
  intros Hs Hb Hs2. unfold with_lock, sem_wait.
  destruct (Z.ltb_spec 0 (sem_ st)); [|lia]. rewrite Hb.
  unfold bind, sem_post, modify, ret. rewrite Hs2. f_equal.
  unfold set_sem_. f_equal. lia.
Qed.

Lemma with_lock_throw {A} (body : M A) st e st2 :
  0 < sem_ st -> body (set_sem_ (sem_ st - 1) st) = Throw e st2 ->
  sem_ st2 = sem_ st - 1 ->
  with_lock body st = Throw e (set_sem_ (sem_ st) st2).
Proof.
  intros Hs Hb Hs2. unfold with_lock, sem_wait.
  destruct (Z.ltb_spec 0 (sem_ st)); [|lia]. rewrite Hb.
  unfold bind, sem_post, modify, throw. rewrite Hs2. f_equal.
  unfold set_sem_. f_equal. lia.
Qed.

Lemma with_lock_blocked {A} (body : M A) st :
  sem_ st <= 0 -> with_lock body st = Blocked.
Proof.
  intros Hs. unfold with_lock, sem_wait.
  destruct (Z.ltb_spec 0 (sem_ st)); [lia|reflexivity].
Qed.

Lemma set_sem_id st : set_sem_ (sem_ st) st = st.
Proof. destruct st. reflexivity. Qed.

(** ** The arena with a hole *)

Section proofs.

Variable driver_ : Z.
Hypothesis driver_aligned : driver_ mod 16 = 0.
Hypothesis driver_range : 0 < driver_ < 2 ^ 63.
Variable ftruncate_ok : Z -> bool.

Local Abbreviation first := (heap.first driver_).
Local Abbreviation head := (heap.head driver_).
Local Abbreviation chunks_of := (heap.chunks_of driver_).
Local Abbreviation Hole := (heap.Hole driver_).
Local Abbreviation Rep := (heap.Rep driver_).

Lemma first_val : first = driver_ + 2096.
Proof. reflexivity. Qed.

Lemma head_val i : head i = driver_ + 48 + i * 32.
Proof. reflexivity. Qed.

Section hole_facts.

Context {m : gmap Z Z} {sz : Z} {l1 : list (Z * bool)} {n : Z}
  {l2 : list (Z * bool)} {fl : Z -> list (Z * Z)}.
Hypothesis H : Hole m sz l1 n l2 fl.

Lemma hole_chunk x s f :
  (x, s, f) ∈ chunks_of l1 n l2 ->
  first <= x /\ x + s + 32 <= driver_ + sz /\ 16 <= s /\ s mod 16 = 0 /\
  x mod 16 = 0 /\
  (x + s + 32 <= first + total l1 \/ first + total l1 + n <= x).
Proof.
  intros Hin. destruct H as [Hs1 Hs2 [Hn Hnm] He Hb _ _ _ _ _].
  pose proof (total_nonneg _ Hs1). pose proof (total_nonneg _ Hs2).
  pose proof (total_mod _ Hs1). pose proof (total_mod _ Hs2).
  rewrite first_val in *. consts.
  apply elem_of_app in Hin as [Hin|Hin];
    apply layout_bounds in Hin as (? & ? & ? & ? & ?); auto;
    hconsts; repeat split; try lia.
Qed.

Lemma hole_disjoint x s f y t g :
  (x, s, f) ∈ chunks_of l1 n l2 -> (y, t, g) ∈ chunks_of l1 n l2 ->
  (x, s, f) = (y, t, g) \/ x + s + 32 <= y \/ y + t + 32 <= x.
Proof.
  intros Hx Hy.
  pose proof (hole_sizes1 _ _ _ _ _ _ _ H) as Hs1.
  pose proof (hole_sizes2 _ _ _ _ _ _ _ H) as Hs2.
  pose proof (proj1 (hole_n _ _ _ _ _ _ _ H)) as Hn.
  pose proof (total_nonneg _ Hs1). pose proof (total_nonneg _ Hs2).
  apply elem_of_app in Hx as [Hx|Hx]; apply elem_of_app in Hy as [Hy|Hy].
  - exact (layout_disjoint _ _ _ _ _ _ _ _ Hs1 Hx Hy).
  - apply layout_bounds in Hx as (? & ? & ? & ? & ?); auto.
    apply layout_bounds in Hy as (? & ? & ? & ? & ?); auto. hconsts. lia.
  - apply layout_bounds in Hx as (? & ? & ? & ? & ?); auto.
    apply layout_bounds in Hy as (? & ? & ? & ? & ?); auto. hconsts. lia.
  - exact (layout_disjoint _ _ _ _ _ _ _ _ Hs2 Hx Hy).
Qed.

Lemma hole_size_bound : 0 <= total l1 /\ 0 <= total l2 /\ 0 <= n /\
  total l1 mod 16 = 0 /\ total l2 mod 16 = 0 /\ n mod 16 = 0 /\
  first + total l1 + n + total l2 = driver_ + sz /\ sz <= 8589934592.
Proof.
  destruct H as [Hs1 Hs2 [Hn Hnm] He Hb _ _ _ _ _].
  pose proof (total_nonneg _ Hs1). pose proof (total_nonneg _ Hs2).
  pose proof (total_mod _ Hs1). pose proof (total_mod _ Hs2). hconsts.
  repeat split; auto; lia.
Qed.

Lemma hole_member i x s :
  0 <= i < 64 -> (x, s) ∈ fl i ->
  (x, s, true) ∈ chunks_of l1 n l2 /\ Z.log2 s = i /\
  read m x = s /\ read m (x + s + 16) = s.
Proof.
  intros Hi Hin.
  destruct (hole_in _ _ _ _ _ _ _ H i x s Hi Hin) as [Hc Hl].
  destruct (hole_tags _ _ _ _ _ _ _ H _ _ _ Hc) as [? ?]. auto.
Qed.

Local Abbreviation node := (heap.node driver_ l1 n l2).

Lemma node_head k : 0 <= k < 64 -> node (head k, 0).
Proof. intros. left. eauto. Qed.

Lemma node_member i x s : 0 <= i < 64 -> (x, s) ∈ fl i -> node (x, s).
Proof. intros Hi Hin. right. exists true. apply (hole_member i x s Hi Hin). Qed.

Lemma node_facts u :
  node u -> 0 < fst u /\ 0 <= snd u /\ fst u + snd u + 32 < 2 ^ 63 + 8589934592 /\
            fst u mod 16 = 0 /\ snd u mod 16 = 0 /\ read m (fst u) = snd u.
Proof.
  pose proof hole_size_bound as Hb.
  intros [(k & Hk & ->)|(f & Hc)].
  - simpl. destruct (hole_lists _ _ _ _ _ _ _ H k Hk) as [Hz _].
    hconsts. repeat split; first [lia | exact Hz].
  - destruct (hole_chunk _ _ _ Hc) as (? & ? & ? & ? & ? & ?).
    destruct (hole_tags _ _ _ _ _ _ _ H _ _ _ Hc) as [Hr _].
    hconsts. repeat split; first [lia | exact Hr].
Qed.

Lemma node_apart u v : node u -> node v -> u <> v -> apart u v.
Proof.
  intros Hu Hv Hne. unfold apart. consts.
  destruct Hu as [(k & Hk & ->)|(f & Hc)]; destruct Hv as [(k' & Hk' & ->)|(g & Hc')];
    simpl.
  - assert (k <> k') by congruence. hconsts. lia.
  - destruct (hole_chunk _ _ _ Hc') as (? & ? & ? & ? & ? & ?). hconsts. lia.
  - destruct (hole_chunk _ _ _ Hc) as (? & ? & ? & ? & ? & ?). hconsts. lia.
  - destruct (hole_disjoint _ _ _ _ _ _ Hc Hc') as [Heq|Hd]; [|lia].
    exfalso. apply Hne. destruct u, v. simpl in *. congruence.
Qed.

Lemma nodes_all_apart L :
  (forall u, u ∈ L -> node u) -> NoDup L -> all_apart L.
Proof.
  induction L as [|u L IH]; intros Hn Hnd; simpl; [exact I|].
  apply NoDup_cons in Hnd as [Hni Hnd].
  split; [|split].
  - apply (node_facts u). apply Hn. apply elem_of_cons. auto.
  - apply Forall_forall. intros v Hv. apply node_apart.
    + apply Hn. apply elem_of_cons. auto.
    + apply Hn. apply elem_of_cons. auto.
    + intros ->. contradiction.
  - apply IH; auto. intros v Hv. apply Hn. apply elem_of_cons. auto.
Qed.

Lemma list_all_apart i : 0 <= i < 64 -> all_apart ((head i, 0) :: fl i).
Proof.
  intros Hi. apply nodes_all_apart.
  - intros u Hu. apply elem_of_cons in Hu as [->|Hu]; [apply node_head; exact Hi|].
    destruct u as [x s]. eapply node_member; eauto.
  - apply NoDup_cons. split; [|apply (hole_nodup _ _ _ _ _ _ _ H i Hi)].
    intros Hin. destruct (hole_member i _ _ Hi Hin) as (Hc & _).
    destruct (hole_chunk _ _ _ Hc) as (? & ? & ? & ? & ? & ?). hconsts. lia.
Qed.

Lemma member_other_list i j x s :
  0 <= i < 64 -> 0 <= j < 64 -> i <> j -> (x, s) ∈ fl i -> (x, s) ∉ fl j.
Proof.
  intros Hi Hj Hne Hin Hin'.
  destruct (hole_member i _ _ Hi Hin) as (_ & Hl & _).
  destruct (hole_member j _ _ Hj Hin') as (_ & Hl' & _). congruence.
Qed.

End hole_facts.

(** Memory may change arbitrarily inside the hole. *)
Lemma Hole_frame m m' sz l1 n l2 fl :
  Hole m sz l1 n l2 fl ->
  (forall a, a < first + total l1 \/ first + total l1 + n <= a ->
             read m' a = read m a) ->
  Hole m' sz l1 n l2 fl.
Proof.
  intros H Hfr.
  pose proof (hole_size_bound H) as Hb.
  destruct H as [Hs1 Hs2 Hn He Hbd Htags Hlists Hin Hall Hnd] eqn:EH.
  assert (HH : Hole m sz l1 n l2 fl) by (constructor; auto). clear EH.
  constructor; auto.
  - intros x s f Hc.
    destruct (hole_chunk HH _ _ _ Hc) as (? & ? & ? & ? & ? & ?).
    destruct (Htags _ _ _ Hc) as [<- <-]. hconsts.
    rewrite !Hfr by lia. auto.
  - intros i Hi. destruct (Hlists i Hi) as [Hz Hd].
    hconsts. split.
    + rewrite Hfr; [exact Hz|]. lia.
    + eapply dlls_frame; [exact Hd| |].
      * intros x s Hx. apply elem_of_cons in Hx as [Hx|Hx].
        -- inversion Hx; subst. rewrite !Hfr by lia. auto.
        -- destruct (hole_member HH i x s Hi Hx) as (Hc & _).
           destruct (hole_chunk HH _ _ _ Hc) as (? & ? & ? & ? & ? & ?).
           hconsts. rewrite !Hfr by lia. auto.
      * intros x s Hx.
        destruct (hole_member HH i x s Hi Hx) as (Hc & _).
        destruct (hole_chunk HH _ _ _ Hc) as (? & ? & ? & ? & ? & ?).
        hconsts. rewrite !Hfr by lia. auto.
Qed.

Lemma fl_set_eq i L (fl : Z -> list (Z * Z)) : fl_set i L fl i = L.
Proof. unfold fl_set. rewrite Z.eqb_refl. reflexivity. Qed.

Lemma fl_set_ne i j L (fl : Z -> list (Z * Z)) : j <> i -> fl_set i L fl j = fl j.
Proof. intros Hne. unfold fl_set. destruct (Z.eqb_spec j i); [contradiction|reflexivity]. Qed.

(** Unlinking a free chunk that the new description leaves out. *)
Lemma remove_hole st sz l1 n l2 fl l1' n' l2' x s :
  Hole (mem st) sz l1 n l2 fl ->
  (x, s, true) ∈ chunks_of l1 n l2 ->
  sizes_ok l1' -> sizes_ok l2' -> 0 <= n' /\ n' mod 16 = 0 ->
  first + total l1' + n' + total l2' = driver_ + sz ->
  (forall e, e ∈ chunks_of l1 n l2 <-> e = (x, s, true) \/ e ∈ chunks_of l1' n' l2') ->
  (x, s, true) ∉ chunks_of l1' n' l2' ->
  exists m' fl',
    chunk.remove x st = Ok tt (set_mem m' st) /\
    Hole m' sz l1' n' l2' fl' /\
    (forall a, a mod 16 = 0 -> read m' a = read (mem st) a).
Proof.
  intros H Hx Hs1 Hs2 Hn' He' Hiff Hnot.
  pose proof (hole_size_bound H) as Hb.
  destruct (hole_chunk H _ _ _ Hx) as (Hx1 & Hx2 & Hx3 & Hx4 & Hx5 & _).
  assert (Hsr : 0 < s < word_mod) by (hconsts; lia).
  pose proof (log2_range s Hsr) as Hi. set (i := Z.log2 s) in *.
  pose proof (hole_all _ _ _ _ _ _ _ H _ _ Hx) as Hin. fold i in Hin.
  destruct (list_elem_of_split _ _ Hin) as (La & Lb & Hfl).
  pose proof (list_all_apart H i Hi) as Hap. rewrite Hfl in Hap.
  pose proof (hole_nodup _ _ _ _ _ _ _ H i Hi) as Hnd. rewrite Hfl in Hnd.
  destruct (hole_lists _ _ _ _ _ _ _ H i Hi) as [Hz Hd]. rewrite Hfl in Hd.
  destruct (dlls_mid_reads _ _ _ _ _ _ _ Hd) as [Hrp Hrn].
  assert (Hmem : forall u, u ∈ La ++ Lb -> u ∈ fl i).
  { intros u Hu. rewrite Hfl. apply elem_of_app in Hu as [Hu|Hu]; apply elem_of_app;
      [left; exact Hu|right; apply elem_of_cons; right; exact Hu]. }
  (* the predecessor *)
  assert (Hp0 : heap.node driver_ l1 n l2 (last_node (head i, 0) La)).
  { pose proof (last_node_in (head i, 0) La) as Hl.
    apply elem_of_cons in Hl as [->|Hl]; [apply (node_head i); exact Hi|].
    destruct (last_node (head i, 0) La) as [p0 sp0].
    apply (node_member H i); [exact Hi|]. apply Hmem. apply elem_of_app. auto. }
  destruct (last_node (head i, 0) La) as [p0 sp0] eqn:Elast.
  destruct (node_facts H _ Hp0) as (Hp1 & Hp2 & Hp3 & Hp4 & Hp5 & Hp6).
  simpl in Hp1, Hp2, Hp3, Hp4, Hp5, Hp6, Hrp.
  (* the successor *)
  assert (Hn0 : head_addr Lb = 0 \/
                exists sn, (head_addr Lb, sn) ∈ Lb /\ (head_addr Lb, sn) ∈ fl i).
  { destruct Lb as [|[n0 sn] Lb]; [left; reflexivity|]. right. exists sn. simpl.
    split; [apply elem_of_cons; auto|].
    apply Hmem. apply elem_of_app. right. apply elem_of_cons. auto. }
  set (n0 := head_addr Lb) in *.
  assert (Hn0f : 0 <= n0 < 2 ^ 63 + 8589934592 /\ n0 mod 16 = 0).
  { destruct Hn0 as [->|(sn & _ & Hsn)]; [lia|].
    destruct (node_facts H _ (node_member H i _ _ Hi Hsn)) as (? & ? & ? & ? & ? & ?).
    simpl in *. lia. }
  destruct (hole_tags _ _ _ _ _ _ _ H _ _ _ Hx) as [Hxs _].
  exists (unlink (mem st) x s p0 sp0 n0), (fl_set i (La ++ Lb) fl).
  assert (Htag : forall a, a mod 16 = 0 ->
            read (unlink (mem st) x s p0 sp0 n0) a = read (mem st) a).
  { intros a Ha. apply unlink_read_tag; auto; lia. }
  split; [|split; [|exact Htag]].
  { apply remove_eq; auto; hconsts; lia. }
  apply NoDup_app in Hnd as (HndA & Hdisj & HndB).
  apply NoDup_cons in HndB as [HxB HndB].
  assert (HxA : (x, s) ∉ La).
  { intros HA. apply (Hdisj _ HA). apply elem_of_cons. auto. }
  constructor; auto.
  - exact (hole_bound _ _ _ _ _ _ _ H).
  - intros y t f Hy.
    assert (Hy' : (y, t, f) ∈ chunks_of l1 n l2) by (apply Hiff; auto).
    destruct (hole_chunk H _ _ _ Hy') as (? & ? & ? & ? & ? & ?).
    destruct (hole_tags _ _ _ _ _ _ _ H _ _ _ Hy') as [Ht1 Ht2].
    consts. rewrite !Htag by lia. auto.
  - intros j Hj. destruct (hole_lists _ _ _ _ _ _ _ H j Hj) as [Hzj Hdj].
    split; [rewrite Htag by (hconsts; lia); exact Hzj|].
    destruct (Z.eq_dec j i) as [->|Hne].
    + rewrite fl_set_eq.
      pose proof (dlls_unlink (mem st) (head i) 0 La x s Lb Hap) as Hu.
      rewrite Elast in Hu. simpl in Hu. apply Hu; [|exact Hd].
      intros u Hu'. destruct u as [y t].
      assert (Hyt : (y, t) ∈ fl i).
      { apply Hmem. apply elem_of_app. auto. }
      destruct (node_facts H _ (node_member H i _ _ Hi Hyt)) as (? & _). simpl in *. lia.
    + rewrite fl_set_ne by exact Hne.
      pose proof (list_all_apart H j Hj) as Hapj.
      assert (Hnodes : forall u, u ∈ (head j, 0) :: fl j -> heap.node driver_ l1 n l2 u).
      { intros u Hu. apply elem_of_cons in Hu as [->|Hu]; [apply (node_head j); exact Hj|].
        destruct u. apply (node_member H j); auto. }
      assert (Hother : forall u, u ∈ (head j, 0) :: fl j -> u ∉ (head i, 0) :: fl i).
      { intros u Hu Hu'. apply elem_of_cons in Hu as [->|Hu];
          apply elem_of_cons in Hu' as [Heq|Hu'].
        - inversion Heq. hconsts. lia.
        - destruct (hole_member H i _ _ Hi Hu') as (Hc & _).
          destruct (hole_chunk H _ _ _ Hc) as (? & _). hconsts. lia.
        - subst u. destruct (hole_member H j _ _ Hj Hu) as (Hc & _).
          destruct (hole_chunk H _ _ _ Hc) as (? & _). hconsts. lia.
        - destruct u. exact (member_other_list H j i _ _ Hj Hi Hne Hu Hu'). }
      apply dlls_unlink_frame; auto; try lia.
      * apply Forall_forall. intros u Hu. apply (node_apart H).
        -- right. exists true. exact Hx.
        -- apply Hnodes. exact Hu.
        -- intros <-. apply (Hother _ Hu). apply elem_of_cons. right. exact Hin.
      * apply Forall_forall. intros u Hu. apply (node_apart H).
        -- exact Hp0.
        -- apply Hnodes. exact Hu.
        -- intros <-. apply (Hother _ Hu).
           pose proof (last_node_in (head i, 0) La) as Hl. rewrite Elast in Hl.
           apply elem_of_cons in Hl as [Hl|Hl]; apply elem_of_cons; [left; exact Hl|].
           right. apply Hmem. apply elem_of_app. auto.
      * intros Hnz. destruct Hn0 as [?|(sn & Hsn1 & Hsn2)]; [lia|].
        exists sn. destruct (node_facts H _ (node_member H i _ _ Hi Hsn2)) as (? & ? & _).
        simpl in *. split; [lia|]. split.
        -- apply Forall_forall. intros u Hu. right. apply (node_apart H).
           ++ apply (node_member H i); auto.
           ++ apply Hnodes. exact Hu.
           ++ intros <-. apply (Hother _ Hu). apply elem_of_cons. right. exact Hsn2.
        -- intros Hc. apply (Hother (n0, sn)); apply elem_of_cons; right; auto.
  - intros j y t Hj Hy.
    destruct (Z.eq_dec j i) as [->|Hne].
    + rewrite fl_set_eq in Hy.
      destruct (hole_in _ _ _ _ _ _ _ H i y t Hi (Hmem _ Hy)) as [Hc Hl].
      split; [|exact Hl]. apply Hiff in Hc as [Heq|Hc]; [|exact Hc].
      inversion Heq; subst. exfalso.
      apply elem_of_app in Hy as [Hy|Hy]; contradiction.
    + rewrite fl_set_ne in Hy by exact Hne.
      destruct (hole_in _ _ _ _ _ _ _ H j y t Hj Hy) as [Hc Hl].
      split; [|exact Hl]. apply Hiff in Hc as [Heq|Hc]; [|exact Hc].
      inversion Heq; subst. contradiction.
  - intros y t Hy.
    assert (Hy' : (y, t, true) ∈ chunks_of l1 n l2) by (apply Hiff; auto).
    pose proof (hole_all _ _ _ _ _ _ _ H _ _ Hy') as Hyl.
    destruct (Z.eq_dec (Z.log2 t) i) as [Heq|Hne].
    + rewrite Heq, fl_set_eq. rewrite Heq, Hfl in Hyl.
      apply elem_of_app in Hyl as [Hyl|Hyl]; [apply elem_of_app; auto|].
      apply elem_of_cons in Hyl as [Heq'|Hyl]; [|apply elem_of_app; auto].
      inversion Heq'; subst. contradiction.
    + rewrite fl_set_ne by exact Hne. exact Hyl.
  - intros j Hj. destruct (Z.eq_dec j i) as [->|Hne].
    + rewrite fl_set_eq. apply NoDup_app. repeat split; auto.
      intros u Hu Hu'. apply (Hdisj _ Hu). apply elem_of_cons. auto.
    + rewrite fl_set_ne by exact Hne. exact (hole_nodup _ _ _ _ _ _ _ H j Hj).
Qed.

(** Linking a free-tagged chunk that lies in the hole. *)
Lemma add_hole st sz l1 n l2 fl l1' n' l2' c s :
  Hole (mem st) sz l1 n l2 fl ->
  sizes_ok l1' -> sizes_ok l2' -> 0 <= n' /\ n' mod 16 = 0 ->
  first + total l1' + n' + total l2' = driver_ + sz ->
  (forall e, e ∈ chunks_of l1' n' l2' <-> e = (c, s, true) \/ e ∈ chunks_of l1 n l2) ->
  first + total l1 <= c -> c + s + 32 <= first + total l1 + n ->
  16 <= s -> s mod 16 = 0 -> c mod 16 = 0 ->
  read (mem st) c = s -> read (mem st) (c + s + 16) = s ->
  exists m' fl',
    chunk.add driver_ c st = Ok tt (set_mem m' st) /\
    Hole m' sz l1' n' l2' fl' /\
    (forall a, a mod 16 = 0 -> read m' a = read (mem st) a).
Proof.
  intros H Hs1 Hs2 Hn' He' Hiff Hc1 Hc2 Hs16 Hsm Hcm Hrc Hrf.
  pose proof (hole_size_bound H) as Hb.
  assert (Hsr : 0 < s < word_mod) by (hconsts; lia).
  pose proof (log2_range s Hsr) as Hi. set (i := Z.log2 s) in *.
  destruct (hole_lists _ _ _ _ _ _ _ H i Hi) as [Hz Hd].
  pose proof (list_all_apart H i Hi) as Hap.
  remember (head_addr (fl i)) as n0 eqn:En0.
  assert (Hrn : read (mem st) (head i + 24) = n0).
  { rewrite En0. clear En0. revert Hd. destruct (fl i) as [|[y t] L]; intros Hd.
    - apply dlls_nil in Hd. rewrite Z.add_0_r in Hd. exact Hd.
    - apply dlls_cons in Hd as (Hd & _). rewrite Z.add_0_r in Hd. exact Hd. }
  assert (Hn0 : n0 = 0 /\ fl i = [] \/ exists sn L, fl i = (n0, sn) :: L).
  { rewrite En0. clear. destruct (fl i) as [|[y t] L]; [left; auto|right; eauto]. }
  clear En0.
  assert (Hn0f : 0 <= n0 < 2 ^ 63 + 8589934592 /\ n0 mod 16 = 0 /\
                 (n0 <> 0 -> first <= n0 /\ (n0 + 32 <= first + total l1 \/
                                              first + total l1 + n <= n0))).
  { destruct Hn0 as [[-> _]|(sn & L & HL)]; [lia|].
    assert (Hin : (n0, sn) ∈ fl i) by (rewrite HL; apply elem_of_cons; auto).
    destruct (hole_member H i _ _ Hi Hin) as (Hcn & _).
    destruct (hole_chunk H _ _ _ Hcn) as (? & ? & ? & ? & ? & ?). hconsts. lia. }
  destruct Hn0f as (Hn0a & Hn0b & Hn0c).
  exists (link (mem st) c s (head i) n0), (fl_set i ((c, s) :: fl i) fl).
  assert (Htag : forall a, a mod 16 = 0 ->
            read (link (mem st) c s (head i) n0) a = read (mem st) a).
  { intros a Ha. apply link_read_tag; auto. hconsts. lia. }
  assert (Hnew : (c, s, true) ∉ chunks_of l1 n l2).
  { intros Hc. destruct (hole_chunk H _ _ _ Hc) as (? & ? & ? & ? & ? & ?). lia. }
  split; [|split; [|exact Htag]].
  { apply add_eq; auto; hconsts; lia. }
  (* reads of link fields of nodes outside the hole *)
  assert (Hfr : forall j y t, 0 <= j < 64 -> (y, t) ∈ (head j, 0) :: fl j ->
            (j = i -> (y, t) <> (head i, 0)) ->
            read (link (mem st) c s (head i) n0) (y + t + 24) =
            read (mem st) (y + t + 24) /\
            ((y, t) ∈ fl j -> (y, t) <> (n0, t) ->
             read (link (mem st) c s (head i) n0) (y + 8) = read (mem st) (y + 8))).
  { intros j y t Hj Hy Hnh.
    assert (Hnode : heap.node driver_ l1 n l2 (y, t)).
    { apply elem_of_cons in Hy as [->|Hy]; [apply (node_head j); exact Hj|].
      apply (node_member H j); auto. }
    destruct (node_facts H _ Hnode) as (Hy1 & Hy2 & Hy3 & Hy4 & Hy5 & _).
    simpl in Hy1, Hy2, Hy3, Hy4, Hy5.
    assert (Hout : y + t + 32 <= first + total l1 \/ first + total l1 + n <= y).
    { apply elem_of_cons in Hy as [Heq|Hy].
      - inversion Heq. hconsts. lia.
      - destruct (hole_member H j _ _ Hj Hy) as (Hcy & _).
        destruct (hole_chunk H _ _ _ Hcy) as (? & ? & ? & ? & ? & ?). lia. }
    assert (Hhd : y + t + 24 <> head i + 24).
    { apply elem_of_cons in Hy as [Heq|Hy].
      - inversion Heq; subst. destruct (Z.eq_dec j i) as [->|Hne].
        + exfalso. apply Hnh; auto.
        + hconsts. lia.
      - destruct (hole_member H j _ _ Hj Hy) as (Hcy & _).
        destruct (hole_chunk H _ _ _ Hcy) as (? & ? & ? & ? & ? & ?). hconsts. lia. }
    split.
    - apply link_read; try (hconsts; lia). intros Hnz.
      destruct Hn0 as [[? _]|(sn & L & HL)]; [lia|].
      assert (Hnn : heap.node driver_ l1 n l2 (n0, sn)).
      { apply (node_member H i); [exact Hi|]. rewrite HL. apply elem_of_cons. auto. }
      destruct (Z.eq_dec y n0) as [->|Hyn]; [lia|].
      assert (Ha : apart (y, t) (n0, sn)).
      { apply (node_apart H); auto. intros Heq. inversion Heq. contradiction. }
      destruct (node_facts H _ Hnn) as (? & ? & _).
      unfold apart in Ha. simpl in *. consts. lia.
    - intros Hyl Hne.
      destruct (hole_member H j _ _ Hj Hyl) as (Hcy & _).
      destruct (hole_chunk H _ _ _ Hcy) as (? & ? & ? & ? & ? & ?).
      apply link_read; try (hconsts; lia).
      intros Hnz Heq. apply Hne. f_equal. lia. }
  constructor; auto.
  - exact (hole_bound _ _ _ _ _ _ _ H).
  - intros y t f Hy. apply Hiff in Hy as [Heq|Hy].
    + inversion Heq; subst y t f. consts. rewrite !Htag by lia. auto.
    + destruct (hole_chunk H _ _ _ Hy) as (? & ? & ? & ? & ? & ?).
      destruct (hole_tags _ _ _ _ _ _ _ H _ _ _ Hy) as [Ht1 Ht2].
      consts. rewrite !Htag by lia. auto.
  - intros j Hj. destruct (hole_lists _ _ _ _ _ _ _ H j Hj) as [Hzj Hdj].
    split; [rewrite Htag by (hconsts; lia); exact Hzj|].
    destruct (Z.eq_dec j i) as [->|Hne].
    + rewrite fl_set_eq. apply dlls_cons. rewrite Z.add_0_r. repeat split.
      * unfold link. consts. destruct (Z.eqb_spec n0 0) as [?|Hnz].
        -- rewrite !read_insert_ne by (hconsts; lia). apply read_insert_eq.
        -- specialize (Hn0c Hnz).
           rewrite !read_insert_ne by (hconsts; lia). apply read_insert_eq.
      * unfold link. consts. destruct (Z.eqb_spec n0 0) as [?|Hnz].
        -- rewrite !read_insert_ne by (hconsts; lia). apply read_insert_eq.
        -- specialize (Hn0c Hnz).
           rewrite !read_insert_ne by (hconsts; lia). apply read_insert_eq.
      * destruct Hn0 as [[Hn0z Hnil]|(sn & L & HL)].
        -- rewrite Hnil. apply dlls_nil. unfold link. consts.
           rewrite Hn0z. simpl. apply read_insert_eq.
        -- rewrite HL in Hd, Hap |- *.
           assert (Hin0 : (n0, sn) ∈ fl i) by (rewrite HL; apply elem_of_cons; auto).
           destruct (hole_member H i _ _ Hi Hin0) as (Hcn & _).
           destruct (hole_chunk H _ _ _ Hcn) as (? & ? & ? & ? & ? & ?).
           apply dlls_cons in Hd as (_ & _ & Hd).
           apply dlls_cons. repeat split.
           ++ unfold link. consts. destruct (Z.eqb_spec n0 0) as [?|Hnz]; [hconsts; lia|].
              rewrite !read_insert_ne by (hconsts; lia). apply read_insert_eq.
           ++ unfold link. consts. destruct (Z.eqb_spec n0 0) as [?|Hnz]; [hconsts; lia|].
              apply read_insert_eq.
           ++ eapply dlls_frame; [exact Hd| |].
              ** intros y t Hy. apply (Hfr i y t Hi).
                 { apply elem_of_cons. right. rewrite HL. exact Hy. }
                 { intros _ Heq. inversion Heq; subst.
                   assert (Hyl : (head i, 0) ∈ fl i) by (rewrite HL; exact Hy).
                   destruct (hole_member H i _ _ Hi Hyl) as (Hcy & _).
                   destruct (hole_chunk H _ _ _ Hcy) as (? & ? & ? & ? & ? & ?).
                   hconsts. lia. }
              ** intros y t Hy.
                 assert (Hyl : (y, t) ∈ fl i).
                 { rewrite HL. apply elem_of_cons. right. exact Hy. }
                 apply (Hfr i y t Hi).
                 { apply elem_of_cons. right. exact Hyl. }
                 { intros _ Heq. inversion Heq; subst.
                   destruct (hole_member H i _ _ Hi Hyl) as (Hcy & _).
                   destruct (hole_chunk H _ _ _ Hcy) as (? & ? & ? & ? & ? & ?).
                   hconsts. lia. }
                 { exact Hyl. }
                 { intros Heq. inversion Heq; subst y.
                   destruct Hap as (_ & _ & _ & Hfa & _).
                   pose proof (proj1 (Forall_forall _ _) Hfa _ Hy) as Hc.
                   unfold apart in Hc. simpl in Hc.
                   destruct (hole_member H i _ _ Hi Hyl) as (Hcy & _).
                   destruct (hole_chunk H _ _ _ Hcy) as (? & ? & ? & ? & ? & ?).
                   consts. lia. }
    + rewrite fl_set_ne by exact Hne.
      eapply dlls_frame; [exact Hdj| |].
      * intros y t Hy. apply (Hfr j y t Hj Hy). intros; contradiction.
      * intros y t Hy. apply (Hfr j y t Hj).
        { apply elem_of_cons. right. exact Hy. }
        { intros; contradiction. }
        { exact Hy. }
        { intros Heq. inversion Heq; subst y.
          destruct Hn0 as [[Hn0z _]|(sn & L & HL)].
          - destruct (hole_member H j _ _ Hj Hy) as (Hcy & _).
            destruct (hole_chunk H _ _ _ Hcy) as (? & ? & ? & ? & ? & ?).
            hconsts. lia.
          - assert (Hin0 : (n0, sn) ∈ fl i) by (rewrite HL; apply elem_of_cons; auto).
            destruct (hole_member H i _ _ Hi Hin0) as (Hcn & Hln & _).
            destruct (hole_member H j _ _ Hj Hy) as (Hcy & Hly & _).
            destruct (hole_disjoint H _ _ _ _ _ _ Hcn Hcy) as [Heq'|Hd'].
            + inversion Heq'; subst. lia.
            + destruct (hole_chunk H _ _ _ Hcy) as (? & ? & ? & ? & ? & ?).
              destruct (hole_chunk H _ _ _ Hcn) as (? & ? & ? & ? & ? & ?). lia. }
  - intros j y t Hj Hy.
    destruct (Z.eq_dec j i) as [->|Hne].
    + rewrite fl_set_eq in Hy. apply elem_of_cons in Hy as [Heq|Hy].
      * inversion Heq; subst. split; [apply Hiff; auto|reflexivity].
      * destruct (hole_in _ _ _ _ _ _ _ H i y t Hi Hy) as [Hc Hl].
        split; [apply Hiff; auto|exact Hl].
    + rewrite fl_set_ne in Hy by exact Hne.
      destruct (hole_in _ _ _ _ _ _ _ H j y t Hj Hy) as [Hc Hl].
      split; [apply Hiff; auto|exact Hl].
  - intros y t Hy. apply Hiff in Hy as [Heq|Hy].
    + inversion Heq; subst. fold i. rewrite fl_set_eq. apply elem_of_cons. auto.
    + pose proof (hole_all _ _ _ _ _ _ _ H _ _ Hy) as Hyl.
      destruct (Z.eq_dec (Z.log2 t) i) as [Heq|Hne].
      * rewrite Heq, fl_set_eq. rewrite Heq in Hyl. apply elem_of_cons. auto.
      * rewrite fl_set_ne by exact Hne. exact Hyl.
  - intros j Hj. destruct (Z.eq_dec j i) as [->|Hne].
    + rewrite fl_set_eq. apply NoDup_cons. split.
      * intros Hin. destruct (hole_member H i _ _ Hi Hin) as (Hc & _). contradiction.
      * exact (hole_nodup _ _ _ _ _ _ _ H i Hi).
    + rewrite fl_set_ne by exact Hne. exact (hole_nodup _ _ _ _ _ _ _ H j Hj).
Qed.

(** ** Moving the boundary of the hole *)

Lemma chunks_of_snoc l1 s f n l2 e :
  e ∈ chunks_of (l1 ++ [(s, f)]) n l2 <->
  e = (first + total l1, s, f) \/ e ∈ chunks_of l1 (s + 32 + n) l2.
Proof.
  unfold heap.chunks_of. rewrite layout_app, total_app. simpl. consts.
  replace (first + (total l1 + (s + 32 + 0)) + n) with (first + total l1 + (s + 32 + n)) by lia.
  rewrite !elem_of_app, elem_of_cons, elem_of_nil. tauto.
Qed.

Lemma chunks_of_cons l1 s f n l2 e :
  e ∈ chunks_of l1 n ((s, f) :: l2) <->
  e = (first + total l1 + n, s, f) \/ e ∈ chunks_of l1 (n + s + 32) l2.
Proof.
  unfold heap.chunks_of. simpl. consts.
  replace (first + total l1 + n + s + 32) with (first + total l1 + (n + s + 32)) by lia.
  rewrite !elem_of_app, elem_of_cons. tauto.
Qed.

Lemma chunks_of_shift l1 l2 l3 :
  chunks_of (l1 ++ l2) 0 l3 = chunks_of l1 0 (l2 ++ l3).
Proof.
  unfold heap.chunks_of. rewrite !layout_app, total_app, <- app_assoc.
  do 3 f_equal; lia.
Qed.

Lemma Hole_shift m sz l1 l2 l3 fl :
  Hole m sz (l1 ++ l2) 0 l3 fl <-> Hole m sz l1 0 (l2 ++ l3) fl.
Proof.
  split; intros [Hs1 Hs2 Hn He Hb Ht Hl Hi Ha Hnd].
  - apply sizes_ok_app in Hs1 as [Hs1 Hs1'].
    constructor; auto.
    + apply sizes_ok_app. auto.
    + rewrite total_app in *. lia.
    + rewrite <- chunks_of_shift. exact Ht.
    + rewrite <- chunks_of_shift. exact Hi.
    + rewrite <- chunks_of_shift. exact Ha.
  - apply sizes_ok_app in Hs2 as [Hs2 Hs2'].
    constructor; auto.
    + apply sizes_ok_app. auto.
    + rewrite total_app in *. lia.
    + rewrite chunks_of_shift. exact Ht.
    + rewrite chunks_of_shift. exact Hi.
    + rewrite chunks_of_shift. exact Ha.
Qed.

Lemma chunks_of_hole_out l1 n l2 x s f :
  sizes_ok l1 -> sizes_ok l2 -> 0 <= n ->
  (x, s, f) ∈ chunks_of l1 n l2 ->
  x + s + 32 <= first + total l1 \/ first + total l1 + n <= x.
Proof.
  intros Hs1 Hs2 Hn Hin. apply elem_of_app in Hin as [Hin|Hin];
    apply layout_bounds in Hin as (? & ? & ? & ? & ?); auto; lia.
Qed.

(** ** [before] and [after] *)

Lemma first_chunk_eq : chunk.first_chunk driver_ = first.
Proof. unfold chunk.first_chunk. hconsts. wsimp. reflexivity. Qed.

Lemma pop_free_tail_cases l :
  (last_free l = false /\ pop_free_tail l = (l, 0)) \/
  (exists l' sb, l = l' ++ [(sb, true)] /\ last_free l = true /\
                 pop_free_tail l = (l', sb + 32)).
Proof.
  destruct (list_snoc_cases l) as [->|(l' & [sb fb] & ->)].
  - left. auto.
  - rewrite last_free_snoc, pop_free_tail_snoc. destruct fb.
    + right. eauto.
    + left. auto.
Qed.

Lemma pop_free_head_cases l :
  (head_free l = false /\ pop_free_head l = (l, 0)) \/
  (exists l' sa, l = (sa, true) :: l' /\ head_free l = true /\
                 pop_free_head l = (l', sa + 32)).
Proof.
  destruct l as [|[sa [|]] l'].
  - left. auto.
  - right. eauto.
  - left. auto.
Qed.

Lemma before_eq st sz l1 n l2 fl :
  Hole (mem st) sz l1 n l2 fl ->
  chunk.before driver_ (first + total l1) st =
    Ok (if last_free l1 then first + total (fst (pop_free_tail l1)) else 0) st.
Proof.
  intros H. pose proof (hole_size_bound H) as Hb.
  unfold chunk.before. rewrite first_chunk_eq.
  destruct (list_snoc_cases l1) as [->|(l' & [sb fb] & ->)].
  - simpl. rewrite Z.add_0_r, Z.eqb_refl. reflexivity.
  - rewrite last_free_snoc, pop_free_tail_snoc.
    assert (Hc : (first + total l', sb, fb) ∈ chunks_of (l' ++ [(sb, fb)]) n l2).
    { apply chunks_of_snoc. auto. }
    destruct (hole_chunk H _ _ _ Hc) as (? & ? & ? & ? & ? & ?).
    destruct (hole_tags _ _ _ _ _ _ _ H _ _ _ Hc) as [Ht1 Ht2].
    rewrite total_app in *. simpl in *. hconsts.
    destruct (Z.eqb_spec (driver_ + 2096 + (total l' + (sb + 32 + 0))) (driver_ + 2096));
      [lia|].
    cbv zeta. unfold load, gets, bind. wsimp.
    replace (driver_ + 2096 + (total l' + (sb + 32 + 0)) - 16 + 0)
      with (driver_ + 2096 + total l' + sb + 16) by lia.
    rewrite Ht2. destruct fb.
    + destruct (Z.eqb_spec sb 0); [lia|]. wsimp.
      rewrite get_chunk_eq by (consts; lia). simpl. f_equal. lia.
    + simpl. reflexivity.
Qed.

Lemma after_eq st sz l1 s l2 fl :
  Hole (mem st) sz l1 (s + 32) l2 fl -> size_ st = sz ->
  read (mem st) (first + total l1) = s -> 0 <= s ->
  chunk.after driver_ (first + total l1) st =
    Ok (if head_free l2 then first + total l1 + s + 32 else 0) st.
Proof.
  intros H Hsz Hr Hs. pose proof (hole_size_bound H) as Hb.
  unfold chunk.after, bind, gets.
  rewrite (footer_eq _ _ s) by (auto; hconsts; lia). rewrite Hsz.
  destruct l2 as [|[sa fa] l2].
  - simpl in *. hconsts. wsimp.
    destruct (Z.ltb_spec (driver_ + sz) (driver_ + 2096 + total l1 + s + 16 + 16 + 48));
      [reflexivity|lia].
  - assert (Hc : (first + total l1 + (s + 32), sa, fa) ∈
                 chunks_of l1 (s + 32) ((sa, fa) :: l2)).
    { apply chunks_of_cons. auto. }
    destruct (hole_chunk H _ _ _ Hc) as (? & ? & ? & ? & ? & ?).
    destruct (hole_tags _ _ _ _ _ _ _ H _ _ _ Hc) as [Ht1 Ht2].
    simpl in *. hconsts. wsimp.
    destruct (Z.ltb_spec (driver_ + sz) (driver_ + 2096 + total l1 + s + 16 + 16 + 48));
      [lia|].
    unfold chunk.allocated.
    replace (driver_ + 2096 + total l1 + s + 16 + 16)
      with (driver_ + 2096 + total l1 + (s + 32)) by lia.
    rewrite (footer_eq _ _ sa) by (auto; consts; lia). wsimp.
    rewrite Z.add_0_r, Ht2. destruct fa.
    + destruct (Z.eqb_spec sa 0); [lia|]. f_equal. lia.
    + simpl. reflexivity.
Qed.

(** ** Coalescing *)

Lemma nz_eqb x : 0 < x -> (x =? NULL) = false.
Proof. intros. apply Z.eqb_neq. consts. lia. Qed.

Lemma set_mem_id st : set_mem (mem st) st = st.
Proof. destruct st. reflexivity. Qed.

Lemma remove_before st sz l1 n l2 fl :
  Hole (mem st) sz l1 n l2 fl ->
  exists m' fl',
    when (negb ((if last_free l1 then first + total (fst (pop_free_tail l1)) else 0) =? NULL))
      (chunk.remove (if last_free l1 then first + total (fst (pop_free_tail l1)) else 0)) st
      = Ok tt (set_mem m' st) /\
    Hole m' sz (fst (pop_free_tail l1)) (snd (pop_free_tail l1) + n) l2 fl' /\
    (forall a, a mod 16 = 0 -> read m' a = read (mem st) a) /\
    (if last_free l1
     then read (mem st) (first + total (fst (pop_free_tail l1))) + 32 = snd (pop_free_tail l1)
     else snd (pop_free_tail l1) = 0).
Proof.
  intros H. pose proof (hole_size_bound H) as Hb.
  destruct (pop_free_tail_cases l1) as [[Hlf Hp]|(l' & sb & Hl & Hlf & Hp)];
    rewrite Hlf, Hp; simpl.
  - exists (mem st), fl. rewrite set_mem_id. change (0 + n) with n.
    split; [reflexivity|]. split; [exact H|]. split; auto.
  - subst l1.
    assert (Hc : (first + total l', sb, true) ∈ chunks_of (l' ++ [(sb, true)]) n l2).
    { apply chunks_of_snoc. auto. }
    destruct (hole_chunk H _ _ _ Hc) as (? & ? & ? & ? & ? & ?).
    destruct (hole_tags _ _ _ _ _ _ _ H _ _ _ Hc) as [Ht1 Ht2].
    pose proof (hole_sizes1 _ _ _ _ _ _ _ H) as Hs1.
    apply sizes_ok_app in Hs1 as [Hs1 _].
    rewrite total_app in Hb. simpl in Hb.
    destruct (Z.eqb_spec (first + total l') NULL) as [Hz|_]; [hconsts; lia|]. simpl.
    destruct (remove_hole st sz (l' ++ [(sb, true)]) n l2 fl l' (sb + 32 + n) l2
                (first + total l') sb H Hc) as (m' & fl' & Hr & H' & Hfr); auto.
    + exact (hole_sizes2 _ _ _ _ _ _ _ H).
    + consts. lia.
    + consts. lia.
    + intros e. apply chunks_of_snoc.
    + intros Hin. apply chunks_of_hole_out in Hin; auto; try (consts; lia).
      exact (hole_sizes2 _ _ _ _ _ _ _ H).
    + exists m', fl'. split; [exact Hr|]. split; [exact H'|]. split; [exact Hfr|].
      rewrite Ht1. consts. reflexivity.
Qed.

Lemma remove_after st sz l1 n l2 fl :
  Hole (mem st) sz l1 n l2 fl ->
  exists m' fl',
    when (negb ((if head_free l2 then first + total l1 + n else 0) =? NULL))
      (chunk.remove (if head_free l2 then first + total l1 + n else 0)) st
      = Ok tt (set_mem m' st) /\
    Hole m' sz l1 (n + snd (pop_free_head l2)) (fst (pop_free_head l2)) fl' /\
    (forall a, a mod 16 = 0 -> read m' a = read (mem st) a) /\
    (if head_free l2
     then read (mem st) (first + total l1 + n) + 32 = snd (pop_free_head l2)
     else snd (pop_free_head l2) = 0).
Proof.
  intros H. pose proof (hole_size_bound H) as Hb.
  destruct (pop_free_head_cases l2) as [[Hlf Hp]|(l' & sa & Hl & Hlf & Hp)];
    rewrite Hlf, Hp; simpl.
  - exists (mem st), fl. rewrite set_mem_id, Z.add_0_r.
    split; [reflexivity|]. split; [exact H|]. split; auto.
  - subst l2.
    assert (Hc : (first + total l1 + n, sa, true) ∈ chunks_of l1 n ((sa, true) :: l')).
    { apply chunks_of_cons. auto. }
    destruct (hole_chunk H _ _ _ Hc) as (? & ? & ? & ? & ? & ?).
    destruct (hole_tags _ _ _ _ _ _ _ H _ _ _ Hc) as [Ht1 Ht2].
    pose proof (hole_sizes2 _ _ _ _ _ _ _ H) as Hs2.
    apply sizes_ok_cons in Hs2 as [_ Hs2].
    simpl in Hb.
    destruct (Z.eqb_spec (first + total l1 + n) NULL) as [Hz|_]; [hconsts; lia|]. simpl.
    destruct (remove_hole st sz l1 n ((sa, true) :: l') fl l1 (n + sa + 32) l'
                (first + total l1 + n) sa H Hc) as (m' & fl' & Hr & H' & Hfr); auto.
    + exact (hole_sizes1 _ _ _ _ _ _ _ H).
    + consts. lia.
    + consts. lia.
    + intros e. apply chunks_of_cons.
    + intros Hin. apply chunks_of_hole_out in Hin; auto; try (consts; lia).
      exact (hole_sizes1 _ _ _ _ _ _ _ H).
    + exists m', fl'. consts. replace (n + (sa + 32)) with (n + sa + 32) by lia.
      split; [exact Hr|]. split; [exact H'|]. split; [exact Hfr|].
      rewrite Ht1. reflexivity.
Qed.

(** A free-tagged chunk that fills the hole and has no free neighbour is
    simply linked. *)
Lemma coalesce_simple rec st sz l1 s l2 fl :
  Hole (mem st) sz l1 (s + 32) l2 fl -> size_ st = sz ->
  read (mem st) (first + total l1) = s ->
  read (mem st) (first + total l1 + s + 16) = s ->
  16 <= s -> s mod 16 = 0 ->
  last_free l1 = false -> head_free l2 = false ->
  no_adj_free l1 = true -> no_adj_free l2 = true ->
  exists m' fl',
    chunk.coalesce_with driver_ rec (first + total l1) st =
      Ok (first + total l1) (set_mem m' st) /\
    Rep m' sz (l1 ++ (s, true) :: l2) fl' /\
    (forall a, a mod 16 = 0 -> read m' a = read (mem st) a).
Proof.
  intros H Hsz Hr Hf Hs Hsm Hlf Hhf Hn1 Hn2.
  pose proof (hole_size_bound H) as Hb.
  pose proof (hole_sizes1 _ _ _ _ _ _ _ H) as Hs1.
  pose proof (hole_sizes2 _ _ _ _ _ _ _ H) as Hs2.
  destruct (add_hole st sz l1 (s + 32) l2 fl (l1 ++ [(s, true)]) 0 l2
              (first + total l1) s H) as (m' & fl' & Ha & H' & Hfr); auto.
  - apply sizes_ok_app. split; [exact Hs1|]. apply sizes_ok_cons. split; [lia|constructor].
  - lia.
  - rewrite total_app. simpl. consts. lia.
  - intros e. rewrite chunks_of_snoc. rewrite Z.add_0_r. tauto.
  - lia.
  - lia.
  - hconsts. lia.
  - exists m', fl'. split; [|split; [|exact Hfr]].
    + unfold chunk.coalesce_with.
      eapply bind_step; [apply (before_eq _ _ _ _ _ _ H)|]. rewrite Hlf.
      eapply bind_step; [apply (after_eq _ _ _ _ _ _ H Hsz Hr); lia|]. rewrite Hhf.
      simpl.
      eapply bind_step; [exact Ha|]. reflexivity.
    + split.
      * rewrite <- (app_nil_r l2) in H'.
        apply (Hole_shift m' sz (l1 ++ [(s, true)]) l2 []) in H'.
        rewrite <- app_assoc in H'. exact H'.
      * rewrite no_adj_free_app, Hn1, Hn2, Hlf, Hhf. simpl. reflexivity.
Qed.

Lemma write_tags_read m c n a :
  a <> c -> a <> c + 8 -> a <> c + n - 16 -> a <> c + n - 8 ->
  read (write_tags m c n) a = read m a.
Proof. intros. unfold write_tags. rewrite !read_insert_ne by lia. reflexivity. Qed.

Lemma add_chunk_eq f c n st :
  48 <= n -> n mod 16 = 0 -> 0 < c -> c + n < 2 ^ 64 ->
  chunk.add_chunk driver_ (S f) c n st =
  chunk.coalesce_with driver_ (chunk.add_chunk driver_ f) c
    (set_mem (write_tags (mem st) c n) st).
Proof.
  intros Hn Hnm Hc Hb. cbn [chunk.add_chunk].
  rewrite land_align, Hnm. simpl negb. cbv iota.
  destruct (Z.ltb_spec n min_chunk_size_) as [Hlt|_]; [consts; lia|].
  eapply bind_step; [apply set_header_size_eq; consts; lia|].
  eapply bind_step; [apply set_header_prev_eq; consts; lia|].
  eapply bind_step; [apply header_size_eq; consts; lia|].
  cbn [mem set_mem]. rewrite read_insert_ne by lia. rewrite read_insert_eq.
  assert (Hw : wsub n sizeof_chunk = n - 32) by (wsimp; reflexivity).
  rewrite Hw.
  eapply bind_step.
  { apply (set_footer_size_eq c (n - 32)); try (consts; lia).
    cbn [mem set_mem]. rewrite read_insert_ne by lia. apply read_insert_eq. }
  eapply bind_step.
  { apply (set_footer_next_eq c (n - 32)); try (consts; lia).
    cbn [mem set_mem]. rewrite !read_insert_ne by lia. apply read_insert_eq. }
  cbn [mem set_mem]. unfold write_tags. consts.
  replace (c + (n - 32) + 16) with (c + n - 16) by lia.
  replace (c + (n - 32) + 24) with (c + n - 8) by lia.
  reflexivity.
Qed.

Lemma write_tags_hole m sz l1 n l2 fl :
  Hole m sz l1 n l2 fl -> 48 <= n ->
  Hole (write_tags m (first + total l1) n) sz l1 n l2 fl /\
  read (write_tags m (first + total l1) n) (first + total l1) = n - 32 /\
  read (write_tags m (first + total l1) n) (first + total l1 + (n - 32) + 16) = n - 32.
Proof.
  intros H Hn. split; [|split].
  - apply (Hole_frame _ _ _ _ _ _ _ H). intros a Ha.
    apply write_tags_read; lia.
  - unfold write_tags. consts. rewrite !read_insert_ne by lia. apply read_insert_eq.
  - unfold write_tags. consts. rewrite read_insert_ne by lia.
    replace (first + total l1 + (n - 32) + 16) with (first + total l1 + n - 16) by lia.
    apply read_insert_eq.
Qed.

Lemma add_chunk_simple f st sz l1 n l2 fl :
  Hole (mem st) sz l1 n l2 fl -> size_ st = sz -> 48 <= n ->
  last_free l1 = false -> head_free l2 = false ->
  no_adj_free l1 = true -> no_adj_free l2 = true ->
  exists m' fl',
    chunk.add_chunk driver_ (S f) (first + total l1) n st =
      Ok (first + total l1) (set_mem m' st) /\
    Rep m' sz (l1 ++ (n - 32, true) :: l2) fl'.
Proof.
  intros H Hsz Hn Hlf Hhf Hn1 Hn2.
  pose proof (hole_size_bound H) as Hb.
  destruct (write_tags_hole _ _ _ _ _ _ H Hn) as (H1 & Hr1 & Hr2).
  rewrite add_chunk_eq by (hconsts; lia).
  set (st1 := set_mem (write_tags (mem st) (first + total l1) n) st).
  destruct (coalesce_simple (chunk.add_chunk driver_ f) st1 sz l1 (n - 32) l2 fl)
    as (m' & fl' & Hc & HR & _); auto; try lia.
  - replace (n - 32 + 32) with n by lia. exact H1.
  - exists m', fl'. split; [exact Hc|exact HR].
Qed.

(** [coalesce] on a free-tagged chunk that fills the hole: free neighbours
    are unlinked and merged into it, and the result is linked. *)
Lemma coalesce_hole f st sz l1 s l2 fl :
  Hole (mem st) sz l1 (s + 32) l2 fl -> size_ st = sz ->
  read (mem st) (first + total l1) = s ->
  read (mem st) (first + total l1 + s + 16) = s ->
  16 <= s -> s mod 16 = 0 ->
  no_adj_free l1 = true -> no_adj_free l2 = true ->
  exists m' fl',
    chunk.coalesce driver_ (S f) (first + total l1) st =
      Ok (first + total (fst (pop_free_tail l1))) (set_mem m' st) /\
    Rep m' sz (fst (pop_free_tail l1) ++
               (s + snd (pop_free_tail l1) + snd (pop_free_head l2), true) ::
               fst (pop_free_head l2)) fl'.
Proof.
  intros H Hsz Hr Hf Hs Hsm Hn1 Hn2.
  pose proof (hole_size_bound H) as Hb.
  destruct (last_free l1) eqn:Hlf; destruct (head_free l2) eqn:Hhf.
  4:{ (* no free neighbour *)
    destruct (pop_free_tail_cases l1) as [[_ Hp1]|(? & ? & _ & Hc & _)]; [|congruence].
    destruct (pop_free_head_cases l2) as [[_ Hp2]|(? & ? & _ & Hc & _)]; [|congruence].
    rewrite Hp1, Hp2. simpl. rewrite !Z.add_0_r.
    destruct (coalesce_simple (chunk.add_chunk driver_ (S f)) st sz l1 s l2 fl)
      as (m' & fl' & Hc & HR & _); auto.
    exists m', fl'. split; [exact Hc|exact HR]. }
  all: destruct (remove_before st sz l1 (s + 32) l2 fl H) as (m1 & fl1 & Hrb & H1 & Hfr1 & Hsb).
  all: set (st1 := set_mem m1 st) in *.
  all: destruct (remove_after st1 sz _ _ l2 fl1 H1) as (m2 & fl2 & Hra & H2 & Hfr2 & Hsa).
  all: rewrite Hlf in Hrb, Hsb; rewrite Hhf in Hra, Hsa.
  all: pose proof (hole_size_bound H2) as Hb2.
  all: assert (Hl1' : last_free (fst (pop_free_tail l1)) = false /\
                      no_adj_free (fst (pop_free_tail l1)) = true)
    by (destruct (pop_free_tail_cases l1) as [[Hc Hp]|(l' & sb & -> & _ & Hp)];
        [rewrite Hp; simpl; auto|];
        rewrite Hp; simpl; rewrite no_adj_free_snoc in Hn1;
        destruct (no_adj_free l'), (last_free l'); simpl in Hn1; auto; discriminate).
  all: assert (Hl2' : head_free (fst (pop_free_head l2)) = false /\
                      no_adj_free (fst (pop_free_head l2)) = true)
    by (destruct (pop_free_head_cases l2) as [[Hc Hp]|(l' & sa & -> & _ & Hp)];
        [rewrite Hp; simpl; auto|];
        rewrite Hp; simpl; rewrite no_adj_free_cons in Hn2;
        destruct (no_adj_free l'), (head_free l'); simpl in Hn2; auto; discriminate).
  all: destruct Hl1' as [Hlf' Hn1']; destruct Hl2' as [Hhf' Hn2'].
  all: set (l1' := fst (pop_free_tail l1)) in *.
  all: set (bsz := snd (pop_free_tail l1)) in *.
  all: set (l2' := fst (pop_free_head l2)) in *.
  all: set (asz := snd (pop_free_head l2)) in *.
  all: assert (Hbsz : 0 <= bsz) by
    (unfold bsz; destruct (pop_free_tail_cases l1) as [[_ ->]|(l' & sb & -> & _ & ->)];
     simpl; [lia|];
     pose proof (hole_sizes1 _ _ _ _ _ _ _ H) as Hx;
     apply sizes_ok_app in Hx as [_ Hx]; apply sizes_ok_cons in Hx as [[? ?] _]; lia).
  all: assert (Hasz : 0 <= asz) by
    (unfold asz; destruct (pop_free_head_cases l2) as [[_ ->]|(l' & sa & -> & _ & ->)];
     simpl; [lia|];
     pose proof (hole_sizes2 _ _ _ _ _ _ _ H) as Hx;
     apply sizes_ok_cons in Hx as [[? ?] _]; lia).
  all: set (st2 := set_mem m2 st1) in *.
  all: destruct (add_chunk_simple f st2 sz l1' (bsz + (s + 32) + asz) l2' fl2)
    as (m3 & fl3 & Hac & HR); auto; try lia.
  all: exists m3, fl3.
  all: (split; [|replace (s + bsz + asz) with (bsz + (s + 32) + asz - 32) by lia; exact HR]).
  all: unfold chunk.coalesce, chunk.coalesce_with.
  all: (eapply bind_step; [apply (before_eq _ _ _ _ _ _ H)|]); rewrite Hlf.
  all: (eapply bind_step; [apply (after_eq _ _ _ _ _ _ H Hsz Hr); lia|]); rewrite Hhf.
  all: fold l1'.
  all: assert (Hl1t : total l1 = total l1' + bsz) by
    (unfold l1', bsz; destruct (pop_free_tail_cases l1) as [[_ ->]|(l' & sb & -> & _ & ->)];
     simpl; [lia|]; rewrite total_app; simpl; consts; lia).
  - (* both neighbours free *)
    replace (first + total l1 + s + 32) with (first + total l1' + (bsz + (s + 32))) by lia.
    assert (Ea : (first + total l1' + (bsz + (s + 32)) =? NULL) = false)
      by (apply nz_eqb; hconsts; lia).
    assert (Eb : (first + total l1' =? NULL) = false) by (apply nz_eqb; hconsts; lia).
    rewrite ?Ea, ?Eb in Hra. rewrite ?Ea, ?Eb in Hrb. rewrite ?Ea, ?Eb.
    cbn [andb negb].
    eapply bind_step; [exact Hrb|].
    eapply bind_step; [exact Hra|].
    unfold gets, bind, chunk.full_size, chunk.size, chunk.header.
    cbn [mem set_mem]. consts.
    wsimp. rewrite !Z.add_0_r.
    rewrite !Hfr2, !Hfr1 by (hconsts; lia).
    rewrite Hfr1 in Hsa by (hconsts; lia).
    rewrite Hr.
    assert (Hsa' : read (mem st) (first + total l1' + (bsz + (s + 32))) = asz - 32) by lia.
    assert (Hsb' : read (mem st) (first + total l1') = bsz - 32) by lia.
    rewrite Hsa', Hsb'. wsimp.
    replace (s + 32 + (bsz - 32 + 32) + (asz - 32 + 32)) with (bsz + (s + 32) + asz) by lia.
    exact Hac.
  - (* only the chunk before is free *)
    assert (Eb : (first + total l1' =? NULL) = false) by (apply nz_eqb; hconsts; lia).
    rewrite ?Eb in Hrb. rewrite ?Eb.
    cbn [andb negb Z.eqb] in Hra |- *.
    eapply bind_step; [exact Hrb|].
    eapply bind_step; [exact Hra|].
    unfold gets, bind, chunk.full_size, chunk.size, chunk.header.
    cbn [mem set_mem]. consts. change (0 =? 0) with true. cbv iota.
    wsimp. rewrite !Z.add_0_r.
    rewrite !Hfr2, !Hfr1 by (hconsts; lia).
    rewrite Hr.
    assert (Hsb' : read (mem st) (first + total l1') = bsz - 32) by lia.
    rewrite Hsb'. wsimp.
    replace (s + 32 + (bsz - 32 + 32) + 0) with (bsz + (s + 32) + asz) by lia.
    exact Hac.
  - (* only the chunk after is free *)
    replace (first + total l1 + s + 32) with (first + total l1' + (bsz + (s + 32))) by lia.
    assert (Ea : (first + total l1' + (bsz + (s + 32)) =? NULL) = false)
      by (apply nz_eqb; hconsts; lia).
    rewrite ?Ea in Hra. rewrite ?Ea.
    cbn [andb negb Z.eqb] in Hrb |- *.
    eapply bind_step; [exact Hrb|].
    eapply bind_step; [exact Hra|].
    unfold gets, bind, chunk.full_size, chunk.size, chunk.header.
    cbn [mem set_mem]. consts. change (0 =? 0) with true. cbv iota.
    wsimp. rewrite !Z.add_0_r.
    rewrite !Hfr2, !Hfr1 by (hconsts; lia).
    rewrite Hfr1 in Hsa by (hconsts; lia).
    rewrite Hr.
    assert (Hsa' : read (mem st) (first + total l1' + (bsz + (s + 32))) = asz - 32) by lia.
    rewrite Hsa'. wsimp.
    replace (s + 32 + 0 + (asz - 32 + 32)) with (bsz + (s + 32) + asz) by lia.
    replace (first + total l1) with (first + total l1') by lia.
    exact Hac.
Qed.

Lemma add_chunk_hole f st sz l1 n l2 fl :
  Hole (mem st) sz l1 n l2 fl -> size_ st = sz -> 48 <= n ->
  no_adj_free l1 = true -> no_adj_free l2 = true ->
  exists m' fl',
    chunk.add_chunk driver_ (S (S f)) (first + total l1) n st =
      Ok (first + total (fst (pop_free_tail l1))) (set_mem m' st) /\
    Rep m' sz (fst (pop_free_tail l1) ++
               (n - 32 + snd (pop_free_tail l1) + snd (pop_free_head l2), true) ::
               fst (pop_free_head l2)) fl'.
Proof.
  intros H Hsz Hn Hn1 Hn2.
  pose proof (hole_size_bound H) as Hb.
  destruct (write_tags_hole _ _ _ _ _ _ H Hn) as (H1 & Hr1 & Hr2).
  rewrite add_chunk_eq by (hconsts; lia).
  set (st1 := set_mem (write_tags (mem st) (first + total l1) n) st).
  destruct (coalesce_hole f st1 sz l1 (n - 32) l2 fl) as (m' & fl' & Hc & HR);
    auto; try lia.
  - replace (n - 32 + 32) with n by lia. exact H1.
  - exists m', fl'. split; [exact Hc|exact HR].
Qed.

(** ** Allocation from and release of a chunk *)

Lemma hole_fill_left m sz l1 n l2 fl s :
  Hole m sz l1 n l2 fl -> 16 <= s -> s mod 16 = 0 -> s + 32 <= n ->
  read m (first + total l1) = s -> read m (first + total l1 + s + 16) = 0 ->
  Hole m sz (l1 ++ [(s, false)]) (n - s - 32) l2 fl.
Proof.
  intros H Hs Hsm Hn Hr Hf. pose proof (hole_size_bound H) as Hb.
  assert (Hiff : forall e, e ∈ chunks_of (l1 ++ [(s, false)]) (n - s - 32) l2 <->
                           e = (first + total l1, s, false) \/ e ∈ chunks_of l1 n l2).
  { intros e. rewrite chunks_of_snoc.
    replace (s + 32 + (n - s - 32)) with n by lia. tauto. }
  destruct H as [Hs1 Hs2 Hn0 He Hbd Ht Hl Hi Ha Hnd].
  constructor; auto.
  - apply sizes_ok_app. split; [exact Hs1|]. apply sizes_ok_cons. split; [lia|constructor].
  - consts. lia.
  - rewrite total_app. simpl. consts. lia.
  - intros x t f Hx. apply Hiff in Hx as [Heq|Hx]; [|apply Ht; exact Hx].
    inversion Heq; subst. consts. auto.
  - intros i x t Hi' Hx. destruct (Hi i x t Hi' Hx) as [Hc Hlg].
    split; [apply Hiff; auto|exact Hlg].
  - intros x t Hx. apply Hiff in Hx as [Heq|Hx]; [inversion Heq|apply Ha; exact Hx].
Qed.

Lemma hole_open m sz l1 n l2 fl s :
  Hole m sz (l1 ++ [(s, false)]) n l2 fl ->
  Hole m sz l1 (s + 32 + n) l2 fl /\
  read m (first + total l1) = s /\ read m (first + total l1 + s + 16) = 0 /\
  16 <= s /\ s mod 16 = 0.
Proof.
  intros H. pose proof (hole_size_bound H) as Hb.
  assert (Hc : (first + total l1, s, false) ∈ chunks_of (l1 ++ [(s, false)]) n l2).
  { apply chunks_of_snoc. auto. }
  destruct (hole_chunk H _ _ _ Hc) as (? & ? & ? & ? & ? & ?).
  destruct (hole_tags _ _ _ _ _ _ _ H _ _ _ Hc) as [Ht1 Ht2]. consts.
  split; [|auto].
  destruct H as [Hs1 Hs2 Hn0 He Hbd Ht Hl Hi Ha Hnd].
  apply sizes_ok_app in Hs1 as [Hs1 _].
  rewrite total_app in He, Hb. simpl in He, Hb. consts.
  constructor; auto.
  - consts. lia.
  - lia.
  - intros x t f Hx. apply Ht. apply chunks_of_snoc. auto.
  - intros i x t Hi' Hx. destruct (Hi i x t Hi' Hx) as [Hc' Hlg].
    split; [|exact Hlg]. apply chunks_of_snoc in Hc' as [Heq|Hc']; [inversion Heq|exact Hc'].
  - intros x t Hx. apply Ha. apply chunks_of_snoc. auto.
Qed.

Lemma Rep_split m sz l1 c l2 fl :
  Rep m sz (l1 ++ c :: l2) fl <->
  Hole m sz (l1 ++ [c]) 0 l2 fl /\ no_adj_free (l1 ++ c :: l2) = true.
Proof.
  unfold heap.Rep.
  replace (l1 ++ c :: l2) with ((l1 ++ [c]) ++ l2) at 1 by (rewrite <- app_assoc; reflexivity).
  rewrite (Hole_shift m sz (l1 ++ [c]) l2 []), app_nil_r. reflexivity.
Qed.

Lemma chunk_allocate_rep f st sz l1 s l2 fl r :
  Rep (mem st) sz (l1 ++ (s, true) :: l2) fl -> size_ st = sz ->
  16 <= r <= s -> r mod 16 = 0 ->
  exists m' fl',
    chunk.allocate driver_ (S f) (first + total l1) r st = Ok tt (set_mem m' st) /\
    Rep m' sz (l1 ++ alloc_split s r ++ l2) fl'.
Proof.
  intros HR Hsz Hr Hrm.
  apply Rep_split in HR as [H Hnaf].
  pose proof (hole_size_bound H) as Hb.
  assert (Hc : (first + total l1, s, true) ∈ chunks_of (l1 ++ [(s, true)]) 0 l2).
  { apply chunks_of_snoc. auto. }
  destruct (hole_chunk H _ _ _ Hc) as (? & ? & ? & ? & ? & ?).
  destruct (hole_tags _ _ _ _ _ _ _ H _ _ _ Hc) as [Ht1 Ht2].
  rewrite total_app in Hb. simpl in Hb.
  rewrite no_adj_free_app in Hnaf.
  assert (Hn1 : no_adj_free l1 = true /\ last_free l1 = false /\
                head_free l2 = false /\ no_adj_free l2 = true).
  { destruct (no_adj_free l1), (last_free l1), (head_free l2), (no_adj_free l2);
      simpl in Hnaf; auto; discriminate. }
  destruct Hn1 as (Hn1 & Hlf & Hhf & Hn2).
  pose proof (hole_sizes1 _ _ _ _ _ _ _ H) as Hs1.
  apply sizes_ok_app in Hs1 as [Hs1 _].
  pose proof (hole_sizes2 _ _ _ _ _ _ _ H) as Hs2.
  (* unlink the chunk *)
  destruct (remove_hole st sz (l1 ++ [(s, true)]) 0 l2 fl l1 (s + 32) l2
              (first + total l1) s H Hc) as (m1 & fl1 & Hrm1 & Hh1 & Hfr1); auto.
  { consts. lia. }
  { consts. lia. }
  { intros e. rewrite chunks_of_snoc, Z.add_0_r. tauto. }
  { intros Hin. apply chunks_of_hole_out in Hin; auto; lia. }
  set (st1 := set_mem m1 st) in *.
  assert (Hstart :
    chunk.allocate driver_ (S f) (first + total l1) r st =
    (if min_chunk_size_ <=? s - r
     then chunk.split driver_ (S f) (first + total l1) (s - r)
     else chunk.set_footer_size (first + total l1) 0) st1).
  { unfold chunk.allocate. rewrite land_align, Hrm. simpl negb. cbv iota.
    eapply bind_step; [apply header_size_eq; hconsts; lia|]. rewrite Ht1.
    destruct (Z.ltb_spec s r) as [?|_]; [lia|].
    eapply bind_step; [exact Hrm1|].
    eapply bind_step; [apply header_size_eq; hconsts; lia|].
    unfold st1. cbn [mem set_mem]. rewrite Hfr1 by lia. rewrite Ht1.
    rewrite wsub_small by (hconsts; lia). reflexivity. }
  rewrite Hstart. clear Hstart.
  unfold alloc_split.
  destruct (Z.leb_spec min_chunk_size_ (s - r)) as [Hbig|Hsmall]; consts.
  - (* split *)
    unfold chunk.split.
    destruct (Z.ltb_spec (s - r) min_chunk_size_) as [?|_]; [consts; lia|].
    rewrite land_align. replace ((s - r) mod 16) with 0 by lia. simpl negb. cbv iota.
    assert (Hm1c : read m1 (first + total l1) = s) by (rewrite Hfr1 by lia; exact Ht1).
    set (c := first + total l1) in *.
    set (m2 := <[c + r + 24 := NULL]> (<[c + r + 16 := 0]> (<[c := r]> m1))).
    set (st2 := set_mem m2 st).
    assert (Hh2 : Hole m2 sz l1 (s + 32) l2 fl1).
    { apply (Hole_frame _ _ _ _ _ _ _ Hh1). intros a Ha. unfold m2. consts.
      rewrite !read_insert_ne by lia. reflexivity. }
    assert (Hh3 : Hole m2 sz (l1 ++ [(r, false)]) (s - r) l2 fl1).
    { replace (s - r) with (s + 32 - r - 32) by lia.
      apply hole_fill_left; auto; try lia.
      - unfold m2. consts. rewrite !read_insert_ne by lia. apply read_insert_eq.
      - unfold m2. consts. rewrite read_insert_ne by lia. apply read_insert_eq. }
    destruct (add_chunk_simple f st2 sz (l1 ++ [(r, false)]) (s - r) l2 fl1)
      as (m3 & fl3 & Hac & HR); auto.
    { apply last_free_snoc. }
    { rewrite no_adj_free_snoc, Hn1. destruct (last_free l1); reflexivity. }
    exists m3, fl3. split.
    + eapply bind_step; [apply header_size_eq; hconsts; lia|].
      unfold st1 at 1. cbn [mem set_mem]. rewrite Hm1c.
      rewrite wsub_small by (hconsts; lia). replace (s - (s - r)) with r by lia.
      eapply bind_step; [apply set_header_size_eq; hconsts; lia|].
      eapply bind_step.
      { apply (set_footer_size_eq c r); try (hconsts; lia).
        cbn [mem set_mem]. apply read_insert_eq. }
      eapply bind_step.
      { apply (set_footer_next_eq c r); try (hconsts; lia).
        cbn [mem set_mem]. rewrite read_insert_ne by lia. apply read_insert_eq. }
      eapply bind_step.
      { unfold gets. reflexivity. }
      unfold st1. cbn [mem set_mem]. fold m2. rewrite (footer_eq m2 c r); try (hconsts; lia).
      2:{ unfold m2. consts. rewrite !read_insert_ne by lia. apply read_insert_eq. }
      rewrite total_app in Hac. simpl in Hac. consts.
      rewrite wadd_small by (hconsts; lia).
      replace (c + r + 16 + 16) with (first + (total l1 + (r + 32 + 0))) by (unfold c; lia).
      eapply bind_step; [exact Hac|]. reflexivity.
    + rewrite <- app_assoc in HR. simpl in HR. exact HR.
  - (* the whole chunk *)
    assert (Hm1c : read m1 (first + total l1) = s) by (rewrite Hfr1 by lia; exact Ht1).
    set (c := first + total l1) in *.
    exists (<[c + s + 16 := 0]> m1), fl1. split.
    + rewrite (set_footer_size_eq c s); try (hconsts; lia); auto.
    + simpl app. apply Rep_split. split.
      * assert (Hx : Hole (<[c + s + 16 := 0]> m1) sz (l1 ++ [(s, false)])
                       (s + 32 - s - 32) l2 fl1).
        { apply hole_fill_left; auto; try lia.
          - apply (Hole_frame _ _ _ _ _ _ _ Hh1). intros a Ha.
            rewrite !read_insert_ne by (fold c in Ha; lia). reflexivity.
          - fold c. rewrite read_insert_ne by lia. exact Hm1c.
          - fold c. apply read_insert_eq. }
        replace (s + 32 - s - 32) with 0 in Hx by lia. exact Hx.
      * rewrite no_adj_free_app, Hn1, Hn2. simpl.
        destruct (last_free l1); reflexivity.
Qed.

Lemma chunk_deallocate_rep f st sz l1 s l2 fl :
  Rep (mem st) sz (l1 ++ (s, false) :: l2) fl -> size_ st = sz ->
  exists m' fl',
    chunk.deallocate driver_ (S f) (first + total l1) st = Ok tt (set_mem m' st) /\
    Rep m' sz (fst (pop_free_tail l1) ++
               (s + snd (pop_free_tail l1) + snd (pop_free_head l2), true) ::
               fst (pop_free_head l2)) fl'.
Proof.
  intros HR Hsz.
  apply Rep_split in HR as [H Hnaf].
  destruct (hole_open _ _ _ _ _ _ _ H) as (H0 & Hr & Hf & Hs & Hsm).
  rewrite Z.add_0_r in H0.
  pose proof (hole_size_bound H0) as Hb.
  rewrite no_adj_free_app in Hnaf.
  assert (Hn : no_adj_free l1 = true /\ no_adj_free l2 = true).
  { destruct (no_adj_free l1), (no_adj_free l2); auto;
      destruct (last_free l1); simpl in Hnaf; discriminate. }
  destruct Hn as [Hn1 Hn2].
  set (c := first + total l1) in *.
  set (st1 := set_mem (<[c + s + 16 := s]> (mem st)) st).
  assert (H1 : Hole (mem st1) sz l1 (s + 32) l2 fl).
  { apply (Hole_frame _ _ _ _ _ _ _ H0). intros a Ha. unfold st1. cbn [mem set_mem].
    rewrite read_insert_ne by (fold c in Ha; lia). reflexivity. }
  destruct (coalesce_hole f st1 sz l1 s l2 fl H1) as (m' & fl' & Hc & HR'); auto.
  { unfold st1. cbn [mem set_mem]. fold c. rewrite read_insert_ne by lia. exact Hr. }
  { unfold st1. cbn [mem set_mem]. fold c. apply read_insert_eq. }
  exists m', fl'. split; [|exact HR'].
  unfold chunk.deallocate.
  eapply bind_step; [apply (footer_size_eq c s); auto; hconsts; lia|]. rewrite Hf.
  simpl negb. cbv iota.
  eapply bind_step; [apply header_size_eq; hconsts; lia|]. rewrite Hr.
  eapply bind_step; [apply (set_footer_size_eq c s); auto; hconsts; lia|].
  fold st1. eapply bind_step; [exact Hc|]. reflexivity.
Qed.

(** ** Segment extension *)

Lemma grow_spec (fuel : nat) (cur delta : Z) (j : nat) :
  0 < cur -> (33 <= fuel + j)%nat ->
  (forall i : nat, (i < j)%nat ->
     cur * 2 ^ Z.of_nat i < max_size_ /\ cur * 2 ^ Z.of_nat i - cur < delta) ->
  exists k : nat,
    driver.grow fuel cur delta (cur * 2 ^ Z.of_nat j) = Some (cur * 2 ^ Z.of_nat k) /\
    (j <= k)%nat /\
    ~ (cur * 2 ^ Z.of_nat k < max_size_ /\ cur * 2 ^ Z.of_nat k - cur < delta) /\
    (forall i : nat, (i < k)%nat ->
       cur * 2 ^ Z.of_nat i < max_size_ /\ cur * 2 ^ Z.of_nat i - cur < delta).
Proof.
  intros Hcur. revert j. induction fuel as [|fuel IH]; intros j Hf Hprev.
  - exfalso. destruct (Hprev 32%nat) as [Hlt _]; [lia|].
    change (2 ^ Z.of_nat 32) with 4294967296 in Hlt. consts. lia.
  - cbn [driver.grow].
    assert (Hpow : 0 < 2 ^ Z.of_nat j) by (apply Z.pow_pos_nonneg; lia).
    assert (Hge : cur <= cur * 2 ^ Z.of_nat j) by nia.
    destruct (Z.ltb_spec (cur * 2 ^ Z.of_nat j) max_size_) as [Hlt|Hge'].
    + rewrite wsub_small by (consts; lia).
      destruct (Z.ltb_spec (cur * 2 ^ Z.of_nat j - cur) delta) as [Hlt2|Hge2]; simpl.
      * rewrite wmul_small by (consts; lia).
        replace (cur * 2 ^ Z.of_nat j * 2) with (cur * 2 ^ Z.of_nat (S j)).
        2:{ rewrite Nat2Z.inj_succ, Z.pow_succ_r by lia. lia. }
        destruct (IH (S j)) as (k & Hk & Hjk & Hstop & Hall); [lia| |].
        { intros i Hi. destruct (Nat.eq_dec i j) as [->|Hne]; [auto|]. apply Hprev. lia. }
        exists k. repeat split; auto; try lia; apply Hall; auto.
      * exists j. repeat split; auto; try lia; apply Hprev; auto.
    + simpl. exists j. repeat split; auto; try lia; apply Hprev; auto.
Qed.

Lemma hole_extend m sz l fl sz' :
  Hole m sz l 0 [] fl -> sz <= sz' -> sz' <= 2 * max_size_ ->
  (sz' - sz) mod 16 = 0 ->
  Hole m sz' l (sz' - sz) [] fl.
Proof.
  intros [Hs1 Hs2 Hn He Hb Ht Hl Hi Ha Hnd] Hle Hmax Hmod.
  constructor; auto.
  - consts. lia.
  - simpl in *. lia.
Qed.

Lemma mul_pow2_mod16 cur (k : nat) : cur mod 16 = 0 -> (cur * 2 ^ Z.of_nat k) mod 16 = 0.
Proof.
  intros Hc. apply Z.mod_divide; [lia|].
  apply Z.divide_mul_l. apply Z.mod_divide; [lia|exact Hc].
Qed.

Lemma extend_rep f st l fl delta :
  Rep (mem st) (size_ st) l fl -> 0 < delta < 2 ^ 64 -> (32 <= f)%nat ->
  exists k : nat,
    (~ (size_ st * 2 ^ Z.of_nat k < max_size_ /\
        size_ st * 2 ^ Z.of_nat k - size_ st < delta)) /\
    (forall i : nat, (i < k)%nat ->
       size_ st * 2 ^ Z.of_nat i < max_size_ /\
       size_ st * 2 ^ Z.of_nat i - size_ st < delta) /\
    (size_ st * 2 ^ Z.of_nat k - size_ st < delta ->
       driver.extend driver_ ftruncate_ok (S (S f)) delta st = Throw bad_alloc st) /\
    (delta <= size_ st * 2 ^ Z.of_nat k - size_ st ->
       ftruncate_ok (size_ st * 2 ^ Z.of_nat k) = false ->
       driver.extend driver_ ftruncate_ok (S (S f)) delta st =
         Throw (system_error "ftruncate") st) /\
    (delta <= size_ st * 2 ^ Z.of_nat k - size_ st ->
       ftruncate_ok (size_ st * 2 ^ Z.of_nat k) = true ->
       exists m' fl',
         driver.extend driver_ ftruncate_ok (S (S f)) delta st =
           Ok (first + total (fst (pop_free_tail l)))
              (set_mem m' (set_size_ (size_ st * 2 ^ Z.of_nat k) st)) /\
         Rep m' (size_ st * 2 ^ Z.of_nat k)
           (fst (pop_free_tail l) ++
            [(size_ st * 2 ^ Z.of_nat k - size_ st - 32 + snd (pop_free_tail l), true)])
           fl').
Proof.
  intros [H Hnaf] Hd Hf.
  pose proof (hole_size_bound H) as Hb. simpl in Hb.
  set (cur := size_ st) in *.
  assert (Hcur : 2096 <= cur /\ cur mod 16 = 0) by (hconsts; lia).
  destruct (grow_spec (S (S f)) cur delta 0) as (k & Hg & _ & Hstop & Hall);
    [lia|lia|intros i Hi; lia|].
  change (2 ^ Z.of_nat 0) with 1 in Hg. rewrite Z.mul_1_r in Hg.
  exists k. split; [exact Hstop|]. split; [exact Hall|].
  set (s := cur * 2 ^ Z.of_nat k) in *.
  assert (Hpow : 0 < 2 ^ Z.of_nat k) by (apply Z.pow_pos_nonneg; lia).
  assert (Hs : cur <= s) by (unfold s; nia).
  assert (Hs2 : s <= 2 * max_size_).
  { destruct k as [|k]; [unfold s; simpl; consts; lia|].
    destruct (Hall k) as [Hlt _]; [lia|].
    unfold s. rewrite Nat2Z.inj_succ, Z.pow_succ_r by lia. consts. lia. }
  assert (Hsm : s mod 16 = 0) by (apply mul_pow2_mod16; lia).
  assert (Hunf : driver.extend driver_ ftruncate_ok (S (S f)) delta st =
    (if s - cur <? delta then throw bad_alloc
     else if negb (ftruncate_ok s) then throw (system_error "ftruncate")
     else
       run modify (set_size_ s);
       chunk.add_chunk driver_ (S (S f)) (wadd driver_ cur) (s - cur)) st).
  { unfold driver.extend. eapply bind_step; [reflexivity|]. fold cur.
    rewrite Hg. rewrite wsub_small by (consts; lia). reflexivity. }
  rewrite Hunf. clear Hunf.
  split; [|split].
  - intros Hlt. destruct (Z.ltb_spec (s - cur) delta); [reflexivity|lia].
  - intros Hge Hft. destruct (Z.ltb_spec (s - cur) delta); [lia|].
    rewrite Hft. reflexivity.
  - intros Hge Hft. destruct (Z.ltb_spec (s - cur) delta); [lia|].
    rewrite Hft. simpl negb. cbv iota.
    assert (Hk : s - cur >= 48).
    { destruct k as [|k]; [unfold s in Hge; simpl in Hge; lia|].
      unfold s. rewrite Nat2Z.inj_succ, Z.pow_succ_r by lia.
      assert (0 < 2 ^ Z.of_nat k) by (apply Z.pow_pos_nonneg; lia). nia. }
    set (st1 := set_size_ s st).
    assert (H1 : Hole (mem st1) s l (s - cur) [] fl).
    { apply hole_extend; auto; lia. }
    destruct (add_chunk_hole f st1 s l (s - cur) [] fl H1) as (m' & fl' & Hac & HR);
      auto; try lia.
    exists m', fl'. split.
    + eapply bind_step; [reflexivity|]. fold st1.
      rewrite wadd_small by (consts; lia).
      replace (driver_ + cur) with (first + total l) by lia. exact Hac.
    + simpl in HR. rewrite Z.add_0_r in HR. exact HR.
Qed.

(** ** The constructor *)

Lemma zero_words_out n a m x :
  0 <= a -> a + 8 * Z.of_nat n < 2 ^ 64 -> x < a \/ a + 8 * Z.of_nat n <= x ->
  read (driver.zero_words n a m) x = read m x.
Proof.
  revert a m. induction n as [|n IH]; intros a m Ha Hb Hx; simpl; [reflexivity|].
  rewrite wadd_small by (consts; lia).
  rewrite IH by lia. apply read_insert_ne. lia.
Qed.

Lemma zero_words_in n a m k :
  0 <= a -> a + 8 * Z.of_nat n < 2 ^ 64 -> 0 <= k < Z.of_nat n ->
  read (driver.zero_words n a m) (a + 8 * k) = 0.
Proof.
  revert a m k. induction n as [|n IH]; intros a m k Ha Hb Hk; simpl; [lia|].
  rewrite wadd_small by (consts; lia).
  destruct (Z.eq_dec k 0) as [->|Hne].
  - rewrite zero_words_out by lia. rewrite Z.add_0_r. apply read_insert_eq.
  - replace (a + 8 * k) with (a + 8 + 8 * (k - 1)) by lia. apply IH; lia.
Qed.

Lemma construct_rep f st0 size :
  min_size_ <= size <= max_size_ -> size mod 16 = 0 ->
  exists m' fl',
    driver.construct driver_ (S (S f)) size st0 = Ok tt (mkState 1 driver_ size m') /\
    Rep m' size [(size - sizeof_driver - sizeof_chunk, true)] fl'.
Proof.
  intros Hsz Hm. unfold driver.construct.
  set (m1 := driver.zero_words (Z.to_nat (n_free_list_ * sizeof_chunk / 8))
               (wadd driver_ off_free_list_) (mem st0)).
  set (st1 := mkState 1 driver_ size m1).
  assert (Hz : forall a, driver_ + 48 <= a < driver_ + 2096 -> a mod 8 = 0 -> read m1 a = 0).
  { intros a Ha Ham. unfold m1. rewrite wadd_small by (consts; lia). consts.
    change (Z.to_nat (64 * 32 / 8)) with 256%nat.
    replace a with (driver_ + 48 + 8 * ((a - driver_ - 48) / 8)) by lia.
    apply zero_words_in; lia. }
  assert (H1 : Hole (mem st1) size [] (size - 2096) [] (fun _ => [])).
  { constructor.
    - constructor.
    - constructor.
    - consts. lia.
    - simpl. hconsts. lia.
    - consts. lia.
    - intros x s' f' Hin. unfold heap.chunks_of in Hin. simpl in Hin. inversion Hin.
    - intros i Hi. simpl. hconsts. rewrite !Hz by lia. auto.
    - intros i x s' Hi Hin. inversion Hin.
    - intros x s' Hin. unfold heap.chunks_of in Hin. simpl in Hin. inversion Hin.
    - intros i Hi. constructor. }
  destruct (add_chunk_hole f st1 size [] (size - 2096) [] (fun _ => []) H1)
    as (m' & fl' & Hac & HR); auto; try (consts; lia).
  exists m', fl'. split.
  - eapply bind_step; [reflexivity|]. eapply bind_step; [reflexivity|].
    eapply bind_step; [reflexivity|]. eapply bind_step; [reflexivity|].
    cbn [set_sem_ set_size_ set_mem sem_ addr_ size_ mem]. fold m1. fold st1.
    rewrite wsub_small by (consts; lia). consts.
    destruct (Z.leb_spec 48 (size - 2096)) as [_|?]; [|lia].
    rewrite first_chunk_eq.
    eapply bind_step.
    { simpl in Hac. rewrite Z.add_0_r in Hac. exact Hac. }
    reflexivity.
  - simpl in HR. consts. rewrite !Z.add_0_r in HR. exact HR.
Qed.

(** ** The search loops of [allocate] *)

Lemma walk_spec L : forall fuel r p sp st,
  dlls (mem st) p sp L ->
  (forall x s, (x, s) ∈ L ->
     read (mem st) x = s /\ 0 < x /\ 0 <= s /\ x + s + 32 < 2 ^ 64) ->
  (length L < fuel)%nat ->
  match find_fit r L with
  | None => driver.walk driver_ fuel r (head_addr L) st = Ok None st
  | Some (x, _) => exists fx, (fuel - length L <= fx)%nat /\
      driver.walk driver_ fuel r (head_addr L) st =
      (run chunk.allocate driver_ fx x r; ret (Some (chunk.data x))) st
  end.
Proof.
  induction L as [|[x s] L IH]; intros fuel r p sp st Hd Hn Hf.
  - destruct fuel as [|fuel]; [simpl in Hf; lia|]. simpl. reflexivity.
  - destruct fuel as [|fuel]; [simpl in Hf; lia|].
    destruct (Hn x s) as (Hr & Hx & Hs & Hb); [apply elem_of_cons; auto|].
    apply dlls_cons in Hd as (_ & _ & Hd).
    cbn [find_fit head_addr].
    destruct (Z.leb_spec r s) as [Hle|Hgt].
    + exists (S fuel). split; [simpl; lia|].
      cbn [driver.walk]. rewrite nz_eqb by exact Hx.
      eapply bind_step; [apply header_size_eq; consts; lia|]. rewrite Hr.
      destruct (Z.leb_spec r s); [reflexivity|lia].
    + assert (Hnext : driver.walk driver_ (S fuel) r x st =
                       driver.walk driver_ fuel r (head_addr L) st).
      { cbn [driver.walk]. rewrite nz_eqb by exact Hx.
        eapply bind_step; [apply header_size_eq; consts; lia|]. rewrite Hr.
        destruct (Z.leb_spec r s); [lia|].
        eapply bind_step; [apply (footer_next_eq x s); auto; consts; lia|].
        f_equal. destruct L as [|[y t] L].
        - apply dlls_nil in Hd. exact Hd.
        - apply dlls_cons in Hd as (Hd & _). exact Hd. }
      rewrite Hnext.
      specialize (IH fuel r x s st Hd).
      destruct (find_fit r L) as [[y t]|].
      * destruct IH as (fx & Hfx & Hw).
        { intros y' t' Hy. apply Hn. apply elem_of_cons. auto. }
        { simpl in Hf. lia. }
        exists fx. split; [simpl; lia|exact Hw].
      * apply IH.
        -- intros y' t' Hy. apply Hn. apply elem_of_cons. auto.
        -- simpl in Hf. lia.
Qed.

Lemma scan_spec st sz l1 n l2 fl r (B : nat) :
  Hole (mem st) sz l1 n l2 fl ->
  (forall j, 0 <= j < 64 -> (length (fl j) <= B)%nat) ->
  forall (k : nat) (i : Z) (fuel : nat),
    i = 64 - Z.of_nat k -> 0 <= i ->
    (k + B + 1 <= fuel)%nat ->
    match find_fit r (classes_from k i fl) with
    | None => driver.scan driver_ fuel r i st = Ok None st
    | Some (x, _) => exists fx, (fuel - k - B <= fx)%nat /\
        driver.scan driver_ fuel r i st =
        (run chunk.allocate driver_ fx x r; ret (Some (chunk.data x))) st
    end.
Proof.
  intros H HB. induction k as [|k IH]; intros i fuel Hi Hi0 Hf.
  - destruct fuel as [|fuel]; [lia|]. simpl. subst i.
    destruct (Z.ltb_spec (64 - Z.of_nat 0) n_free_list_); [consts; lia|]. reflexivity.
  - destruct fuel as [|fuel]; [lia|].
    assert (Hi' : 0 <= i < 64) by lia.
    destruct (hole_lists _ _ _ _ _ _ _ H i Hi') as [Hz Hd].
    cbn [classes_from]. rewrite find_fit_app.
    assert (Hhead : chunk.free_list_ driver_ i = head i).
    { unfold chunk.free_list_. hconsts. wsimp. lia. }
    assert (Hstep : forall k' : option Z -> M (option Z),
      (do c <- chunk.footer_next (chunk.free_list_ driver_ i);
       do r' <- driver.walk driver_ (S fuel) r c; k' r') st =
      (do r' <- driver.walk driver_ (S fuel) r (head_addr (fl i)); k' r') st).
    { intros k'. rewrite Hhead.
      eapply bind_step; [apply (footer_next_eq _ 0); auto; hconsts; lia|].
      rewrite Z.add_0_r.
      replace (read (mem st) (head i + 24)) with (head_addr (fl i)); [reflexivity|].
      destruct (fl i) as [|[y t] L].
      - apply dlls_nil in Hd. rewrite Z.add_0_r in Hd. symmetry. exact Hd.
      - apply dlls_cons in Hd as (Hd & _). rewrite Z.add_0_r in Hd. symmetry. exact Hd. }
    pose proof (walk_spec (fl i) (S fuel) r (head i) 0 st Hd) as Hw.
    assert (Hnodes : forall x s, (x, s) ∈ fl i ->
              read (mem st) x = s /\ 0 < x /\ 0 <= s /\ x + s + 32 < 2 ^ 64).
    { intros x s Hx.
      destruct (node_facts H _ (node_member H i x s Hi' Hx)) as (? & ? & ? & ? & ? & ?).
      simpl in *. repeat split; auto; lia. }
    specialize (Hw Hnodes).
    assert (Hlen : (length (fl i) < S fuel)%nat) by (specialize (HB i Hi'); lia).
    specialize (Hw Hlen).
    assert (Hscan : driver.scan driver_ (S fuel) r i st =
      (do r' <- driver.walk driver_ (S fuel) r (head_addr (fl i));
       match r' with
       | Some p => ret (Some p)
       | None => driver.scan driver_ fuel r (wadd i 1)
       end) st).
    { cbn [driver.scan].
      destruct (Z.ltb_spec i n_free_list_) as [_|?]; [|consts; lia].
      apply Hstep. }
    rewrite Hscan. clear Hscan Hstep.
    destruct (find_fit r (fl i)) as [[x s]|].
    + destruct Hw as (fx & Hfx & Hw).
      exists fx. split; [specialize (HB i Hi'); lia|].
      unfold bind at 1. rewrite Hw.
      apply (run_ret_match (chunk.allocate driver_ fx x r) (chunk.data x)
               (driver.scan driver_ fuel r (wadd i 1)) st).
    + assert (Hgo :
        (do r' <- driver.walk driver_ (S fuel) r (head_addr (fl i));
         match r' with
         | Some p => ret (Some p)
         | None => driver.scan driver_ fuel r (wadd i 1)
         end) st = driver.scan driver_ fuel r (i + 1) st).
      { unfold bind. rewrite Hw. rewrite wadd_small by (consts; lia). reflexivity. }
      rewrite Hgo. clear Hgo.
      specialize (IH (i + 1) fuel).
      destruct (find_fit r (classes_from k (i + 1) fl)) as [[x s]|].
      * destruct IH as (fx & Hfx & Hs); [lia|lia|lia|].
        exists fx. split; [lia|exact Hs].
      * apply IH; lia.
Qed.

(** ** [driver::allocate] and [driver::deallocate] *)

Lemma total_length l : sizes_ok l -> 48 * Z.of_nat (length l) <= total l.
Proof.
  induction l as [|[s f] l IH]; intros Hs; simpl; [lia|].
  apply sizes_ok_cons in Hs as [[? ?] Hs]. specialize (IH Hs). consts. lia.
Qed.

Lemma layout_length a l : length (layout a l) = length l.
Proof. revert a. induction l as [|[s f] l IH]; intros a; simpl; [reflexivity|]. rewrite IH. reflexivity. Qed.

Lemma list_length_bound m sz l fl j :
  Hole m sz l 0 [] fl -> 0 <= j < 64 -> (length (fl j) <= length l)%nat.
Proof.
  intros H Hj.
  pose proof (hole_nodup _ _ _ _ _ _ _ H j Hj) as Hnd.
  assert (Hsub : (fun u : Z * Z => (fst u, snd u, true)) <$> fl j ⊆+ layout first l).
  { apply NoDup_submseteq.
    - apply NoDup_fmap_2_strong; [|exact Hnd].
      intros [x s] [y t] _ _ Heq. simpl in Heq. congruence.
    - intros e He. apply list_elem_of_fmap in He as ([x s] & -> & Hin). simpl.
      destruct (hole_in _ _ _ _ _ _ _ H j x s Hj Hin) as [Hc _].
      unfold heap.chunks_of in Hc. simpl in Hc. rewrite app_nil_r in Hc. exact Hc. }
  apply submseteq_length in Hsub. rewrite length_fmap, layout_length in Hsub. exact Hsub.
Qed.

Lemma rep_fuel_bound m sz l fl :
  Rep m sz l fl -> (length l + 66 <= Z.to_nat sz)%nat /\ 2096 <= sz.
Proof.
  intros [H _]. pose proof (hole_size_bound H) as Hb.
  pose proof (total_length l (hole_sizes1 _ _ _ _ _ _ _ H)). simpl in Hb. hconsts. lia.
Qed.

Lemma rep_chunk_position m sz l fl x s f :
  Rep m sz l fl -> (x, s, f) ∈ layout first l ->
  exists l1 l2, l = l1 ++ (s, f) :: l2 /\ x = first + total l1.
Proof. intros _ Hin. apply layout_head_free. exact Hin. Qed.

Lemma relock_mem st m' :
  set_sem_ (sem_ st) (set_mem m' (set_sem_ (sem_ st - 1) st)) = set_mem m' st.
Proof. destruct st. reflexivity. Qed.

Lemma relock_id st : set_sem_ (sem_ st) (set_sem_ (sem_ st - 1) st) = st.
Proof. destruct st. reflexivity. Qed.

Lemma relock_mem_size st m' s' :
  set_sem_ (sem_ st) (set_mem m' (set_size_ s' (set_sem_ (sem_ st - 1) st))) =
  set_mem m' (set_size_ s' st).
Proof. destruct st. reflexivity. Qed.

Lemma allocate_unfold fuel n st :
  0 < n -> n + 15 < 2 ^ 64 ->
  driver.allocate driver_ ftruncate_ok fuel n st =
  with_lock (
    do r' <- driver.scan driver_ fuel (aligned_size n) (Z.log2 (aligned_size n));
    match r' with
    | Some p => ret p
    | None =>
        do c <- driver.extend driver_ ftruncate_ok fuel (wadd (aligned_size n) sizeof_chunk);
        run chunk.allocate driver_ fuel c (aligned_size n);
        ret (chunk.data c)
    end) st.
Proof.
  intros Hn Hb. unfold driver.allocate.
  destruct (Z.eqb_spec n 0) as [?|_]; [lia|].
  rewrite round_up_eq by lia. cbv zeta.
  pose proof (aligned_size_facts n Hn) as (Hr1 & Hr2 & Hr3).
  set (r := aligned_size n) in *.
  assert (Hbody : forall (K : option Z -> M Z) st',
    (do i <- chunk.list_index r; do r' <- driver.scan driver_ fuel r i; K r') st' =
    (do r' <- driver.scan driver_ fuel r (Z.log2 r); K r') st').
  { intros K st'. eapply bind_step; [apply list_index_log2; consts; lia|]. reflexivity. }
  unfold with_lock. destruct (sem_wait st) as [u st'| | |]; auto.
  rewrite Hbody. reflexivity.
Qed.

Lemma scan_result st l fl n fuel :
  Rep (mem st) (size_ st) l fl -> 0 < n -> (length l + 66 <= fuel)%nat ->
  n + 15 < 2 ^ 64 ->
  match find_fit (aligned_size n) (candidates fl (Z.log2 (aligned_size n))) with
  | None => driver.scan driver_ fuel (aligned_size n) (Z.log2 (aligned_size n)) st = Ok None st
  | Some (x, s) => exists l1 l2 m' fl',
      l = l1 ++ (s, true) :: l2 /\ x = first + total l1 /\ aligned_size n <= s /\
      driver.scan driver_ fuel (aligned_size n) (Z.log2 (aligned_size n)) st =
        Ok (Some (x + 16)) (set_mem m' st) /\
      Rep m' (size_ st) (l1 ++ alloc_split s (aligned_size n) ++ l2) fl'
  end.
Proof.
  intros HR Hn Hfuel Hb.
  pose proof (aligned_size_facts n Hn) as (Hr1 & Hr2 & Hr3).
  set (r := aligned_size n) in *.
  assert (Hlog : 0 <= Z.log2 r < 64) by (apply log2_range; consts; lia).
  destruct HR as [H Hnaf].
  pose proof (scan_spec st (size_ st) l 0 [] fl r (length l) H
                (fun j Hj => list_length_bound _ _ _ _ j H Hj)
                (Z.to_nat (64 - Z.log2 r)) (Z.log2 r) fuel) as Hsc.
  unfold candidates. consts.
  destruct (find_fit r (classes_from (Z.to_nat (64 - Z.log2 r)) (Z.log2 r) fl))
    as [[x s]|] eqn:Eff.
  - destruct Hsc as (fx & Hfx & Hsc); [lia|lia|lia|].
    destruct (find_fit_some _ _ _ _ Eff) as [Hin Hle].
    apply classes_from_in in Hin as (j & Hj & Hin).
    assert (Hj' : 0 <= j < 64) by lia.
    destruct (hole_in _ _ _ _ _ _ _ H j x s Hj' Hin) as [Hc _].
    unfold heap.chunks_of in Hc. simpl in Hc. rewrite app_nil_r in Hc.
    destruct (layout_head_free _ _ _ _ _ Hc) as (l1 & l2 & Hl & Hx).
    destruct fx as [|fx]; [lia|].
    destruct (chunk_allocate_rep fx st (size_ st) l1 s l2 fl r) as (m' & fl' & Ha & HR');
      auto; try lia.
    { rewrite <- Hl. split; assumption. }
    exists l1, l2, m', fl'.
    split; [exact Hl|]. split; [exact Hx|]. split; [exact Hle|]. split; [|exact HR'].
    rewrite Hsc. eapply bind_step; [rewrite Hx; exact Ha|].
    unfold ret, chunk.data, chunk.header. subst x.
    pose proof (hole_size_bound H) as Hbd. simpl in Hbd.
    assert (Hbnd := layout_bounds _ _ _ _ _ (hole_sizes1 _ _ _ _ _ _ _ H) Hc).
    rewrite wadd_small by (hconsts; lia). reflexivity.
  - apply Hsc; lia.
Qed.

(** A fit is found on the free lists. *)
Lemma allocate_fit st l fl n fuel x s :
  Rep (mem st) (size_ st) l fl -> 0 < sem_ st -> 0 < n ->
  (length l + 66 <= fuel)%nat -> n + 15 < 2 ^ 64 ->
  find_fit (aligned_size n) (candidates fl (Z.log2 (aligned_size n))) = Some (x, s) ->
  exists l1 l2 m' fl',
    l = l1 ++ (s, true) :: l2 /\ x = first + total l1 /\ aligned_size n <= s /\
    driver.allocate driver_ ftruncate_ok fuel n st = Ok (x + 16) (set_mem m' st) /\
    Rep m' (size_ st) (l1 ++ alloc_split s (aligned_size n) ++ l2) fl'.
Proof.
  intros HR Hsem Hn Hfuel Hb Hff.
  set (st1 := set_sem_ (sem_ st - 1) st).
  pose proof (scan_result st1 l fl n fuel HR Hn Hfuel Hb) as Hsc. rewrite Hff in Hsc.
  destruct Hsc as (l1 & l2 & m' & fl' & Hl & Hx & Hle & Hsc & HR').
  exists l1, l2, m', fl'.
  split; [exact Hl|]. split; [exact Hx|]. split; [exact Hle|]. split; [|exact HR'].
  rewrite allocate_unfold by lia.
  rewrite (with_lock_ok _ st (x + 16) (set_mem m' st1)).
  - unfold st1. rewrite relock_mem. reflexivity.
  - exact Hsem.
  - eapply bind_step; [exact Hsc|]. reflexivity.
  - reflexivity.
Qed.

(** No free chunk fits: the segment is extended. *)
Lemma allocate_extend st l fl n fuel :
  Rep (mem st) (size_ st) l fl -> 0 < sem_ st -> 0 < n ->
  (length l + 66 <= fuel)%nat -> n + 47 < 2 ^ 64 ->
  find_fit (aligned_size n) (candidates fl (Z.log2 (aligned_size n))) = None ->
  exists k : nat,
    (~ (size_ st * 2 ^ Z.of_nat k < max_size_ /\
        size_ st * 2 ^ Z.of_nat k - size_ st < aligned_size n + 32)) /\
    (forall i : nat, (i < k)%nat ->
       size_ st * 2 ^ Z.of_nat i < max_size_ /\
       size_ st * 2 ^ Z.of_nat i - size_ st < aligned_size n + 32) /\
    (size_ st * 2 ^ Z.of_nat k - size_ st < aligned_size n + 32 ->
       driver.allocate driver_ ftruncate_ok fuel n st = Throw bad_alloc st) /\
    (aligned_size n + 32 <= size_ st * 2 ^ Z.of_nat k - size_ st ->
       ftruncate_ok (size_ st * 2 ^ Z.of_nat k) = false ->
       driver.allocate driver_ ftruncate_ok fuel n st =
         Throw (system_error "ftruncate") st) /\
    (aligned_size n + 32 <= size_ st * 2 ^ Z.of_nat k - size_ st ->
       ftruncate_ok (size_ st * 2 ^ Z.of_nat k) = true ->
       exists m' fl',
         driver.allocate driver_ ftruncate_ok fuel n st =
           Ok (first + total (fst (pop_free_tail l)) + 16)
              (set_mem m' (set_size_ (size_ st * 2 ^ Z.of_nat k) st)) /\
         Rep m' (size_ st * 2 ^ Z.of_nat k)
           (fst (pop_free_tail l) ++
            alloc_split (size_ st * 2 ^ Z.of_nat k - size_ st - 32 +
                         snd (pop_free_tail l)) (aligned_size n)) fl').
Proof.
  intros HR Hsem Hn Hfuel Hb Hff.
  set (st1 := set_sem_ (sem_ st - 1) st).
  pose proof (scan_result st1 l fl n fuel HR Hn Hfuel ltac:(lia)) as Hsc.
  rewrite Hff in Hsc.
  pose proof (aligned_size_facts n Hn) as (Hr1 & Hr2 & Hr3).
  rewrite allocate_unfold by lia.
  set (r := aligned_size n) in *.
  destruct fuel as [|[|f]]; [lia|lia|].
  destruct (extend_rep f st1 l fl (r + 32)) as (k & Hstop & Hall & Hoom & Hft & Hok);
    [exact HR|lia|lia|].
  cbn [size_ st1 set_sem_] in Hstop, Hall, Hoom, Hft, Hok.
  exists k. split; [exact Hstop|]. split; [exact Hall|].
  assert (Hw : wadd r sizeof_chunk = r + 32) by (wsimp; reflexivity).
  rewrite Hw.
  split; [|split].
  - intros Hlt. rewrite (with_lock_throw _ st bad_alloc st1).
    + unfold st1. rewrite relock_id. reflexivity.
    + exact Hsem.
    + eapply bind_step; [exact Hsc|]. cbv iota.
      apply bind_throw. exact (Hoom Hlt).
    + reflexivity.
  - intros Hge Hf. rewrite (with_lock_throw _ st (system_error "ftruncate") st1).
    + unfold st1. rewrite relock_id. reflexivity.
    + exact Hsem.
    + eapply bind_step; [exact Hsc|]. cbv iota.
      apply bind_throw. exact (Hft Hge Hf).
    + reflexivity.
  - intros Hge Hf. destruct (Hok Hge Hf) as (m1 & fl1 & He & HR1).
    set (s' := size_ st * 2 ^ Z.of_nat k) in *.
    set (st2 := set_mem m1 (set_size_ s' st1)) in *.
    pose proof (proj1 HR) as H0. pose proof (hole_size_bound H0) as Hbd. simpl in Hbd.
    assert (Hbsz : 0 <= snd (pop_free_tail l)).
    { destruct (pop_free_tail_cases l) as [[_ ->]|(l' & sb & -> & _ & ->)]; simpl; [lia|].
      pose proof (hole_sizes1 _ _ _ _ _ _ _ H0) as Hx.
      apply sizes_ok_app in Hx as [_ Hx]. apply sizes_ok_cons in Hx as [[? ?] _]. lia. }
    destruct (chunk_allocate_rep (S f) st2 s' (fst (pop_free_tail l))
                (s' - size_ st - 32 + snd (pop_free_tail l)) [] fl1 r)
      as (m' & fl' & Ha & HR'); auto; try lia.
    exists m', fl'. split.
    + rewrite (with_lock_ok _ st (first + total (fst (pop_free_tail l)) + 16)
                 (set_mem m' st2)).
      * unfold st2, st1. cbn [set_mem set_size_ set_sem_ sem_ addr_ size_ mem].
        reflexivity.
      * exact Hsem.
      * eapply bind_step; [exact Hsc|]. cbv iota.
        eapply bind_step; [exact He|].
        eapply bind_step; [exact Ha|].
        unfold ret, chunk.data, chunk.header.
        pose proof (proj1 HR1) as H1. pose proof (hole_size_bound H1) as Hbd1.
        rewrite total_app in Hbd1. simpl in Hbd1.
        pose proof (total_nonneg _ (proj1 (proj1 (sizes_ok_app _ _)
                     (hole_sizes1 _ _ _ _ _ _ _ H1)))) as Htn.
        rewrite wadd_small by (hconsts; lia). reflexivity.
      * reflexivity.
    + rewrite app_nil_r in HR'. exact HR'.
Qed.

End proofs.

(** * Whole requests *)

Lemma find_fit_none_intro r L :
  (forall x s, (x, s) ∈ L -> s < r) -> find_fit r L = None.
Proof.
  induction L as [|[x s] L IH]; intros H; simpl; [reflexivity|].
  destruct (Z.leb_spec r s) as [Hle|_].
  - specialize (H x s (list_elem_of_here _ _)). lia.
  - apply IH. intros y t Hy. apply (H y t). apply elem_of_cons. right. exact Hy.
Qed.

Lemma set_size_id st : set_size_ (size_ st) st = st.
Proof. destruct st. reflexivity. Qed.

(** ** Payloads of the allocated chunks *)

Lemma payloads_app a l1 l2 :
  payloads a (l1 ++ l2) = payloads a l1 ++ payloads (a + total l1) l2.
Proof.
  revert a. induction l1 as [|[s f] l1 IH]; intros a; simpl.
  - rewrite Z.add_0_r. reflexivity.
  - rewrite IH, <- app_assoc. do 3 f_equal. lia.
Qed.

Lemma payloads_in a l p :
  p ∈ payloads a l <-> exists s, (p - 16, s, false) ∈ layout a l.
Proof.
  revert a. induction l as [|[s f] l IH]; intros a; simpl.
  - split; [intros H; inversion H|intros [s H]; inversion H].
  - rewrite elem_of_app, IH. split.
    + intros [H|[s' H]].
      * destruct f; [inversion H|]. apply list_elem_of_singleton in H. subst p.
        exists s. apply elem_of_cons. left. f_equal. f_equal. consts. lia.
      * exists s'. apply elem_of_cons. right. exact H.
    + intros [s' H]. apply elem_of_cons in H as [H|H].
      * left. inversion H; subst. apply list_elem_of_singleton. consts. lia.
      * right. exists s'. exact H.
Qed.

Lemma payloads_bounds a l p :
  sizes_ok l -> p ∈ payloads a l -> a + 16 <= p /\ p + 32 <= a + total l.
Proof.
  intros Hs Hp. apply payloads_in in Hp as [s Hin].
  pose proof (layout_bounds _ _ _ _ _ Hs Hin). lia.
Qed.

Lemma payloads_alloc_split a s r :
  payloads a (alloc_split s r) = [a + 16] /\ total (alloc_split s r) = s + 32.
Proof.
  unfold alloc_split. destruct (min_chunk_size_ <=? s - r); simpl; consts; split;
    try reflexivity; lia.
Qed.

Lemma payloads_pop_tail a l :
  payloads a (fst (pop_free_tail l)) = payloads a l /\
  total l = total (fst (pop_free_tail l)) + snd (pop_free_tail l).
Proof.
  destruct (pop_free_tail_cases l) as [[_ ->]|(l' & sb & -> & _ & ->)]; simpl.
  - split; [reflexivity|lia].
  - rewrite payloads_app, total_app. simpl. rewrite app_nil_r. consts.
    split; [reflexivity|lia].
Qed.

Lemma payloads_pop_head a l :
  payloads a l = payloads (a + snd (pop_free_head l)) (fst (pop_free_head l)) /\
  total l = total (fst (pop_free_head l)) + snd (pop_free_head l).
Proof.
  destruct (pop_free_head_cases l) as [[_ ->]|(l' & sa & -> & _ & ->)]; simpl.
  - rewrite Z.add_0_r. split; [reflexivity|lia].
  - consts. split; [f_equal|]; lia.
Qed.


Lemma live_ok_alloc a live l1 s r l2 :
  sizes_ok (l1 ++ (s, true) :: l2) ->
  live_ok a live (l1 ++ (s, true) :: l2) ->
  live_ok a ((a + total l1 + 16) :: live) (l1 ++ alloc_split s r ++ l2).
Proof.
  intros Hs [Hnd Hiff].
  destruct (payloads_alloc_split (a + total l1) s r) as [Ep Et].
  assert (Hnew : forall p, p ∈ payloads a (l1 ++ alloc_split s r ++ l2) <->
                 p = a + total l1 + 16 \/ p ∈ payloads a (l1 ++ (s, true) :: l2)).
  { intros p. rewrite !payloads_app, Ep, Et. simpl.
    rewrite !elem_of_app, elem_of_cons. consts.
    replace (a + total l1 + (s + 32)) with (a + total l1 + s + 32) by lia. tauto. }
  split.
  - constructor; [|exact Hnd]. intros Hin. apply Hiff in Hin.
    apply payloads_in in Hin as [s' Hin].
    replace (a + total l1 + 16 - 16) with (a + total l1) in Hin by lia.
    pose proof (layout_disjoint _ _ _ _ _ _ _ _ Hs Hin (layout_mid a l1 s true l2)) as Hd.
    pose proof (layout_bounds _ _ _ _ _ Hs Hin) as Hb.
    pose proof (layout_bounds _ _ _ _ _ Hs (layout_mid a l1 s true l2)) as Hb'.
    destruct Hd as [Hd|Hd]; [congruence|lia].
  - intros p. rewrite Hnew, elem_of_cons, Hiff. tauto.
Qed.

Lemma live_ok_extend a live l s r :
  sizes_ok l ->
  live_ok a live l ->
  live_ok a ((a + total (fst (pop_free_tail l)) + 16) :: live)
    (fst (pop_free_tail l) ++ alloc_split s r).
Proof.
  intros Hs [Hnd Hiff].
  destruct (payloads_alloc_split (a + total (fst (pop_free_tail l))) s r) as [Ep Et].
  destruct (payloads_pop_tail a l) as [Epop Etot].
  assert (Hs' : sizes_ok (fst (pop_free_tail l))).
  { destruct (pop_free_tail_cases l) as [[_ ->]|(l' & sb & -> & _ & ->)]; simpl; [exact Hs|].
    apply sizes_ok_app in Hs as [Hs _]. exact Hs. }
  split.
  - constructor; [|exact Hnd]. intros Hin. apply Hiff in Hin.
    rewrite <- Epop in Hin. apply (payloads_bounds _ _ _ Hs') in Hin. lia.
  - intros p. rewrite payloads_app, Ep, elem_of_app, elem_of_cons, Hiff, <- Epop,
      list_elem_of_singleton. tauto.
Qed.

Lemma live_ok_grow a live l s :
  live_ok a live l -> live_ok a live (fst (pop_free_tail l) ++ [(s, true)]).
Proof.
  intros [Hnd Hiff]. split; [exact Hnd|].
  intros p. rewrite payloads_app. simpl. rewrite app_nil_r.
  rewrite (proj1 (payloads_pop_tail a l)). apply Hiff.
Qed.

Lemma live_ok_free a live l1 s l2 :
  sizes_ok (l1 ++ (s, false) :: l2) ->
  live_ok a live (l1 ++ (s, false) :: l2) ->
  live_ok a (arena.drop (a + total l1 + 16) live)
    (fst (pop_free_tail l1) ++
     (s + snd (pop_free_tail l1) + snd (pop_free_head l2), true) ::
     fst (pop_free_head l2)).
Proof.
  intros Hs [Hnd Hiff].
  destruct (payloads_pop_tail a l1) as [E1 T1].
  destruct (payloads_pop_head (a + total l1 + s + 32) l2) as [E2 T2].
  pose proof Hs as Hs0.
  apply sizes_ok_app in Hs as [Hs1 Hs2]. apply sizes_ok_cons in Hs2 as [[Hs16 _] Hs2].
  split.
  - unfold arena.drop. apply NoDup_filter. exact Hnd.
  - intros p. unfold arena.drop. rewrite list_elem_of_filter, Hiff.
    rewrite !payloads_app. simpl. rewrite !elem_of_app, elem_of_cons.
    rewrite E1. consts.
    replace (a + total (fst (pop_free_tail l1)) +
             (s + snd (pop_free_tail l1) + snd (pop_free_head l2)) + 32)
      with (a + total l1 + s + 32 + snd (pop_free_head l2)) by lia.
    rewrite <- E2. split.
    + intros [Hne [H|[H|H]]]; [left; exact H|lia|right; exact H].
    + intros [H|H].
      * split; [|left; exact H]. apply (payloads_bounds _ _ _ Hs1) in H. lia.
      * split; [|right; right; exact H]. apply (payloads_bounds _ _ _ Hs2) in H.
        revert Hs16. consts. lia.
Qed.

Lemma alloc_split_head s r :
  exists tl, alloc_split s r =
             ((if min_chunk_size_ <=? s - r then r else s), false) :: tl.
Proof. unfold alloc_split. destruct (min_chunk_size_ <=? s - r); eauto. Qed.

Lemma layout_alloc_split a l1 s r l2 :
  (a + total l1, (if min_chunk_size_ <=? s - r then r else s), false)
    ∈ layout a (l1 ++ alloc_split s r ++ l2).
Proof.
  destruct (alloc_split_head s r) as [tl ->]. simpl. apply layout_mid.
Qed.

Lemma no_adj_free_pair l1 c1 c2 l2 :
  no_adj_free (l1 ++ c1 :: c2 :: l2) = true -> snd c1 && snd c2 = false.
Proof.
  destruct c1 as [s1 f1], c2 as [s2 f2]. rewrite no_adj_free_app. simpl.
  destruct f1, f2; simpl; try reflexivity.
  rewrite !andb_false_r. simpl. discriminate.
Qed.

Lemma data_eq c : 0 <= c -> c + 16 < 2 ^ 64 -> chunk.data c = c + 16.
Proof. intros. unfold chunk.data, chunk.header. wsimp. reflexivity. Qed.

Lemma size_eq m c : 0 <= c < 2 ^ 64 -> chunk.size m c = read m c.
Proof. intros. unfold chunk.size, chunk.header. wsimp. rewrite Z.add_0_r. reflexivity. Qed.

Section requests.

Variable driver_ : Z.
Hypothesis driver_aligned : driver_ mod 16 = 0.
Hypothesis driver_range : 0 < driver_ < 2 ^ 63.
Variable ftruncate_ok : Z -> bool.

Local Abbreviation first := (heap.first driver_).
Local Abbreviation Rep := (heap.Rep driver_).

Lemma rep_chunk_bounds m sz l fl (x s : Z) (f : bool) :
  Rep m sz l fl -> (x, s, f) ∈ layout first l ->
  first <= x /\ x + s + 32 <= driver_ + sz /\ 16 <= s /\ s mod 16 = 0 /\
  x mod 16 = 0 /\ sz <= 2 ^ 33 /\
  read m x = s /\ read m (x + s + 16) = (if f then s else 0).
Proof.
  intros [H _] Hin.
  assert (Hc : (x, s, f) ∈ heap.chunks_of driver_ l 0 []).
  { unfold heap.chunks_of. simpl. rewrite app_nil_r. exact Hin. }
  destruct (hole_chunk driver_ driver_aligned ftruncate_ok H x s f Hc)
    as (H1 & H2 & H3 & H4 & H5 & _).
  destruct (hole_tags _ _ _ _ _ _ _ H x s f Hc) as [H6 H7].
  pose proof (hole_bound _ _ _ _ _ _ _ H) as Hb.
  repeat split; assumption.
Qed.

Lemma huge_no_fit m sz l fl r i :
  Rep m sz l fl -> 2 ^ 34 <= r -> 0 <= i < 64 ->
  find_fit r (candidates fl i) = None.
Proof.
  intros HR Hr Hi. apply find_fit_none_intro. intros x s Hin.
  unfold candidates in Hin. apply classes_from_in in Hin as (j & Hj & Hin).
  assert (Hj' : 0 <= j < 64) by (revert Hj; consts; lia).
  destruct (hole_in _ _ _ _ _ _ _ (proj1 HR) j x s Hj' Hin) as [Hc _].
  unfold heap.chunks_of in Hc. simpl in Hc. rewrite app_nil_r in Hc.
  destruct (rep_chunk_bounds _ _ _ _ _ _ _ HR Hc) as (H1 & H2 & H3 & _ & _ & H6 & _).
  revert H1. hconsts. lia.
Qed.


(** *** [deallocate] *)

Lemma deallocate_spec st l1 s l2 fl fuel n :
  Rep (mem st) (size_ st) (l1 ++ (s, false) :: l2) fl -> 0 < sem_ st ->
  (1 <= fuel)%nat ->
  exists m' fl',
    driver.deallocate driver_ fuel (first + total l1 + 16) n st = Ok tt (set_mem m' st) /\
    Rep m' (size_ st)
      (fst (pop_free_tail l1) ++
       (s + snd (pop_free_tail l1) + snd (pop_free_head l2), true) ::
       fst (pop_free_head l2)) fl'.
Proof.
  intros HR Hsem Hfuel.
  destruct (rep_chunk_bounds _ _ _ _ _ _ _ HR (layout_mid first l1 s false l2))
    as (H1 & H2 & H3 & H4 & H5 & H6 & _).
  set (st1 := set_sem_ (sem_ st - 1) st).
  destruct fuel as [|f]; [lia|].
  destruct (chunk_deallocate_rep driver_ driver_aligned driver_range ftruncate_ok
              f st1 (size_ st) l1 s l2 fl HR eq_refl) as (m' & fl' & Hd & HR').
  exists m', fl'. split; [|exact HR'].
  unfold driver.deallocate.
  destruct (Z.eqb_spec (first + total l1 + 16) NULL) as [E|_].
  { revert E H1. hconsts. lia. }
  rewrite (with_lock_ok _ st tt (set_mem m' st1)).
  - unfold st1. rewrite relock_mem. reflexivity.
  - exact Hsem.
  - eapply bind_step.
    + apply get_chunk_eq; [lia|]. revert H1 H2 H6. hconsts. lia.
    + replace (first + total l1 + 16 - 16) with (first + total l1) by lia. exact Hd.
  - reflexivity.
Qed.

(** A footer that is not in allocated form: nothing is written. *)
Lemma deallocate_corrupt st fuel p n :
  0 < sem_ st -> p mod 16 = 0 -> 16 <= p < 2 ^ 64 ->
  0 <= read (mem st) (p - 16) -> p + read (mem st) (p - 16) + 16 < 2 ^ 64 ->
  read (mem st) (p + read (mem st) (p - 16)) <> 0 ->
  driver.deallocate driver_ fuel p n st =
    Throw (logic_error "deallocate: unexpected footer size") st.
Proof.
  intros Hsem Hm Hp Hs Hb Hf.
  unfold driver.deallocate.
  destruct (Z.eqb_spec p NULL) as [E|_]; [unfold NULL in E; lia|].
  set (st1 := set_sem_ (sem_ st - 1) st).
  rewrite (with_lock_throw _ st (logic_error "deallocate: unexpected footer size") st1).
  - unfold st1. rewrite relock_id. reflexivity.
  - exact Hsem.
  - eapply bind_step; [apply get_chunk_eq; [exact Hm|consts; lia]|].
    unfold chunk.deallocate.
    eapply bind_step.
    + apply (footer_size_eq (p - 16) (read (mem st) (p - 16))); try reflexivity; try lia.
      consts. lia.
    + unfold st1. cbn [mem set_sem_].
      replace (p - 16 + read (mem st) (p - 16) + 16) with (p + read (mem st) (p - 16)) by lia.
      destruct (Z.eqb_spec (read (mem st) (p + read (mem st) (p - 16))) 0) as [E|_].
      * exfalso. apply Hf. exact E.
      * reflexivity.
  - reflexivity.
Qed.

(** *** Requests whose size computation wraps *)

Lemma allocate_wrap_zero st fuel n :
  0 < sem_ st -> 2 ^ 64 - 16 < n < 2 ^ 64 ->
  driver.allocate driver_ ftruncate_ok fuel n st =
    Throw (logic_error "list_index: zero size") st.
Proof.
  intros Hsem Hn. unfold driver.allocate.
  destruct (Z.eqb_spec n 0) as [?|_]; [lia|].
  rewrite round_up_wraps by exact Hn. cbv zeta.
  rewrite (with_lock_throw _ st (logic_error "list_index: zero size")
             (set_sem_ (sem_ st - 1) st)).
  - rewrite relock_id. reflexivity.
  - exact Hsem.
  - apply bind_throw. reflexivity.
  - reflexivity.
Qed.

Lemma chunk_allocate_small st sz l1 s l2 fl r fuel :
  Rep (mem st) sz (l1 ++ (s, true) :: l2) fl -> s < r -> r mod 16 = 0 ->
  chunk.allocate driver_ fuel (first + total l1) r st =
    Throw (logic_error "allocate: size too small") st.
Proof.
  intros HR Hs Hr.
  destruct (rep_chunk_bounds _ _ _ _ _ _ _ HR (layout_mid first l1 s true l2))
    as (H1 & H2 & H3 & H4 & H5 & H6 & H7 & _).
  unfold chunk.allocate. rewrite land_align, Hr. simpl.
  eapply bind_step.
  - apply header_size_eq. revert H1 H2 H6. hconsts. lia.
  - rewrite H7. destruct (Z.ltb_spec s r) as [_|?]; [reflexivity|lia].
Qed.

Lemma aligned_size_top n :
  2 ^ 64 - 32 < n <= 2 ^ 64 - 16 -> aligned_size n = 2 ^ 64 - 16.
Proof. intros Hn. unfold aligned_size. consts. lia. Qed.

Lemma aligned_size_top32 n :
  2 ^ 64 - 48 < n <= 2 ^ 64 - 32 -> aligned_size n = 2 ^ 64 - 32.
Proof. intros Hn. unfold aligned_size. consts. lia. Qed.


Lemma extend_zero st f :
  0 <= size_ st < 2 ^ 64 ->
  driver.extend driver_ ftruncate_ok (S f) 0 st =
    Throw (if ftruncate_ok (size_ st)
           then logic_error "add_chunk: size too small"
           else system_error "ftruncate") st.
Proof.
  intros Hs. unfold driver.extend. eapply bind_step; [reflexivity|].
  assert (E : wsub (size_ st) (size_ st) = 0).
  { unfold wsub. rewrite Z.sub_diag. reflexivity. }
  cbn [driver.grow]. rewrite E.
  change (0 <? 0) with false. rewrite andb_false_r. cbv iota zeta. rewrite ?E.
  change (0 <? 0) with false. cbv iota.
  destruct (ftruncate_ok (size_ st)); cbn [negb]; cbv iota; [|reflexivity].
  eapply bind_step; [reflexivity|]. rewrite set_size_id.
  destruct f; reflexivity.
Qed.

Lemma allocate_wrap32 st l fl n fuel :
  Rep (mem st) (size_ st) l fl -> 0 < sem_ st -> (length l + 66 <= fuel)%nat ->
  2 ^ 64 - 48 < n <= 2 ^ 64 - 32 ->
  driver.allocate driver_ ftruncate_ok fuel n st =
    Throw (if ftruncate_ok (size_ st)
           then logic_error "add_chunk: size too small"
           else system_error "ftruncate") st.
Proof.
  intros HR Hsem Hfuel Hn.
  set (st1 := set_sem_ (sem_ st - 1) st).
  pose proof (scan_result driver_ driver_aligned driver_range ftruncate_ok
                st1 l fl n fuel HR ltac:(lia) Hfuel ltac:(lia)) as Hsc.
  rewrite allocate_unfold by lia.
  rewrite aligned_size_top32 in * by exact Hn.
  rewrite (huge_no_fit _ _ _ _ _ _ HR) in Hsc; [|lia|].
  2:{ apply log2_range. consts. lia. }
  pose proof (rep_fuel_bound driver_ ftruncate_ok _ _ _ _ HR) as [_ Hsz].
  pose proof (hole_bound _ _ _ _ _ _ _ (proj1 HR)) as Hbd.
  destruct fuel as [|f]; [lia|].
  rewrite (with_lock_throw _ st
             (if ftruncate_ok (size_ st)
              then logic_error "add_chunk: size too small"
              else system_error "ftruncate") st1).
  - unfold st1. rewrite relock_id. reflexivity.
  - exact Hsem.
  - eapply bind_step; [exact Hsc|]. cbv iota.
    apply bind_throw.
    replace (wadd (2 ^ 64 - 32) sizeof_chunk) with 0 by reflexivity.
    apply (extend_zero st1). unfold st1. cbn [size_ set_sem_]. revert Hbd. consts. lia.
  - reflexivity.
Qed.

Lemma allocate_wrap16 st l fl n fuel :
  Rep (mem st) (size_ st) l fl -> 0 < sem_ st -> (length l + 66 <= fuel)%nat ->
  2 ^ 64 - 32 < n <= 2 ^ 64 - 16 ->
  (max_size_ <= size_ st ->
     driver.allocate driver_ ftruncate_ok fuel n st = Throw bad_alloc st) /\
  (size_ st < max_size_ -> ftruncate_ok (2 * size_ st) = false ->
     driver.allocate driver_ ftruncate_ok fuel n st =
       Throw (system_error "ftruncate") st) /\
  (size_ st < max_size_ -> ftruncate_ok (2 * size_ st) = true ->
     exists m' fl',
       driver.allocate driver_ ftruncate_ok fuel n st =
         Throw (logic_error "allocate: size too small")
               (set_mem m' (set_size_ (2 * size_ st) st)) /\
       Rep m' (2 * size_ st)
         (fst (pop_free_tail l) ++
          [(size_ st - 32 + snd (pop_free_tail l), true)]) fl').
Proof.
  intros HR Hsem Hfuel Hn.
  set (st1 := set_sem_ (sem_ st - 1) st).
  pose proof (scan_result driver_ driver_aligned driver_range ftruncate_ok
                st1 l fl n fuel HR ltac:(lia) Hfuel ltac:(lia)) as Hsc.
  rewrite allocate_unfold by lia.
  rewrite aligned_size_top in * by exact Hn.
  rewrite (huge_no_fit _ _ _ _ _ _ HR) in Hsc; [|lia|].
  2:{ apply log2_range. consts. lia. }
  pose proof (rep_fuel_bound driver_ ftruncate_ok _ _ _ _ HR) as [_ Hsz].
  pose proof (hole_bound _ _ _ _ _ _ _ (proj1 HR)) as Hbd.
  destruct fuel as [|[|f]]; [lia|lia|].
  destruct (extend_rep driver_ driver_aligned driver_range ftruncate_ok
              f st1 l fl 16 HR ltac:(lia) ltac:(lia))
    as (k & Hstop & Hall & Hoom & Hft & Hok).
  cbn [size_ st1 set_sem_] in Hstop, Hall, Hoom, Hft, Hok.
  replace (wadd (2 ^ 64 - 16) sizeof_chunk) with 16 by reflexivity.
  assert (Hk : (k = 0%nat /\ max_size_ <= size_ st) \/ (k = 1%nat /\ size_ st < max_size_)).
  { destruct k as [|[|k]].
    - left. split; [reflexivity|]. simpl in Hstop. lia.
    - right. split; [reflexivity|]. specialize (Hall 0%nat ltac:(lia)). simpl in Hall. lia.
    - specialize (Hall 1%nat ltac:(lia)). simpl in Hall. lia. }
  split; [|split].
  - intros Hmax. destruct Hk as [[-> _]|[_ ?]]; [|lia].
    rewrite (with_lock_throw _ st bad_alloc st1).
    + unfold st1. rewrite relock_id. reflexivity.
    + exact Hsem.
    + eapply bind_step; [exact Hsc|]. cbv iota.
      apply bind_throw. apply Hoom. simpl. lia.
    + reflexivity.
  - intros Hmax Hf. destruct Hk as [[_ ?]|[-> _]]; [lia|].
    replace (size_ st * 2 ^ Z.of_nat 1) with (2 * size_ st) in * by (simpl; lia).
    rewrite (with_lock_throw _ st (system_error "ftruncate") st1).
    + unfold st1. rewrite relock_id. reflexivity.
    + exact Hsem.
    + eapply bind_step; [exact Hsc|]. cbv iota.
      apply bind_throw. apply Hft; [lia|exact Hf].
    + reflexivity.
  - intros Hmax Hf. destruct Hk as [[_ ?]|[-> _]]; [lia|].
    replace (size_ st * 2 ^ Z.of_nat 1) with (2 * size_ st) in * by (simpl; lia).
    destruct (Hok ltac:(lia) Hf) as (m1 & fl1 & He & HR1).
    replace (2 * size_ st - size_ st - 32) with (size_ st - 32) in HR1 by lia.
    exists m1, fl1. split; [|exact HR1].
    set (st2 := set_mem m1 (set_size_ (2 * size_ st) st1)) in *.
    rewrite (with_lock_throw _ st (logic_error "allocate: size too small") st2).
    + unfold st2, st1. rewrite relock_mem_size. reflexivity.
    + exact Hsem.
    + eapply bind_step; [exact Hsc|]. cbv iota.
      eapply bind_step; [exact He|].
      apply bind_throw.
      apply (chunk_allocate_small st2 (2 * size_ st) (fst (pop_free_tail l))
               (size_ st - 32 + snd (pop_free_tail l)) [] fl1).
      * exact HR1.
      * assert (Hp : snd (pop_free_tail l) <= total l).
        { destruct (pop_free_tail_cases l) as [[_ ->]|(l' & sb & -> & _ & ->)]; simpl.
          - apply total_nonneg. exact (hole_sizes1 _ _ _ _ _ _ _ (proj1 HR)).
          - rewrite total_app. simpl.
            pose proof (hole_sizes1 _ _ _ _ _ _ _ (proj1 HR)) as Hx.
            apply sizes_ok_app in Hx as [Hx _]. apply total_nonneg in Hx. consts. lia. }
        pose proof (hole_end _ _ _ _ _ _ _ (proj1 HR)) as Hend. simpl in Hend.
        revert Hend Hp Hbd. hconsts. lia.
      * reflexivity.
    + reflexivity.
Qed.


(** *** Every outcome of [allocate] on a well-formed arena *)

Lemma allocate_outcome st l fl live n fuel :
  Rep (mem st) (size_ st) l fl -> sem_ st = 1 -> live_ok first live l ->
  0 < n < 2 ^ 64 -> (length l + 66 <= fuel)%nat ->
  (exists p st' l' fl' s,
     driver.allocate driver_ ftruncate_ok fuel n st = Ok p st' /\
     sem_ st' = 1 /\ Rep (mem st') (size_ st') l' fl' /\
     live_ok first (p :: live) l' /\ first + 16 <= p /\
     (p - 16, (if min_chunk_size_ <=? s - aligned_size n then aligned_size n else s), false)
       ∈ layout first l' /\
     aligned_size n <= s /\ n + 47 < 2 ^ 64 /\ size_ st <= size_ st') \/
  (exists e st' l' fl',
     driver.allocate driver_ ftruncate_ok fuel n st = Throw e st' /\
     sem_ st' = 1 /\ Rep (mem st') (size_ st') l' fl' /\
     live_ok first live l' /\ size_ st <= size_ st').
Proof.
  intros HR Hsem Hlive Hn Hfuel.
  assert (Hsem' : 0 < sem_ st) by lia.
  pose proof (hole_sizes1 _ _ _ _ _ _ _ (proj1 HR)) as Hsz.
  pose proof (rep_fuel_bound driver_ ftruncate_ok _ _ _ _ HR) as [_ Hsz2].
  assert (Hunch : forall e, driver.allocate driver_ ftruncate_ok fuel n st = Throw e st ->
    exists e st' l' fl',
     driver.allocate driver_ ftruncate_ok fuel n st = Throw e st' /\
     sem_ st' = 1 /\ Rep (mem st') (size_ st') l' fl' /\
     live_ok first live l' /\ size_ st <= size_ st').
  { intros e He. exists e, st, l, fl.
    split; [exact He|]. split; [exact Hsem|]. split; [exact HR|]. split; [exact Hlive|lia]. }
  destruct (Z_lt_le_dec (n + 47) (2 ^ 64)) as [Hsmall|Hbig].
  - destruct (find_fit (aligned_size n) (candidates fl (Z.log2 (aligned_size n))))
      as [[x s]|] eqn:Eff.
    + destruct (allocate_fit driver_ driver_aligned driver_range ftruncate_ok
                  st l fl n fuel x s HR Hsem' ltac:(lia) Hfuel ltac:(lia) Eff)
        as (l1 & l2 & m' & fl' & Hl & Hx & Hle & Ha & HR').
      left. exists (x + 16), (set_mem m' st), (l1 ++ alloc_split s (aligned_size n) ++ l2), fl', s.
      subst l x.
      split; [exact Ha|]. split; [exact Hsem|]. split; [exact HR'|].
      split; [apply live_ok_alloc; assumption|].
      split; [pose proof (total_nonneg l1 (proj1 (proj1 (sizes_ok_app _ _) Hsz))); lia|].
      split.
      { replace (first + total l1 + 16 - 16) with (first + total l1) by lia.
        apply layout_alloc_split. }
      split; [exact Hle|]. split; [exact Hsmall|]. simpl. lia.
    + destruct (allocate_extend driver_ driver_aligned driver_range ftruncate_ok
                  st l fl n fuel HR Hsem' ltac:(lia) Hfuel Hsmall Eff)
        as (k & Hstop & Hall & Hoom & Hft & Hok).
      destruct (Z_lt_le_dec (size_ st * 2 ^ Z.of_nat k - size_ st) (aligned_size n + 32))
        as [Hlt|Hge].
      { right. apply (Hunch bad_alloc). exact (Hoom Hlt). }
      destruct (ftruncate_ok (size_ st * 2 ^ Z.of_nat k)) eqn:Eft.
      2:{ right. apply (Hunch (system_error "ftruncate")). exact (Hft Hge eq_refl). }
      destruct (Hok Hge eq_refl) as (m' & fl' & Ha & HR').
      pose proof (aligned_size_facts n ltac:(lia)) as (Hr1 & Hr2 & Hr3).
      assert (Hbsz : 0 <= snd (pop_free_tail l)).
      { destruct (pop_free_tail_cases l) as [[_ ->]|(l' & sb & -> & _ & ->)]; simpl; [lia|].
        apply sizes_ok_app in Hsz as [_ Hx]. apply sizes_ok_cons in Hx as [[? ?] _].
        revert H. consts. lia. }
      left. eexists _, _, _, fl', _.
      split; [exact Ha|]. split; [exact Hsem|]. split; [exact HR'|].
      split; [apply live_ok_extend; assumption|].
      split.
      { destruct (payloads_pop_tail first l) as [_ Et].
        assert (0 <= total (fst (pop_free_tail l))).
        { apply total_nonneg.
          destruct (pop_free_tail_cases l) as [[_ ->]|(l' & sb & -> & _ & ->)]; simpl;
            [exact Hsz|]. apply sizes_ok_app in Hsz as [Hx _]. exact Hx. }
        lia. }
      split.
      { replace (first + total (fst (pop_free_tail l)) + 16 - 16)
          with (first + total (fst (pop_free_tail l))) by lia.
        rewrite <- (app_nil_r (alloc_split _ _)). apply layout_alloc_split. }
      split; [lia|]. split; [exact Hsmall|]. simpl. lia.
  - right.
    destruct (Z_lt_le_dec (2 ^ 64 - 16) n) as [H0|H0].
    { apply (Hunch (logic_error "list_index: zero size")).
      apply allocate_wrap_zero; [exact Hsem'|lia]. }
    destruct (Z_lt_le_dec (2 ^ 64 - 32) n) as [H1|H1].
    + destruct (allocate_wrap16 st l fl n fuel HR Hsem' Hfuel ltac:(lia)) as (Ha & Hb & Hc).
      destruct (Z_lt_le_dec (size_ st) max_size_) as [Hm|Hm].
      2:{ apply (Hunch bad_alloc). exact (Ha Hm). }
      destruct (ftruncate_ok (2 * size_ st)) eqn:Eft.
      2:{ apply (Hunch (system_error "ftruncate")). exact (Hb Hm eq_refl). }
      destruct (Hc Hm eq_refl) as (m' & fl' & Hthrow & HR').
      eexists _, _, _, fl'.
      split; [exact Hthrow|]. split; [exact Hsem|]. split; [exact HR'|].
      split; [apply live_ok_grow; exact Hlive|]. simpl. lia.
    + eapply Hunch. apply (allocate_wrap32 st l fl n fuel HR Hsem' Hfuel). lia.
Qed.


Lemma allocate_outcome_any st l fl live n fuel :
  Rep (mem st) (size_ st) l fl -> sem_ st = 1 -> live_ok first live l ->
  0 < n < 2 ^ 64 -> driver.allocate driver_ ftruncate_ok fuel n st <> Timeout ->
  (exists p st' l' fl' s,
     driver.allocate driver_ ftruncate_ok fuel n st = Ok p st' /\
     sem_ st' = 1 /\ Rep (mem st') (size_ st') l' fl' /\
     live_ok first (p :: live) l' /\ first + 16 <= p /\
     (p - 16, (if min_chunk_size_ <=? s - aligned_size n then aligned_size n else s), false)
       ∈ layout first l' /\
     aligned_size n <= s /\ n + 47 < 2 ^ 64 /\ size_ st <= size_ st') \/
  (exists e st' l' fl',
     driver.allocate driver_ ftruncate_ok fuel n st = Throw e st' /\
     sem_ st' = 1 /\ Rep (mem st') (size_ st') l' fl' /\
     live_ok first live l' /\ size_ st <= size_ st').
Proof.
  intros HR Hsem Hlive Hn Hne.
  rewrite <- (fuel_stable (fun f => driver.allocate driver_ ftruncate_ok f n)
                fuel (Nat.max fuel (length l + 66)) st
                (fun f => allocate_le driver_ ftruncate_ok f n)
                (Nat.le_max_l _ _) Hne).
  apply (allocate_outcome st l fl live n _ HR Hsem Hlive Hn). apply Nat.le_max_r.
Qed.

Lemma construct_ok fuel size st0 st :
  min_size_ <= size <= max_size_ ->
  driver.construct driver_ fuel size st0 = Ok tt st ->
  size mod 16 = 0 /\ sem_ st = 1 /\ addr_ st = driver_ /\ size_ st = size /\
  exists fl, Rep (mem st) size [(size - sizeof_driver - sizeof_chunk, true)] fl.
Proof.
  intros Hsz Hc.
  assert (Hm : size mod 16 = 0).
  { destruct (Z.eq_dec (size mod 16) 0) as [E|E]; [exact E|exfalso].
    revert Hc. unfold driver.construct.
    unfold bind at 1. unfold modify at 1. unfold bind at 1. unfold modify at 1.
    unfold bind at 1. unfold modify at 1. unfold bind at 1. unfold modify at 1.
    rewrite wsub_small by (revert Hsz; consts; lia).
    destruct (Z.leb_spec min_chunk_size_ (size - sizeof_driver)) as [_|Hlt];
      [|revert Hlt Hsz; consts; lia].
    unfold bind at 1.
    destruct fuel as [|fuel]; [discriminate|]. cbn [chunk.add_chunk].
    rewrite land_align.
    destruct (Z.eqb_spec ((size - sizeof_driver) mod 16) 0) as [E'|_].
    { revert E E'. consts. lia. }
    discriminate. }
  split; [exact Hm|].
  destruct (construct_rep driver_ driver_aligned driver_range ftruncate_ok
              fuel st0 size Hsz Hm) as (m' & fl' & Hc' & HR).
  rewrite (fuel_stable (fun f => driver.construct driver_ f size) fuel (S (S fuel)) st0
             (fun f => construct_le driver_ f size)) in Hc'.
  - rewrite Hc in Hc'. inversion Hc'; subst. simpl. eauto.
  - lia.
  - rewrite Hc. discriminate.
Qed.


(** *** The invariant of reachable states *)

Lemma allocate_inv st live fuel n p st' :
  arena.inv driver_ st live -> 0 <= n < word_mod ->
  driver.allocate driver_ ftruncate_ok fuel n st = Ok p st' ->
  arena.inv driver_ st' (if p =? NULL then live else p :: live).
Proof.
  intros (Hsem & l & fl & HR & Hlive) Hn Ha.
  destruct (Z.eq_dec n 0) as [->|Hn0].
  { inversion Ha; subst. simpl. split; [exact Hsem|]. eauto. }
  destruct (allocate_outcome_any st l fl live n fuel HR Hsem Hlive) as
    [(p' & st'' & l' & fl' & s & Ha' & Hsem' & HR' & Hlive' & Hp & _)|
     (e & st'' & l' & fl' & Ha' & _)].
  { revert Hn. consts. lia. }
  { rewrite Ha. discriminate. }
  - rewrite Ha in Ha'. inversion Ha'; subst p' st''.
    destruct (Z.eqb_spec p NULL) as [E|_].
    { revert E Hp. hconsts. lia. }
    split; [exact Hsem'|]. eauto.
  - rewrite Ha in Ha'. discriminate.
Qed.

Lemma allocate_throw_inv st live fuel n e st' :
  arena.inv driver_ st live -> 0 <= n < word_mod ->
  driver.allocate driver_ ftruncate_ok fuel n st = Throw e st' ->
  arena.inv driver_ st' live.
Proof.
  intros (Hsem & l & fl & HR & Hlive) Hn Ha.
  destruct (Z.eq_dec n 0) as [->|Hn0]; [discriminate|].
  destruct (allocate_outcome_any st l fl live n fuel HR Hsem Hlive) as
    [(p' & st'' & l' & fl' & s & Ha' & _)|
     (e' & st'' & l' & fl' & Ha' & Hsem' & HR' & Hlive' & _)].
  { revert Hn. consts. lia. }
  { rewrite Ha. discriminate. }
  - rewrite Ha in Ha'. discriminate.
  - rewrite Ha in Ha'. inversion Ha'; subst e' st''.
    split; [exact Hsem'|]. eauto.
Qed.

(** [deallocate] of a live pointer, whatever the fuel that let it finish. *)
Lemma deallocate_live st l fl live fuel p n st' :
  Rep (mem st) (size_ st) l fl -> sem_ st = 1 -> live_ok first live l ->
  p ∈ live ->
  driver.deallocate driver_ fuel p n st = Ok tt st' ->
  exists l1 s l2 m' fl',
    l = l1 ++ (s, false) :: l2 /\ p = first + total l1 + 16 /\
    st' = set_mem m' st /\
    Rep m' (size_ st)
      (fst (pop_free_tail l1) ++
       (s + snd (pop_free_tail l1) + snd (pop_free_head l2), true) ::
       fst (pop_free_head l2)) fl' /\
    live_ok first (arena.drop p live)
      (fst (pop_free_tail l1) ++
       (s + snd (pop_free_tail l1) + snd (pop_free_head l2), true) ::
       fst (pop_free_head l2)).
Proof.
  intros HR Hsem Hlive Hp Hd.
  pose proof (proj1 (proj2 Hlive p) Hp) as Hpay.
  apply payloads_in in Hpay as [s Hin].
  destruct (rep_chunk_position driver_ _ _ _ _ _ _ _ HR Hin) as (l1 & l2 & Hl & Hx).
  subst l.
  assert (Ep : p = first + total l1 + 16) by lia.
  destruct (deallocate_spec st l1 s l2 fl (S fuel) n HR ltac:(lia) ltac:(lia))
    as (m' & fl' & Hd' & HR').
  rewrite <- Ep in Hd'.
  rewrite (fuel_stable (fun f => driver.deallocate driver_ f p n) fuel (S fuel) st
             (fun f => deallocate_le driver_ f p n)) in Hd'.
  2: lia.
  2:{ rewrite Hd. discriminate. }
  rewrite Hd in Hd'. inversion Hd'; subst st'.
  exists l1, s, l2, m', fl'.
  split; [reflexivity|]. split; [exact Ep|]. split; [reflexivity|]. split; [exact HR'|].
  rewrite Ep. apply live_ok_free; [|exact Hlive].
  exact (hole_sizes1 _ _ _ _ _ _ _ (proj1 HR)).
Qed.

Lemma deallocate_inv st live fuel p n st' :
  arena.inv driver_ st live -> p = NULL \/ p ∈ live ->
  driver.deallocate driver_ fuel p n st = Ok tt st' ->
  arena.inv driver_ st' (arena.drop p live).
Proof.
  intros (Hsem & l & fl & HR & Hlive) Hp Hd.
  assert (Hpos : forall q, q ∈ live -> first + 16 <= q).
  { intros q Hq. apply (proj2 Hlive) in Hq.
    apply (payloads_bounds _ _ _ (hole_sizes1 _ _ _ _ _ _ _ (proj1 HR))) in Hq. lia. }
  destruct (Z.eq_dec p NULL) as [->|Hne].
  - inversion Hd; subst st'. split; [exact Hsem|]. exists l, fl. split; [exact HR|].
    split.
    + unfold arena.drop. apply NoDup_filter. exact (proj1 Hlive).
    + intros q. unfold arena.drop. rewrite list_elem_of_filter, <- (proj2 Hlive q).
      split; [tauto|]. intros Hq. split; [|exact Hq].
      specialize (Hpos q Hq). revert Hpos. hconsts. lia.
  - destruct Hp as [?|Hp]; [contradiction|].
    destruct (deallocate_live st l fl live fuel p n st' HR Hsem Hlive Hp Hd)
      as (l1 & s & l2 & m' & fl' & _ & _ & -> & HR' & Hlive').
    split; [exact Hsem|]. eauto.
Qed.

Lemma construct_inv fuel size st0 st :
  min_size_ <= size <= max_size_ ->
  driver.construct driver_ fuel size st0 = Ok tt st ->
  arena.inv driver_ st [].
Proof.
  intros Hsz Hc.
  destruct (construct_ok fuel size st0 st Hsz Hc) as (_ & Hsem & _ & Hs & fl & HR).
  split; [exact Hsem|]. rewrite Hs. eexists _, fl. split; [exact HR|].
  split; [constructor|]. intros p. simpl. reflexivity.
Qed.

Lemma reachable_inv st live :
  arena.reachable driver_ ftruncate_ok st live -> arena.inv driver_ st live.
Proof.
  induction 1.
  - eapply construct_inv; eassumption.
  - eapply allocate_inv; eassumption.
  - eapply allocate_throw_inv; eassumption.
  - eapply deallocate_inv; eassumption.
Qed.


(** *** Free chunks and the free lists *)

Lemma rep_free_listed m sz l fl x s :
  Rep m sz l fl -> (x, s, true) ∈ layout first l ->
  0 <= Z.log2 s < n_free_list_ /\
  (forall i, 0 <= i < n_free_list_ -> ((x, s) ∈ fl i <-> i = Z.log2 s)) /\
  NoDup (fl (Z.log2 s)).
Proof.
  intros HR Hin.
  destruct (rep_chunk_bounds _ _ _ _ _ _ _ HR Hin) as (H1 & H2 & H3 & _ & _ & H6 & _).
  assert (Hc : (x, s, true) ∈ heap.chunks_of driver_ l 0 []).
  { unfold heap.chunks_of. simpl. rewrite app_nil_r. exact Hin. }
  assert (Hlog : 0 <= Z.log2 s < n_free_list_).
  { apply log2_range. revert H1 H2. hconsts. lia. }
  split; [exact Hlog|]. split.
  - intros i Hi. split.
    + intros Hm. destruct (hole_in _ _ _ _ _ _ _ (proj1 HR) i x s Hi Hm) as [_ E]. lia.
    + intros ->. exact (hole_all _ _ _ _ _ _ _ (proj1 HR) x s Hc).
  - exact (hole_nodup _ _ _ _ _ _ _ (proj1 HR) _ Hlog).
Qed.

Lemma rep_not_listed m sz l fl x s :
  Rep m sz l fl -> (x, s, false) ∈ layout first l ->
  forall i t, 0 <= i < n_free_list_ -> (x, t) ∉ fl i.
Proof.
  intros HR Hin i t Hi Hm.
  destruct (hole_in _ _ _ _ _ _ _ (proj1 HR) i x t Hi Hm) as [Hc _].
  unfold heap.chunks_of in Hc. simpl in Hc. rewrite app_nil_r in Hc.
  pose proof (hole_sizes1 _ _ _ _ _ _ _ (proj1 HR)) as Hs.
  pose proof (layout_bounds _ _ _ _ _ Hs Hin).
  pose proof (layout_bounds _ _ _ _ _ Hs Hc).
  destruct (layout_disjoint _ _ _ _ _ _ _ _ Hs Hin Hc) as [E|E]; [congruence|lia].
Qed.

(** C3: a free chunk of payload size s, at address c, is allocated for a
    rounded request r with r <= s.  The chunk leaves its free list (it is on
    the list of class log2 s before and on no list afterwards).  If
    s - r >= min_chunk_size_ the header is set to r, the new footer says
    allocated (size 0), and the trailing s - r bytes become a free chunk at
    c + r + 32 with payload s - r - 32, on the free list of its class;
    otherwise the whole chunk is marked allocated: the header keeps s and the
    footer size is set to 0.  The payload address of the chunk is c + 16. *)
Theorem chunk_allocate_splits_or_takes_all st l1 s l2 fl r fuel :
  Rep (mem st) (size_ st) (l1 ++ (s, true) :: l2) fl ->
  16 <= r <= s -> r mod 16 = 0 -> (1 <= fuel)%nat ->
  exists m' fl',
    chunk.allocate driver_ fuel (first + total l1) r st = Ok tt (set_mem m' st) /\
    chunk.data (first + total l1) = first + total l1 + 16 /\
    (first + total l1, s) ∈ fl (Z.log2 s) /\
    (forall i t, 0 <= i < n_free_list_ -> (first + total l1, t) ∉ fl' i) /\
    Rep m' (size_ st) (l1 ++ alloc_split s r ++ l2) fl' /\
    (if min_chunk_size_ <=? s - r
     then chunk.size m' (first + total l1) = r /\
          chunk.allocated m' (first + total l1) = true /\
          chunk.size m' (first + total l1 + r + 32) = s - r - 32 /\
          chunk.allocated m' (first + total l1 + r + 32) = false /\
          (first + total l1 + r + 32, s - r - 32) ∈ fl' (Z.log2 (s - r - 32))
     else chunk.size m' (first + total l1) = s /\
          chunk.allocated m' (first + total l1) = true).
Proof.
  intros HR Hr Hm Hfuel.
  destruct fuel as [|f]; [lia|].
  destruct (chunk_allocate_rep driver_ driver_aligned driver_range ftruncate_ok
              f st (size_ st) l1 s l2 fl r HR eq_refl Hr Hm) as (m' & fl' & Ha & HR').
  pose proof (layout_mid first l1 s true l2) as Hin.
  destruct (rep_chunk_bounds _ _ _ _ _ _ _ HR Hin) as (H1 & H2 & H3 & H4 & H5 & H6 & H7 & H8).
  destruct (rep_free_listed _ _ _ _ _ _ HR Hin) as (Hlog & Hiff & _).
  set (c := first + total l1) in *.
  assert (Hc0 : 0 < c) by (revert H1; hconsts; lia).
  assert (Hcb : c + s + 32 < 2 ^ 64) by (revert H2 H6; hconsts; lia).
  pose proof (layout_alloc_split first l1 s r l2) as Hin'. fold c in Hin'.
  destruct (rep_chunk_bounds _ _ _ _ _ _ _ HR' Hin') as (_ & _ & _ & _ & _ & _ & G1 & G2).
  exists m', fl'.
  split; [exact Ha|]. split; [apply data_eq; lia|].
  split; [apply Hiff; [exact Hlog|reflexivity]|].
  split; [exact (rep_not_listed _ _ _ _ _ _ HR' Hin')|].
  split; [exact HR'|].
  assert (Hal : forall x t, 0 < x -> 0 <= t -> x + t + 32 < 2 ^ 64 -> read m' x = t ->
                chunk.allocated m' x = (read m' (x + t + 16) =? 0)).
  { intros x t Hx Ht Hb Hrd. unfold chunk.allocated.
    rewrite (footer_eq m' x t) by (try assumption; try lia; consts; lia).
    wsimp. rewrite Z.add_0_r. reflexivity. }
  unfold alloc_split in HR'. revert G1 G2 HR'.
  destruct (Z.leb_spec min_chunk_size_ (s - r)) as [Hsp|Hsp]; intros G1 G2 HR'.
  - assert (Hin2 : (c + r + 32, s - r - 32, true)
                     ∈ layout first (l1 ++ [(r, false); (s - r - 32, true)] ++ l2)).
    { replace (l1 ++ [(r, false); (s - r - 32, true)] ++ l2)
        with ((l1 ++ [(r, false)]) ++ (s - r - 32, true) :: l2)
        by (rewrite <- app_assoc; reflexivity).
      replace (c + r + 32) with (first + total (l1 ++ [(r, false)])).
      - apply layout_mid.
      - rewrite total_app. simpl. unfold c. consts. lia. }
    destruct (rep_chunk_bounds _ _ _ _ _ _ _ HR' Hin2) as (_ & _ & K3 & _ & _ & _ & K1 & K2).
    destruct (rep_free_listed _ _ _ _ _ _ HR' Hin2) as (Klog & Kiff & _).
    rewrite !size_eq by lia.
    rewrite (Hal c r) by (try assumption; lia).
    rewrite (Hal (c + r + 32) (s - r - 32)) by (try assumption; lia).
    rewrite G2, K2.
    split; [exact G1|]. split; [reflexivity|]. split; [exact K1|].
    split; [apply Z.eqb_neq; lia|].
    apply Kiff; [exact Klog|reflexivity].
  - rewrite size_eq by lia. rewrite (Hal c s) by (try assumption; lia).
    rewrite G2. split; [exact G1|reflexivity].
Qed.


(** C4: [p] is a pointer that [allocate] returned and that was not given
    back.  [deallocate] recovers the chunk c = p - 16 with [get_chunk], whose
    footer says allocated; it marks the chunk free and merges it with each
    free neighbour: with b the full size of the chunk before (0 when that one
    is allocated or c is the first chunk) and a the full size of the chunk
    after (0 when allocated or absent), the result is one free chunk at
    c - b, the leftmost of {before, c}, whose footprint is the sum
    (s + 32) + b + a of the full sizes: header and footer both record the
    payload s + b + a, and the chunk is on the free list of the class of that
    size; the neighbours are no longer chunks of their own.  If the footer of
    the chunk is not in allocated form, [deallocate] throws the logic error
    and the state is the one before the call. *)
Theorem deallocate_merges_free_neighbours st live p n fuel :
  arena.reachable driver_ ftruncate_ok st live -> p ∈ live -> (1 <= fuel)%nat ->
  (exists l1 s l2 fl m' fl',
     let c := first + total l1 in
     let b := snd (pop_free_tail l1) in
     let a := snd (pop_free_head l2) in
     Rep (mem st) (size_ st) (l1 ++ (s, false) :: l2) fl /\
     chunk.get_chunk p st = Ok c st /\
     chunk.size (mem st) c = s /\ chunk.allocated (mem st) c = true /\
     driver.deallocate driver_ fuel p n st = Ok tt (set_mem m' st) /\
     Rep m' (size_ st)
       (fst (pop_free_tail l1) ++ (s + b + a, true) :: fst (pop_free_head l2)) fl' /\
     c - b = first + total (fst (pop_free_tail l1)) /\
     chunk.size m' (c - b) = s + b + a /\
     read m' (chunk.footer m' (c - b)) = s + b + a /\
     chunk.footer m' (c - b) = c + s + a + 16 /\
     (c - b, s + b + a) ∈ fl' (Z.log2 (s + b + a))) /\
  (forall st0 q,
     0 < sem_ st0 -> q mod 16 = 0 -> 16 <= q < 2 ^ 64 ->
     0 <= read (mem st0) (q - 16) -> q + read (mem st0) (q - 16) + 16 < 2 ^ 64 ->
     read (mem st0) (q + read (mem st0) (q - 16)) <> 0 ->
     driver.deallocate driver_ fuel q n st0 =
       Throw (logic_error "deallocate: unexpected footer size") st0).
Proof.
  intros Hreach Hp Hfuel. split.
  2:{ intros st0 q. apply deallocate_corrupt. }
  destruct (reachable_inv st live Hreach) as (Hsem & l & fl & HR & Hlive).
  pose proof (proj1 (proj2 Hlive p) Hp) as Hpay.
  apply payloads_in in Hpay as [s Hin].
  destruct (rep_chunk_position driver_ _ _ _ _ _ _ _ HR Hin) as (l1 & l2 & Hl & Hx).
  subst l.
  assert (Ep : p = first + total l1 + 16) by lia.
  destruct (deallocate_spec st l1 s l2 fl fuel n HR ltac:(lia) Hfuel)
    as (m' & fl' & Hd & HR').
  destruct (rep_chunk_bounds _ _ _ _ _ _ _ HR Hin) as (H1 & H2 & H3 & H4 & H5 & H6 & H7 & H8).
  destruct (payloads_pop_tail first l1) as [_ Et].
  destruct (payloads_pop_head (first + total l1 + s + 32) l2) as [_ Eh].
  exists l1, s, l2, fl, m', fl'. cbv zeta.
  set (c := first + total l1) in *.
  set (b := snd (pop_free_tail l1)) in *.
  set (a := snd (pop_free_head l2)) in *.
  assert (Hc0 : 0 < c) by (revert H1; hconsts; lia).
  assert (Hcb : c + s + 32 < 2 ^ 64) by (revert H2 H6; hconsts; lia).
  replace (p - 16) with c in * by lia.
  pose proof (layout_mid first (fst (pop_free_tail l1)) (s + b + a) true
                (fst (pop_free_head l2))) as Hin'.
  replace (first + total (fst (pop_free_tail l1))) with (c - b) in Hin' by (unfold c; lia).
  destruct (rep_chunk_bounds _ _ _ _ _ _ _ HR' Hin') as (G1 & G2 & G3 & _ & _ & _ & G7 & G8).
  destruct (rep_free_listed _ _ _ _ _ _ HR' Hin') as (Glog & Giff & _).
  assert (Gf : chunk.footer m' (c - b) = c + s + a + 16).
  { rewrite (footer_eq m' (c - b) (s + b + a)); try assumption; try lia.
    - revert G1. hconsts. lia.
    - revert G2 H6. hconsts. lia. }
  split; [exact HR|].
  split; [rewrite Ep; fold c; replace c with (c + 16 - 16) at 2 by lia;
          apply get_chunk_eq; [lia|consts; lia]|].
  split; [rewrite size_eq by lia; exact H7|].
  split.
  { unfold chunk.allocated. rewrite (footer_eq (mem st) c s) by (try assumption; try lia; consts; lia).
    wsimp. rewrite Z.add_0_r, H8. reflexivity. }
  split; [rewrite Ep; exact Hd|].
  split; [exact HR'|].
  split; [unfold c; lia|].
  split; [rewrite size_eq by (revert G1 G2 H6; hconsts; lia); exact G7|].
  split; [rewrite Gf; replace (c + s + a + 16) with (c - b + (s + b + a) + 16) by lia; exact G8|].
  split; [exact Gf|].
  apply Giff; [exact Glog|reflexivity].
Qed.


(** C5: in every state reached from a freshly constructed arena by calls of
    [allocate] and [deallocate], the chunks tile the arena as the tags in
    memory say, and no two chunks adjacent in the address space are both
    free.  The chunk that a deallocation produces (the one that contains the
    payload given back) is free, its footer repeats its size, and it is on
    the free list of its size class, once, and on no other list. *)
Theorem reachable_coalesced st live :
  arena.reachable driver_ ftruncate_ok st live ->
  (exists l fl,
     Rep (mem st) (size_ st) l fl /\
     forall l1 c1 c2 l2, l = l1 ++ c1 :: c2 :: l2 -> snd c1 && snd c2 = false) /\
  (forall fuel p n st',
     p ∈ live -> driver.deallocate driver_ fuel p n st = Ok tt st' ->
     arena.reachable driver_ ftruncate_ok st' (arena.drop p live) /\
     exists l' fl' x s,
       Rep (mem st') (size_ st') l' fl' /\
       (x, s, true) ∈ layout first l' /\
       x + 16 <= p /\ p + chunk.size (mem st) (p - 16) <= x + 16 + s /\
       chunk.size (mem st') x = s /\ chunk.allocated (mem st') x = false /\
       (forall i, 0 <= i < n_free_list_ -> ((x, s) ∈ fl' i <-> i = Z.log2 s)) /\
       NoDup (fl' (Z.log2 s))).
Proof.
  intros Hreach.
  destruct (reachable_inv st live Hreach) as (Hsem & l & fl & HR & Hlive).
  split.
  - exists l, fl. split; [exact HR|].
    intros l1 c1 c2 l2 ->. apply (no_adj_free_pair l1 c1 c2 l2). exact (proj2 HR).
  - intros fuel p n st' Hp Hd.
    split; [eapply arena.reach_deallocate; [exact Hreach|right; exact Hp|exact Hd]|].
    destruct (deallocate_live st l fl live fuel p n st' HR Hsem Hlive Hp Hd)
      as (l1 & s & l2 & m' & fl' & -> & Ep & -> & HR' & _).
    destruct (rep_chunk_bounds _ _ _ _ _ _ _ HR (layout_mid first l1 s false l2))
      as (H1 & H2 & H3 & _ & _ & H6 & H7 & _).
    destruct (payloads_pop_tail first l1) as [_ Et].
    pose proof (layout_mid first (fst (pop_free_tail l1))
                  (s + snd (pop_free_tail l1) + snd (pop_free_head l2)) true
                  (fst (pop_free_head l2))) as Hin'.
    destruct (rep_chunk_bounds _ _ _ _ _ _ _ HR' Hin') as (G1 & G2 & G3 & _ & _ & _ & G7 & G8).
    destruct (rep_free_listed _ _ _ _ _ _ HR' Hin') as (_ & Giff & Gnd).
    assert (Ha : 0 <= snd (pop_free_head l2)).
    { destruct (pop_free_head_cases l2) as [[_ ->]|(l' & sa & E & _ & ->)]; simpl; [lia|].
      pose proof (hole_sizes1 _ _ _ _ _ _ _ (proj1 HR)) as Hs.
      apply sizes_ok_app in Hs as [_ Hs]. apply sizes_ok_cons in Hs as [_ Hs].
      rewrite E in Hs. apply sizes_ok_cons in Hs as [[Hs _] _]. revert Hs. consts. lia. }
    assert (Hb : 0 <= snd (pop_free_tail l1)).
    { destruct (pop_free_tail_cases l1) as [[_ ->]|(l' & sb & E & _ & ->)]; simpl; [lia|].
      pose proof (hole_sizes1 _ _ _ _ _ _ _ (proj1 HR)) as Hs.
      apply sizes_ok_app in Hs as [Hs _]. rewrite E in Hs.
      apply sizes_ok_app in Hs as [_ Hs]. apply sizes_ok_cons in Hs as [[Hs _] _].
      revert Hs. consts. lia. }
    eexists _, fl', _, _.
    split; [exact HR'|]. split; [exact Hin'|].
    cbn [mem set_mem size_] in *.
    replace (p - 16) with (first + total l1) by lia.
    rewrite !size_eq by (revert H1 H2 H6 G1 G2; hconsts; lia).
    split; [lia|]. split; [rewrite H7; lia|]. split; [exact G7|].
    split.
    { unfold chunk.allocated. rewrite (footer_eq m' _ _ G7).
      - wsimp. rewrite Z.add_0_r, G8. apply Z.eqb_neq. lia.
      - revert G1. hconsts. lia.
      - lia.
      - revert G2 H6. hconsts. lia. }
    split; [exact Giff|exact Gnd].
Qed.


(** C6: [extend] is asked for delta bytes (chunk overhead included) when the
    committed size is cur = size_.  The candidate s = cur * 2^k is doubled k
    times: each earlier candidate was below max_size_ and too small, and the
    last one either provides delta bytes or has reached max_size_.  If
    s - cur < delta, bad_alloc is thrown and the state is unchanged.
    Otherwise the file is truncated to s (a failure of ftruncate is thrown,
    state unchanged), the committed size becomes s, and the s - cur new bytes
    at offset cur become one free chunk, merged with the trailing chunk when
    that one was free (b is then its full size, else 0): the chunk returned
    starts at driver_ + cur - b, has payload s - cur - 32 + b, is the last
    chunk of the arena and is on the free list of its class. *)
Theorem extend_doubles_then_appends st l fl delta fuel :
  Rep (mem st) (size_ st) l fl -> 0 < delta < 2 ^ 64 -> (34 <= fuel)%nat ->
  exists k : nat,
    let cur := size_ st in
    let s := cur * 2 ^ Z.of_nat k in
    let b := snd (pop_free_tail l) in
    (forall i : nat, (i < k)%nat ->
       cur * 2 ^ Z.of_nat i < max_size_ /\ cur * 2 ^ Z.of_nat i - cur < delta) /\
    (delta <= s - cur \/ max_size_ <= s) /\
    (s - cur < delta ->
       driver.extend driver_ ftruncate_ok fuel delta st = Throw bad_alloc st) /\
    (delta <= s - cur -> ftruncate_ok s = false ->
       driver.extend driver_ ftruncate_ok fuel delta st =
         Throw (system_error "ftruncate") st) /\
    (delta <= s - cur -> ftruncate_ok s = true ->
       exists m' fl',
         driver.extend driver_ ftruncate_ok fuel delta st =
           Ok (driver_ + cur - b) (set_mem m' (set_size_ s st)) /\
         Rep m' s (fst (pop_free_tail l) ++ [(s - cur - 32 + b, true)]) fl' /\
         chunk.size m' (driver_ + cur - b) = s - cur - 32 + b /\
         chunk.allocated m' (driver_ + cur - b) = false /\
         (driver_ + cur - b, s - cur - 32 + b) ∈ fl' (Z.log2 (s - cur - 32 + b))).
Proof.
  intros HR Hd Hfuel.
  destruct fuel as [|[|f]]; [lia|lia|].
  destruct (extend_rep driver_ driver_aligned driver_range ftruncate_ok
              f st l fl delta HR Hd ltac:(lia))
    as (k & Hstop & Hall & Hoom & Hft & Hok).
  exists k. cbv zeta.
  split; [exact Hall|]. split; [lia|]. split; [exact Hoom|]. split; [exact Hft|].
  intros Hge Hf. destruct (Hok Hge Hf) as (m' & fl' & He & HR').
  pose proof (hole_end _ _ _ _ _ _ _ (proj1 HR)) as Hend. simpl in Hend.
  destruct (payloads_pop_tail first l) as [_ Et].
  assert (Ex : first + total (fst (pop_free_tail l)) =
               driver_ + size_ st - snd (pop_free_tail l)) by lia.
  rewrite Ex in He.
  exists m', fl'. split; [exact He|]. split; [exact HR'|].
  pose proof (layout_mid first (fst (pop_free_tail l))
                (size_ st * 2 ^ Z.of_nat k - size_ st - 32 + snd (pop_free_tail l)) true [])
    as Hin.
  rewrite Ex in Hin.
  destruct (rep_chunk_bounds _ _ _ _ _ _ _ HR' Hin) as (G1 & G2 & G3 & _ & _ & G6 & G7 & G8).
  destruct (rep_free_listed _ _ _ _ _ _ HR' Hin) as (Glog & Giff & _).
  split; [rewrite size_eq by (revert G1 G2 G6; hconsts; lia); exact G7|].
  split.
  { unfold chunk.allocated. rewrite (footer_eq m' _ _ G7).
    - wsimp. rewrite Z.add_0_r, G8. apply Z.eqb_neq. lia.
    - revert G1. hconsts. lia.
    - lia.
    - revert G2 G6. hconsts. lia. }
  apply Giff; [exact Glog|reflexivity].
Qed.

(** C9: a request for zero bytes returns NULL and a NULL pointer is given
    back without effect, in every state: also in one whose semaphore is 0,
    where a call that takes the lock would block.  The state returned is
    the state given, semaphore included. *)
Theorem nil_requests_skip_the_lock (fuel : nat) (n : Z) (st : state) :
  driver.allocate driver_ ftruncate_ok fuel 0 st = Ok NULL st /\
  driver.deallocate driver_ fuel NULL n st = Ok tt st /\
  driver.allocate driver_ ftruncate_ok fuel 0 (set_sem_ 0 st) = Ok NULL (set_sem_ 0 st) /\
  driver.deallocate driver_ fuel NULL n (set_sem_ 0 st) = Ok tt (set_sem_ 0 st) /\
  driver.allocate driver_ ftruncate_ok fuel 1 (set_sem_ 0 st) = Blocked /\
  driver.deallocate driver_ fuel 16 n (set_sem_ 0 st) = Blocked.
Proof. repeat split. Qed.



(** C1: the size arithmetic of [allocate] is done on size_t and wraps.  A
    request above 2^64 - 16 is rounded to 0, not up to a multiple of 16: no
    free list is walked and the logic error of [list_index] is thrown.  A
    request n with 2^64 - 32 < n <= 2^64 - 16 is rounded to 2^64 - 16, and
    the rounded size plus the chunk overhead wraps to 16: no chunk fits,
    [extend] is called with 16, and the chunk that extension produced is too
    small for the request, so the logic error of [chunk::allocate] is thrown
    after the segment has grown. *)
Theorem allocate_size_arithmetic_wraps st l fl n fuel :
  Rep (mem st) (size_ st) l fl -> sem_ st = 1 -> (length l + 66 <= fuel)%nat ->
  2 ^ 64 - 32 < n < 2 ^ 64 ->
  (2 ^ 64 - 16 < n ->
     driver.round_up n = 0 /\
     driver.allocate driver_ ftruncate_ok fuel n st =
       Throw (logic_error "list_index: zero size") st) /\
  (n <= 2 ^ 64 - 16 ->
     driver.round_up n = 2 ^ 64 - 16 /\
     wadd (driver.round_up n) sizeof_chunk = 16 /\
     find_fit (driver.round_up n) (candidates fl (Z.log2 (driver.round_up n))) = None /\
     (size_ st < max_size_ -> ftruncate_ok (2 * size_ st) = true ->
      exists c st1 st2,
        driver.extend driver_ ftruncate_ok fuel 16 st = Ok c st1 /\
        chunk.size (mem st1) c < driver.round_up n /\
        size_ st1 = 2 * size_ st /\
        driver.allocate driver_ ftruncate_ok fuel n st =
          Throw (logic_error "allocate: size too small") st2 /\
        size_ st2 = 2 * size_ st)).
Proof.
  intros HR Hsem Hfuel Hn. split.
  - intros Hbig. split; [apply round_up_wraps; lia|].
    apply allocate_wrap_zero; lia.
  - intros Hle.
    assert (Er : driver.round_up n = 2 ^ 64 - 16).
    { rewrite round_up_eq by lia. apply aligned_size_top. lia. }
    rewrite Er. split; [reflexivity|]. split; [reflexivity|].
    split.
    { apply (huge_no_fit _ _ _ _ _ _ HR); [lia|]. apply log2_range. consts. lia. }
    intros Hmax Hft.
    destruct (allocate_wrap16 st l fl n fuel HR ltac:(lia) Hfuel ltac:(lia))
      as (_ & _ & Hc).
    destruct (Hc Hmax Hft) as (m' & fl' & Ha & HR').
    destruct (extend_doubles_then_appends st l fl 16 fuel HR ltac:(lia) ltac:(lia))
      as (k & Hall & Hstop & _ & _ & Hok).
    cbv zeta in Hall, Hstop, Hok.
    pose proof (rep_fuel_bound driver_ ftruncate_ok _ _ _ _ HR) as [_ Hsz].
    assert (Hk : k = 1%nat).
    { destruct k as [|[|k]].
      - simpl in Hstop. lia.
      - reflexivity.
      - specialize (Hall 1%nat ltac:(lia)). simpl in Hall. lia. }
    subst k. replace (size_ st * 2 ^ Z.of_nat 1) with (2 * size_ st) in Hok by (simpl; lia).
    destruct (Hok ltac:(lia) Hft) as (m1 & fl1 & He & HR1 & Hs1 & _).
    eexists _, _, _. split; [exact He|].
    split.
    { cbn [mem set_mem]. rewrite Hs1.
      pose proof (hole_bound _ _ _ _ _ _ _ (proj1 HR)) as Hbd.
      pose proof (hole_end _ _ _ _ _ _ _ (proj1 HR)) as Hend. simpl in Hend.
      destruct (payloads_pop_tail first l) as [_ Et].
      assert (0 <= total (fst (pop_free_tail l))).
      { apply total_nonneg.
        pose proof (hole_sizes1 _ _ _ _ _ _ _ (proj1 HR1)) as Hq.
        apply sizes_ok_app in Hq as [Hq _]. exact Hq. }
      revert Hbd Hend. hconsts. lia. }
    split; [reflexivity|]. split; [exact Ha|reflexivity].
Qed.

(** C2: a request n with 2^64 - 32 < n <= 2^64 - 16 cannot be satisfied by
    any growth, yet on an arena below max_size_ [allocate] does not report
    bad_alloc and does not leave the arena as it was: it throws a logic
    error, and the committed size has doubled (the file was truncated to
    twice its size and a free chunk was appended).  The arena stays well
    formed. *)
Theorem allocate_huge_request_grows_segment st l fl n fuel :
  Rep (mem st) (size_ st) l fl -> sem_ st = 1 -> (length l + 66 <= fuel)%nat ->
  2 ^ 64 - 32 < n <= 2 ^ 64 - 16 ->
  size_ st < max_size_ -> ftruncate_ok (2 * size_ st) = true ->
  exists st' l' fl',
    driver.allocate driver_ ftruncate_ok fuel n st =
      Throw (logic_error "allocate: size too small") st' /\
    logic_error "allocate: size too small" <> bad_alloc /\
    size_ st' = 2 * size_ st /\ size_ st' <> size_ st /\
    l' <> l /\
    Rep (mem st') (size_ st') l' fl'.
Proof.
  intros HR Hsem Hfuel Hn Hmax Hft.
  destruct (allocate_wrap16 st l fl n fuel HR ltac:(lia) Hfuel Hn) as (_ & _ & Hc).
  destruct (Hc Hmax Hft) as (m' & fl' & Ha & HR').
  pose proof (rep_fuel_bound driver_ ftruncate_ok _ _ _ _ HR) as [_ Hsz].
  eexists _, _, fl'. split; [exact Ha|]. split; [discriminate|].
  cbn [size_ mem set_mem set_size_].
  split; [reflexivity|]. split; [lia|].
  split; [|exact HR'].
  - intros E.
    pose proof (hole_end _ _ _ _ _ _ _ (proj1 HR)) as H1.
    pose proof (hole_end _ _ _ _ _ _ _ (proj1 HR')) as H2.
    rewrite E in H2. simpl in H1, H2. lia.
Qed.

End requests.

(** * Attaching to a segment *)

Ltac psimp :=
  cbn [gsa.call gsa.shmfd_ gsa.oflag_ gsa.set_maps gsa.set_driver_ gsa.maps gsa.trace
       gsa.driver_ gsa.name_].

Lemma mapped_app m1 m2 x :
  gsa.mapped (m1 ++ m2) x = gsa.mapped m1 x || gsa.mapped m2 x.
Proof. unfold gsa.mapped. apply existsb_app. Qed.



(** * The statements at a concrete arena

    A segment of min_size_ bytes mapped at [example.base], freshly
    constructed, and the state after one allocation of 64 bytes. *)

Lemma example_base_aligned : example.base mod 16 = 0.
Proof. reflexivity. Qed.

Lemma example_base_range : 0 < example.base < 2 ^ 63.
Proof. split; reflexivity. Qed.

Lemma example_construct :
  driver.construct example.base 2 min_size_ example.st0 = Ok tt example.fresh.
Proof. vm_compute. reflexivity. Qed.

Lemma example_allocate :
  driver.allocate example.base example.ft 100 64 example.fresh =
    Ok 67648 example.after_alloc.
Proof. vm_compute. reflexivity. Qed.

Lemma example_fresh_rep :
  sem_ example.fresh = 1 /\ size_ example.fresh = 4096 /\
  exists fl, heap.Rep example.base (mem example.fresh) 4096 [(1968, true)] fl.
Proof.
  destruct (construct_ok example.base example_base_aligned example_base_range example.ft
              2 min_size_ example.st0 example.fresh) as (_ & H1 & _ & H2 & fl & HR).
  - split; discriminate.
  - exact example_construct.
  - split; [exact H1|]. split; [exact H2|]. exists fl. exact HR.
Qed.

Lemma example_reachable_fresh :
  arena.reachable example.base example.ft example.fresh [].
Proof.
  apply (arena.reach_construct example.base example.ft 2 min_size_ example.st0).
  - split; discriminate.
  - exact example_construct.
Qed.

Lemma example_reachable_after :
  arena.reachable example.base example.ft example.after_alloc [67648].
Proof.
  apply (arena.reach_allocate example.base example.ft 100 64 example.fresh [] 67648
           example.after_alloc example_reachable_fresh).
  - split; [discriminate|reflexivity].
  - exact example_allocate.
Qed.

Lemma list_index_floor_log2_witness :
  exists k, chunk.list_index 4096 example.st0 = Ok k example.st0 /\
            2 ^ k <= 4096 < 2 ^ (k + 1).
Proof.
  destruct (list_index_floor_log2 4096 example.st0) as [(k & Hk & _ & _ & Hb) _].
  - split; reflexivity.
  - exists k. split; [exact Hk|exact Hb].
Defined.

Lemma chunk_allocate_splits_or_takes_all_witness :
  exists m', chunk.allocate example.base 1 (heap.first example.base + total []) 64
               example.fresh = Ok tt (set_mem m' example.fresh).
Proof.
  destruct example_fresh_rep as (_ & Hs & fl & HR).
  destruct (chunk_allocate_splits_or_takes_all example.base example_base_aligned
              example_base_range example.ft example.fresh [] 1968 [] fl 64 1)
    as (m' & fl' & Ha & _).
  - rewrite Hs. exact HR.
  - lia.
  - reflexivity.
  - lia.
  - exists m'. exact Ha.
Defined.

Lemma deallocate_merges_free_neighbours_witness :
  exists m', driver.deallocate example.base 1 67648 0 example.after_alloc =
               Ok tt (set_mem m' example.after_alloc).
Proof.
  destruct (deallocate_merges_free_neighbours example.base example_base_aligned
              example_base_range example.ft example.after_alloc [67648] 67648 0 1)
    as [(l1 & s & l2 & fl & m' & fl' & _ & _ & _ & _ & Hd & _) _].
  - exact example_reachable_after.
  - apply list_elem_of_here.
  - lia.
  - exists m'. exact Hd.
Defined.

Lemma reachable_coalesced_witness :
  exists l fl, heap.Rep example.base (mem example.after_alloc)
                 (size_ example.after_alloc) l fl /\
    forall l1 c1 c2 l2, l = l1 ++ c1 :: c2 :: l2 -> snd c1 && snd c2 = false.
Proof.
  exact (proj1 (reachable_coalesced example.base example_base_aligned example_base_range
                  example.ft example.after_alloc [67648] example_reachable_after)).
Defined.

Lemma extend_doubles_then_appends_witness :
  exists k : nat,
    8192 <= 4096 * 2 ^ Z.of_nat k - 4096 \/ max_size_ <= 4096 * 2 ^ Z.of_nat k.
Proof.
  destruct example_fresh_rep as (_ & Hs & fl & HR).
  destruct (extend_doubles_then_appends example.base example_base_aligned
              example_base_range example.ft example.fresh [(1968, true)] fl 8192 34)
    as (k & _ & Hstop & _).
  - rewrite Hs. exact HR.
  - split; reflexivity.
  - lia.
  - exists k. rewrite Hs in Hstop. exact Hstop.
Defined.


Lemma allocate_size_arithmetic_wraps_witness :
  driver.allocate example.base example.ft 100 (2 ^ 64 - 1) example.fresh =
    Throw (logic_error "list_index: zero size") example.fresh.
Proof.
  destruct example_fresh_rep as (Hsem & Hs & fl & HR).
  destruct (allocate_size_arithmetic_wraps example.base example_base_aligned
              example_base_range example.ft example.fresh [(1968, true)] fl
              (2 ^ 64 - 1) 100) as [H _].
  - rewrite Hs. exact HR.
  - exact Hsem.
  - simpl. lia.
  - lia.
  - apply H. lia.
Defined.

Lemma allocate_huge_request_grows_segment_witness :
  exists st',
    driver.allocate example.base example.ft 100 (2 ^ 64 - 16) example.fresh =
      Throw (logic_error "allocate: size too small") st' /\
    size_ st' = 2 * size_ example.fresh.
Proof.
  destruct example_fresh_rep as (Hsem & Hs & fl & HR).
  destruct (allocate_huge_request_grows_segment example.base example_base_aligned
              example_base_range example.ft example.fresh [(1968, true)] fl
              (2 ^ 64 - 16) 100) as (st' & l' & fl' & Ha & _ & Hsz & _).
  - rewrite Hs. exact HR.
  - exact Hsem.
  - simpl. lia.
  - lia.
  - rewrite Hs. reflexivity.
  - reflexivity.
  - exists st'. split; [exact Ha|exact Hsz].
Defined.


(** * Further properties of the allocator *)

Lemma find_fit_first r L x s :
  find_fit r L = Some (x, s) ->
  exists L1 L2, L = L1 ++ (x, s) :: L2 /\ (forall y t, (y, t) ∈ L1 -> t < r) /\ r <= s.
Proof.
  induction L as [|[y t] L IH]; simpl; [discriminate|].
  destruct (Z.leb_spec r t) as [Hle|Hlt].
  - intros E. inversion E; subst. exists [], L. split; [reflexivity|].
    split; [|exact Hle]. intros y' t' H. inversion H.
  - intros E. destruct (IH E) as (L1 & L2 & -> & Hall & Hle).
    exists ((y, t) :: L1), L2. split; [reflexivity|]. split; [|exact Hle].
    intros y' t' H. apply elem_of_cons in H as [H|H].
    + inversion H; subst. exact Hlt.
    + exact (Hall y' t' H).
Qed.

Lemma last_free_no_adj l1 s l2 :
  no_adj_free (l1 ++ (s, true) :: l2) = true ->
  pop_free_tail l1 = (l1, 0) /\ pop_free_head l2 = (l2, 0).
Proof.
  rewrite no_adj_free_app. intros H.
  apply andb_prop in H as [H _]. apply andb_prop in H as [H H2].
  apply andb_prop in H as [_ H1].
  split.
  - destruct (pop_free_tail_cases l1) as [[_ E]|(l' & sb & _ & E & _)]; [exact E|].
    rewrite E in H1. discriminate.
  - destruct (pop_free_head_cases l2) as [[_ E]|(l' & sb & _ & E & _)]; [exact E|].
    rewrite E in H2. discriminate.
Qed.

Lemma drop_fresh p live : p ∉ live -> arena.drop p (p :: live) = live.
Proof.
  intros Hp. unfold arena.drop. rewrite filter_cons_False by (intros H; apply H; reflexivity).
  induction live as [|q live IH]; [reflexivity|].
  rewrite filter_cons_True.
  - f_equal. apply IH. intros H. apply Hp. apply elem_of_cons. right. exact H.
  - intros ->. apply Hp. apply list_elem_of_here.
Qed.

Lemma allocated_pop_tail a l (x t : Z) :
  (x, t, false) ∈ layout a l -> (x, t, false) ∈ layout a (fst (pop_free_tail l)).
Proof.
  destruct (pop_free_tail_cases l) as [[_ ->]|(l' & sb & -> & _ & ->)]; simpl; [auto|].
  rewrite layout_app. intros H. apply elem_of_app in H as [H|H]; [exact H|].
  simpl in H. apply list_elem_of_singleton in H. discriminate.
Qed.

Lemma allocated_pop_head a l (x t : Z) :
  (x, t, false) ∈ layout a l ->
  (x, t, false) ∈ layout (a + snd (pop_free_head l)) (fst (pop_free_head l)).
Proof.
  destruct (pop_free_head_cases l) as [[_ ->]|(l' & sa & -> & _ & ->)]; simpl.
  - rewrite Z.add_0_r. auto.
  - intros H. apply elem_of_cons in H as [H|H]; [discriminate|].
    replace (a + (sa + 32)) with (a + sa + sizeof_chunk) by (consts; lia). exact H.
Qed.

Lemma allocated_kept_by_free a l1 s l2 (x t : Z) :
  (x, t, false) ∈ layout a (l1 ++ (s, false) :: l2) -> x <> a + total l1 ->
  (x, t, false) ∈ layout a
    (fst (pop_free_tail l1) ++
     (s + snd (pop_free_tail l1) + snd (pop_free_head l2), true) ::
     fst (pop_free_head l2)).
Proof.
  intros H Hne. rewrite layout_app in H. rewrite layout_app.
  destruct (payloads_pop_tail a l1) as [_ Et].
  apply elem_of_app in H as [H|H].
  - apply elem_of_app. left. apply allocated_pop_tail. exact H.
  - simpl in H. apply elem_of_cons in H as [H|H]; [inversion H; lia|].
    apply elem_of_app. right. simpl. apply elem_of_cons. right.
    apply allocated_pop_head in H.
    replace (a + total (fst (pop_free_tail l1)) +
             (s + snd (pop_free_tail l1) + snd (pop_free_head l2)) + sizeof_chunk)
      with (a + total l1 + s + sizeof_chunk + snd (pop_free_head l2)) by lia.
    exact H.
Qed.

Lemma allocated_kept_by_alloc a l1 s r l2 (x t : Z) :
  (x, t, false) ∈ layout a (l1 ++ (s, true) :: l2) ->
  (x, t, false) ∈ layout a (l1 ++ alloc_split s r ++ l2).
Proof.
  intros H. rewrite layout_app in H. rewrite !layout_app.
  destruct (payloads_alloc_split (a + total l1) s r) as [_ Et].
  apply elem_of_app in H as [H|H]; apply elem_of_app; [left; exact H|right].
  simpl in H. apply elem_of_cons in H as [H|H]; [discriminate|].
  apply elem_of_app. right. rewrite Et.
  replace (a + total l1 + (s + 32)) with (a + total l1 + s + sizeof_chunk) by (consts; lia).
  exact H.
Qed.

Lemma allocated_kept_by_extend a l s r (x t : Z) :
  (x, t, false) ∈ layout a l ->
  (x, t, false) ∈ layout a (fst (pop_free_tail l) ++ alloc_split s r).
Proof.
  intros H. rewrite layout_app. apply elem_of_app. left. apply allocated_pop_tail. exact H.
Qed.

Section more.

Variable driver_ : Z.
Hypothesis driver_aligned : driver_ mod 16 = 0.
Hypothesis driver_range : 0 < driver_ < 2 ^ 63.
Variable ftruncate_ok : Z -> bool.

Local Abbreviation first := (heap.first driver_).
Local Abbreviation Rep := (heap.Rep driver_).
Local Abbreviation reachable := (arena.reachable driver_ ftruncate_ok).

(** What [allocate] does for a request whose size arithmetic does not wrap,
    with fuel for the whole search. *)
Lemma allocate_small_cases st l fl n fuel :
  Rep (mem st) (size_ st) l fl -> sem_ st = 1 -> 0 < n -> n + 47 < 2 ^ 64 ->
  (length l + 66 <= fuel)%nat ->
  (exists x s l1 l2 m' fl',
     find_fit (aligned_size n) (candidates fl (Z.log2 (aligned_size n))) = Some (x, s) /\
     l = l1 ++ (s, true) :: l2 /\ x = first + total l1 /\ aligned_size n <= s /\
     driver.allocate driver_ ftruncate_ok fuel n st = Ok (x + 16) (set_mem m' st) /\
     Rep m' (size_ st) (l1 ++ alloc_split s (aligned_size n) ++ l2) fl') \/
  (exists (k : nat) m' fl',
     find_fit (aligned_size n) (candidates fl (Z.log2 (aligned_size n))) = None /\
     aligned_size n + 32 <= size_ st * 2 ^ Z.of_nat k - size_ st /\
     driver.allocate driver_ ftruncate_ok fuel n st =
       Ok (first + total (fst (pop_free_tail l)) + 16)
          (set_mem m' (set_size_ (size_ st * 2 ^ Z.of_nat k) st)) /\
     Rep m' (size_ st * 2 ^ Z.of_nat k)
       (fst (pop_free_tail l) ++
        alloc_split (size_ st * 2 ^ Z.of_nat k - size_ st - 32 + snd (pop_free_tail l))
          (aligned_size n)) fl') \/
  (exists e,
     find_fit (aligned_size n) (candidates fl (Z.log2 (aligned_size n))) = None /\
     (e = bad_alloc \/ e = system_error "ftruncate") /\
     driver.allocate driver_ ftruncate_ok fuel n st = Throw e st).
Proof.
  intros HR Hsem Hn Hsmall Hfuel.
  assert (Hsem' : 0 < sem_ st) by lia.
  destruct (find_fit (aligned_size n) (candidates fl (Z.log2 (aligned_size n))))
    as [[x s]|] eqn:Eff.
  - destruct (allocate_fit driver_ driver_aligned driver_range ftruncate_ok
                st l fl n fuel x s HR Hsem' Hn Hfuel ltac:(lia) Eff)
      as (l1 & l2 & m' & fl' & Hl & Hx & Hle & Ha & HR').
    left. exists x, s, l1, l2, m', fl'. auto 10.
  - destruct (allocate_extend driver_ driver_aligned driver_range ftruncate_ok
                st l fl n fuel HR Hsem' Hn Hfuel Hsmall Eff)
      as (k & Hstop & Hall & Hoom & Hft & Hok).
    right.
    destruct (Z_lt_le_dec (size_ st * 2 ^ Z.of_nat k - size_ st) (aligned_size n + 32))
      as [Hlt|Hge].
    { right. exists bad_alloc. split; [reflexivity|]. split; [left; reflexivity|].
      exact (Hoom Hlt). }
    destruct (ftruncate_ok (size_ st * 2 ^ Z.of_nat k)) eqn:Eft.
    + left. destruct (Hok Hge eq_refl) as (m' & fl' & Ha & HR').
      exists k, m', fl'. auto.
    + right. exists (system_error "ftruncate"). split; [reflexivity|].
      split; [right; reflexivity|]. exact (Hft Hge eq_refl).
Qed.

Lemma allocate_to_full_fuel st (l : list (Z * bool)) n fuel :
  driver.allocate driver_ ftruncate_ok fuel n st <> Timeout ->
  driver.allocate driver_ ftruncate_ok (Nat.max fuel (length l + 66)) n st =
  driver.allocate driver_ ftruncate_ok fuel n st.
Proof.
  intros Hne.
  apply (fuel_stable (fun f => driver.allocate driver_ ftruncate_ok f n)
           fuel (Nat.max fuel (length l + 66)) st
           (fun f => allocate_le driver_ ftruncate_ok f n) (Nat.le_max_l _ _) Hne).
Qed.

Lemma rep_size_pos m sz l fl : Rep m sz l fl -> 2096 <= sz.
Proof. intros HR. exact (proj2 (rep_fuel_bound driver_ ftruncate_ok _ _ _ _ HR)). Qed.

Lemma no_fit_all_small m sz l fl r :
  Rep m sz l fl -> find_fit r (candidates fl (Z.log2 r)) = None -> 16 <= r ->
  forall x s, (x, s, true) ∈ layout first l -> s < r.
Proof.
  intros HR Eff Hr x s Hin.
  destruct (rep_free_listed driver_ driver_aligned ftruncate_ok _ _ _ _ _ _ HR Hin)
    as (Hlog & Hiff & _).
  destruct (Z_lt_le_dec s r) as [Hlt|Hge]; [exact Hlt|exfalso].
  assert (Hin' : (x, s) ∈ candidates fl (Z.log2 r)).
  { unfold candidates.
    assert (Hl2 : Z.log2 r <= Z.log2 s) by (apply Z.log2_le_mono; exact Hge).
    assert (Hl0 : 0 <= Z.log2 r) by apply Z.log2_nonneg.
    assert (Hgen : forall k i, i <= Z.log2 s < i + Z.of_nat k ->
              (x, s) ∈ classes_from k i fl).
    { induction k as [|k IH]; intros i Hi; [lia|]. simpl.
      apply elem_of_app. destruct (Z.eq_dec i (Z.log2 s)) as [->|Hne].
      - left. apply Hiff; [exact Hlog|reflexivity].
      - right. apply IH. lia. }
    apply Hgen. revert Hlog. consts. lia. }
  pose proof (find_fit_none _ _ _ _ Eff Hin'). lia.
Qed.

(** X1: first fit.  In a reachable state, a request whose arithmetic does not
    wrap and that is served without growing the segment returns the payload
    of the first chunk, in the order class floor(log2 r), r = the rounded
    size, then the next classes, each list from its head, whose payload is
    at least r: every chunk met earlier is smaller. *)
Theorem allocate_returns_first_fit st live n fuel p st' :
  reachable st live -> 0 < n -> n + 47 < 2 ^ 64 ->
  driver.allocate driver_ ftruncate_ok fuel n st = Ok p st' ->
  size_ st' = size_ st ->
  exists l fl L1 s L2,
    Rep (mem st) (size_ st) l fl /\
    candidates fl (Z.log2 (aligned_size n)) = L1 ++ (p - 16, s) :: L2 /\
    (forall y t, (y, t) ∈ L1 -> t < aligned_size n) /\
    aligned_size n <= s /\
    (p - 16, s, true) ∈ layout first l.
Proof.
  intros Hreach Hn Hsmall Ha Hsize.
  destruct (reachable_inv driver_ driver_aligned driver_range ftruncate_ok st live Hreach)
    as (Hsem & l & fl & HR & Hlive).
  rewrite <- (allocate_to_full_fuel st l n fuel) in Ha by (rewrite Ha; discriminate).
  destruct (allocate_small_cases st l fl n _ HR Hsem Hn Hsmall (Nat.le_max_r fuel _))
    as [(x & s & l1 & l2 & m' & fl' & Eff & Hl & Hx & Hle & Ha' & HR')|
        [(k & m' & fl' & _ & Hge & Ha' & _)|(e & _ & _ & Ha')]].
  - rewrite Ha in Ha'. inversion Ha'; subst p st'.
    destruct (find_fit_first _ _ _ _ Eff) as (L1 & L2 & EL & Hall & _).
    exists l, fl, L1, s, L2. split; [exact HR|].
    replace (x + 16 - 16) with x by lia.
    split; [exact EL|]. split; [exact Hall|]. split; [exact Hle|].
    subst l x. apply layout_mid.
  - rewrite Ha in Ha'. inversion Ha'; subst p st'. simpl in Hsize.
    pose proof (aligned_size_facts n Hn). lia.
  - rewrite Ha in Ha'. discriminate.
Qed.

(** X2: failure without harm.  In a reachable state, when a request whose
    arithmetic does not wrap throws, the exception is bad_alloc or the
    failure of ftruncate, no free chunk was large enough, and the state is
    the one before the call: nothing was written and the lock is free. *)
Theorem allocate_failure_keeps_arena st live n fuel e st' :
  reachable st live -> 0 < n -> n + 47 < 2 ^ 64 ->
  driver.allocate driver_ ftruncate_ok fuel n st = Throw e st' ->
  st' = st /\ (e = bad_alloc \/ e = system_error "ftruncate") /\
  exists l fl, Rep (mem st) (size_ st) l fl /\
    forall x s, (x, s, true) ∈ layout first l -> s < aligned_size n.
Proof.
  intros Hreach Hn Hsmall Ha.
  destruct (reachable_inv driver_ driver_aligned driver_range ftruncate_ok st live Hreach)
    as (Hsem & l & fl & HR & Hlive).
  rewrite <- (allocate_to_full_fuel st l n fuel) in Ha by (rewrite Ha; discriminate).
  destruct (allocate_small_cases st l fl n _ HR Hsem Hn Hsmall (Nat.le_max_r fuel _))
    as [(x & s & l1 & l2 & m' & fl' & Eff & Hl & Hx & Hle & Ha' & HR')|
        [(k & m' & fl' & _ & Hge & Ha' & _)|(e' & Eff & He & Ha')]].
  - rewrite Ha in Ha'. discriminate.
  - rewrite Ha in Ha'. discriminate.
  - rewrite Ha in Ha'. inversion Ha'; subst e' st'.
    split; [reflexivity|]. split; [exact He|].
    exists l, fl. split; [exact HR|].
    apply (no_fit_all_small _ _ _ _ _ HR Eff).
    pose proof (aligned_size_facts n Hn) as (_ & _ & Hr3). exact Hr3.
Qed.


(** X3: giving back what was just taken.  When a request is served without
    growing the segment, deallocating the pointer returned restores the
    tiling of the arena: the same chunks with the same sizes and states as
    before the allocation, the same committed size and the same live
    pointers, the chunk taken being free again and merged back with the
    part split off. *)
Theorem deallocate_undoes_allocate st live n fuel p st1 :
  reachable st live -> 0 < n -> n + 47 < 2 ^ 64 ->
  driver.allocate driver_ ftruncate_ok fuel n st = Ok p st1 ->
  size_ st1 = size_ st ->
  exists st2 l fl fl2,
    driver.deallocate driver_ 1 p n st1 = Ok tt st2 /\
    Rep (mem st) (size_ st) l fl /\
    Rep (mem st2) (size_ st2) l fl2 /\
    size_ st2 = size_ st /\ sem_ st2 = sem_ st /\
    reachable st2 live.
Proof.
  intros Hreach Hn Hsmall Ha Hsize.
  destruct (reachable_inv driver_ driver_aligned driver_range ftruncate_ok st live Hreach)
    as (Hsem & l & fl & HR & Hlive).
  pose proof Ha as Ha0.
  rewrite <- (allocate_to_full_fuel st l n fuel) in Ha by (rewrite Ha; discriminate).
  destruct (allocate_small_cases st l fl n _ HR Hsem Hn Hsmall (Nat.le_max_r fuel _))
    as [(x & s & l1 & l2 & m' & fl' & Eff & Hl & Hx & Hle & Ha' & HR')|
        [(k & m' & fl' & _ & Hge & Ha' & _)|(e & _ & _ & Ha')]].
  2:{ rewrite Ha in Ha'. inversion Ha'; subst p st1. simpl in Hsize.
      pose proof (aligned_size_facts n Hn). lia. }
  2:{ rewrite Ha in Ha'. discriminate. }
  rewrite Ha in Ha'. inversion Ha'; subst p st1. clear Ha'.
  subst l x.
  destruct (last_free_no_adj l1 s l2 (proj2 HR)) as [Et Eh].
  destruct (alloc_split_head s (aligned_size n)) as [tl Esplit].
  assert (Etl : pop_free_head (tl ++ l2) =
                (l2, s - (if min_chunk_size_ <=? s - aligned_size n
                          then aligned_size n else s))).
  { revert Esplit. unfold alloc_split.
    destruct (min_chunk_size_ <=? s - aligned_size n); intros E; inversion E; subst tl; simpl.
    - f_equal. consts. lia.
    - rewrite Eh. f_equal. lia. }
  rewrite Esplit in HR'. simpl in HR'.
  destruct (deallocate_spec driver_ driver_aligned driver_range ftruncate_ok
              (set_mem m' st) l1 _ (tl ++ l2) fl' 1 n HR' ltac:(simpl; lia) ltac:(lia))
    as (m2 & fl2 & Hd & HR2).
  rewrite Et, Etl in HR2. simpl in HR2.
  replace ((if min_chunk_size_ <=? s - aligned_size n then aligned_size n else s) + 0 +
           (s - (if min_chunk_size_ <=? s - aligned_size n then aligned_size n else s)))
    with s in HR2 by lia.
  exists (set_mem m2 (set_mem m' st)), (l1 ++ (s, true) :: l2), fl, fl2.
  split; [exact Hd|]. split; [exact HR|]. split; [exact HR2|].
  split; [reflexivity|]. split; [reflexivity|].
  assert (Hp : first + total l1 + 16 ∉ live).
  { intros Hin. apply (proj2 Hlive) in Hin. apply payloads_in in Hin as [s' Hin].
    replace (first + total l1 + 16 - 16) with (first + total l1) in Hin by lia.
    pose proof (hole_sizes1 _ _ _ _ _ _ _ (proj1 HR)) as Hs.
    pose proof (layout_bounds _ _ _ _ _ Hs Hin).
    pose proof (layout_bounds _ _ _ _ _ Hs (layout_mid first l1 s true l2)).
    destruct (layout_disjoint _ _ _ _ _ _ _ _ Hs Hin (layout_mid first l1 s true l2))
      as [E|E]; [congruence|lia]. }
  rewrite <- (drop_fresh _ _ Hp).
  eapply arena.reach_deallocate; [|right; apply list_elem_of_here|exact Hd].
  assert (Hne : (first + total l1 + 16 =? NULL) = false).
  { apply Z.eqb_neq.
    pose proof (total_nonneg l1 (proj1 (proj1 (sizes_ok_app _ _)
                  (hole_sizes1 _ _ _ _ _ _ _ (proj1 HR))))).
    hconsts. lia. }
  pose proof (arena.reach_allocate driver_ ftruncate_ok fuel n st live _ _ Hreach
                ltac:(consts; lia) Ha0) as Hr.
  rewrite Hne in Hr. exact Hr.
Qed.

(** X4: the blocks handed out.  In a reachable state the live pointers are
    pairwise distinct; each is 16-aligned and is the payload of an allocated
    chunk that lies inside the committed segment behind the driver; and the
    chunks of two live pointers do not overlap, headers and footers
    included. *)
Theorem live_blocks_disjoint st live :
  reachable st live ->
  NoDup live /\
  forall p, p ∈ live ->
    p mod data_align_ = 0 /\
    chunk.allocated (mem st) (p - 16) = true /\
    min_data_size_ <= chunk.size (mem st) (p - 16) /\
    chunk.size (mem st) (p - 16) mod data_align_ = 0 /\
    driver_ + sizeof_driver + sizeof_chunk_header <= p /\
    p + chunk.size (mem st) (p - 16) + sizeof_chunk_footer <= driver_ + size_ st /\
    forall q, q ∈ live -> q <> p ->
      p + chunk.size (mem st) (p - 16) + sizeof_chunk <= q \/
      q + chunk.size (mem st) (q - 16) + sizeof_chunk <= p.
Proof.
  intros Hreach.
  destruct (reachable_inv driver_ driver_aligned driver_range ftruncate_ok st live Hreach)
    as (Hsem & l & fl & HR & Hnd & Hiff).
  split; [exact Hnd|].
  assert (Hchunk : forall p, p ∈ live -> exists s,
            (p - 16, s, false) ∈ layout first l /\ chunk.size (mem st) (p - 16) = s).
  { intros p Hp. apply Hiff in Hp. apply payloads_in in Hp as [s Hin].
    exists s. split; [exact Hin|].
    destruct (rep_chunk_bounds driver_ driver_aligned ftruncate_ok _ _ _ _ _ _ _ HR Hin)
      as (H1 & H2 & H3 & _ & _ & H6 & H7 & _).
    rewrite size_eq by (revert H1 H2 H3 H6; hconsts; lia). exact H7. }
  intros p Hp. destruct (Hchunk p Hp) as (s & Hin & Es). rewrite Es.
  destruct (rep_chunk_bounds driver_ driver_aligned ftruncate_ok _ _ _ _ _ _ _ HR Hin)
    as (H1 & H2 & H3 & H4 & H5 & H6 & H7 & H8).
  split; [consts; lia|].
  split.
  { unfold chunk.allocated. rewrite (footer_eq (mem st) _ _ H7).
    - wsimp. rewrite Z.add_0_r, H8. reflexivity.
    - revert H1. hconsts. lia.
    - lia.
    - revert H2 H6. hconsts. lia. }
  split; [consts; lia|]. split; [consts; lia|].
  split; [revert H1; hconsts; lia|]. split; [revert H2; consts; lia|].
  intros q Hq Hne. destruct (Hchunk q Hq) as (t & Hin' & Et). rewrite Et.
  pose proof (hole_sizes1 _ _ _ _ _ _ _ (proj1 HR)) as Hs.
  destruct (layout_disjoint _ _ _ _ _ _ _ _ Hs Hin Hin') as [E|E].
  - inversion E. lia.
  - consts. lia.
Qed.

(** X5: calls come back.  In a reachable state the semaphore is free and the
    committed size is a multiple of 16 between sizeof(driver) and
    2 * max_size_; with size_ units of fuel, [allocate] returns or throws
    (its loops over the free lists end, and it does not wait), leaving the
    semaphore free and the segment no smaller; and [deallocate] of a live
    pointer returns, leaving the committed size as it was. *)
Theorem reachable_calls_return st live n fuel :
  reachable st live -> 0 <= n < 2 ^ 64 -> (Z.to_nat (size_ st) <= fuel)%nat ->
  sem_ st = 1 /\ sizeof_driver <= size_ st <= 2 * max_size_ /\
  size_ st mod data_align_ = 0 /\
  ((exists p st', driver.allocate driver_ ftruncate_ok fuel n st = Ok p st' /\
                   sem_ st' = 1 /\ size_ st <= size_ st') \/
   (exists e st', driver.allocate driver_ ftruncate_ok fuel n st = Throw e st' /\
                   sem_ st' = 1 /\ size_ st <= size_ st')) /\
  (forall p, p ∈ live ->
     exists st', driver.deallocate driver_ fuel p n st = Ok tt st' /\
                 sem_ st' = 1 /\ size_ st' = size_ st).
Proof.
  intros Hreach Hn Hfuel.
  destruct (reachable_inv driver_ driver_aligned driver_range ftruncate_ok st live Hreach)
    as (Hsem & l & fl & HR & Hlive).
  destruct (rep_fuel_bound driver_ ftruncate_ok _ _ _ _ HR) as [Hlen Hsz].
  pose proof (hole_bound _ _ _ _ _ _ _ (proj1 HR)) as Hbd.
  pose proof (hole_end _ _ _ _ _ _ _ (proj1 HR)) as Hend. simpl in Hend.
  pose proof (total_mod l (hole_sizes1 _ _ _ _ _ _ _ (proj1 HR))) as Htm.
  split; [exact Hsem|]. split; [consts; lia|].
  split; [revert Hend; hconsts; lia|].
  assert (Hcases :
    (exists p st', driver.allocate driver_ ftruncate_ok fuel n st = Ok p st' /\
                   sem_ st' = 1 /\ size_ st <= size_ st') \/
    (exists e st', driver.allocate driver_ ftruncate_ok fuel n st = Throw e st' /\
                   sem_ st' = 1 /\ size_ st <= size_ st')).
  { destruct (Z.eq_dec n 0) as [->|Hn0].
    - left. exists NULL, st. split; [reflexivity|]. split; [exact Hsem|lia].
    - destruct (allocate_outcome driver_ driver_aligned driver_range ftruncate_ok
                  st l fl live n fuel HR Hsem Hlive ltac:(lia) ltac:(lia))
        as [(p & st' & l' & fl' & s & Ha & Hs' & _ & _ & _ & _ & _ & _ & Hge)|
            (e & st' & l' & fl' & Ha & Hs' & _ & _ & Hge)].
      + left. exists p, st'. auto.
      + right. exists e, st'. auto. }
  split; [exact Hcases|].
  intros p Hp.
  pose proof (proj1 (proj2 Hlive p) Hp) as Hpay.
  apply payloads_in in Hpay as [s Hin].
  destruct (rep_chunk_position driver_ _ _ _ _ _ _ _ HR Hin) as (l1 & l2 & Hl & Hx).
  subst l.
  destruct (deallocate_spec driver_ driver_aligned driver_range ftruncate_ok
              st l1 s l2 fl fuel n HR ltac:(lia) ltac:(lia)) as (m' & fl' & Hd & _).
  replace (first + total l1 + 16) with p in Hd by lia.
  exists (set_mem m' st). split; [exact Hd|]. split; [exact Hsem|reflexivity].
Qed.

(** X7: the constructor.  For a size between min_size_ and max_size_ that is
    a multiple of 16, constructing the driver at [driver_] sets the
    semaphore to 1, records the mapping address and the size, and leaves one
    free chunk that covers everything behind the driver; the state is the
    start of every history.  For a size that is not a multiple of 16 the
    constructor throws the logic error of [add_chunk]. *)
Theorem construct_fresh_arena (fuel : nat) (size : Z) (st0 : state) :
  min_size_ <= size <= max_size_ -> (2 <= fuel)%nat ->
  (size mod data_align_ = 0 ->
     exists st fl,
       driver.construct driver_ fuel size st0 = Ok tt st /\
       sem_ st = 1 /\ addr_ st = driver_ /\ size_ st = size /\
       Rep (mem st) size [(size - sizeof_driver - sizeof_chunk, true)] fl /\
       chunk.size (mem st) (chunk.first_chunk driver_) = size - sizeof_driver - sizeof_chunk /\
       (forall i, 0 <= i < n_free_list_ ->
          fl i = if i =? Z.log2 (size - sizeof_driver - sizeof_chunk)
                 then [(chunk.first_chunk driver_, size - sizeof_driver - sizeof_chunk)]
                 else []) /\
       reachable st []) /\
  (size mod data_align_ <> 0 ->
     exists st, driver.construct driver_ fuel size st0 =
                  Throw (logic_error "add_chunk: size unaligned") st).
Proof.
  intros Hsz Hfuel. split.
  - intros Hm. destruct fuel as [|[|f]]; [lia|lia|].
    destruct (construct_rep driver_ driver_aligned driver_range ftruncate_ok
                f st0 size Hsz Hm) as (m' & fl' & Hc & HR).
    exists (mkState 1 driver_ size m'), fl'.
    split; [exact Hc|]. split; [reflexivity|]. split; [reflexivity|].
    split; [reflexivity|]. split; [exact HR|].
    assert (Hin : (first, size - sizeof_driver - sizeof_chunk, true)
                    ∈ layout first [(size - sizeof_driver - sizeof_chunk, true)]).
    { simpl. apply list_elem_of_here. }
    destruct (rep_chunk_bounds driver_ driver_aligned ftruncate_ok _ _ _ _ _ _ _ HR Hin)
      as (H1 & H2 & H3 & _ & _ & H6 & H7 & _).
    destruct (rep_free_listed driver_ driver_aligned ftruncate_ok _ _ _ _ _ _ HR Hin)
      as (Hlog & Hiff & Hnd).
    revert H3; intros H3.
    assert (Ef : chunk.first_chunk driver_ = first).
    { unfold chunk.first_chunk. hconsts. wsimp. reflexivity. }
    rewrite Ef.
    split; [rewrite size_eq by (revert H1 H2 H3 H6; hconsts; lia); exact H7|].
    split.
    + intros i Hi.
      assert (Hsub : forall u, u ∈ fl' i ->
                u = (first, size - sizeof_driver - sizeof_chunk) /\
                i = Z.log2 (size - sizeof_driver - sizeof_chunk)).
      { intros [x s] Hu.
        destruct (hole_in _ _ _ _ _ _ _ (proj1 HR) i x s Hi Hu) as [Hc' Hl'].
        unfold heap.chunks_of in Hc'. simpl in Hc'.
        apply list_elem_of_singleton in Hc'. inversion Hc'; subst. auto. }
      destruct (Z.eqb_spec i (Z.log2 (size - sizeof_driver - sizeof_chunk))) as [->|Hne].
      * pose proof (proj2 (Hiff _ Hlog) eq_refl) as Hmem.
        destruct (fl' (Z.log2 (size - sizeof_driver - sizeof_chunk))) as [|u [|v tl]].
        -- inversion Hmem.
        -- destruct (Hsub u (list_elem_of_here _ _)) as [-> _]. reflexivity.
        -- destruct (Hsub u (list_elem_of_here _ _)) as [-> _].
           destruct (Hsub v ltac:(apply elem_of_cons; right; apply list_elem_of_here))
             as [-> _].
           inversion Hnd as [|? ? Hnotin _]; subst. exfalso. apply Hnotin.
           apply list_elem_of_here.
      * destruct (fl' i) as [|u tl]; [reflexivity|].
        destruct (Hsub u (list_elem_of_here _ _)) as [_ E]. contradiction.
    + eapply arena.reach_construct; [exact Hsz|exact Hc].
  - intros Hm. unfold driver.construct.
    unfold bind at 1. unfold modify at 1. unfold bind at 1. unfold modify at 1.
    unfold bind at 1. unfold modify at 1. unfold bind at 1. unfold modify at 1.
    rewrite wsub_small by (revert Hsz; consts; lia).
    destruct (Z.leb_spec min_chunk_size_ (size - sizeof_driver)) as [_|Hlt];
      [|revert Hlt Hsz; consts; lia].
    destruct fuel as [|fuel]; [lia|].
    eexists. apply bind_throw. cbn [chunk.add_chunk]. rewrite land_align.
    destruct (Z.eqb_spec ((size - sizeof_driver) mod 16) 0) as [E'|_].
    { revert Hm E'. consts. lia. }
    reflexivity.
Qed.

(** X14: growing the segment.  In a reachable state, when a request whose
    arithmetic does not wrap is served and the committed size has changed,
    no free chunk was large enough for the rounded size r; the size was
    doubled k >= 1 times, k being the least count that provides r plus the
    chunk overhead, every earlier candidate being below max_size_; ftruncate
    was asked for the new size and succeeded; and the pointer returned is
    the payload of the chunk that starts where the old segment ended, or at
    the free chunk that ended it. *)
Theorem allocate_grows_when_nothing_fits st live n fuel p st' :
  reachable st live -> 0 < n -> n + 47 < 2 ^ 64 ->
  driver.allocate driver_ ftruncate_ok fuel n st = Ok p st' ->
  size_ st' <> size_ st ->
  exists l fl (k : nat),
    Rep (mem st) (size_ st) l fl /\
    (forall x s, (x, s, true) ∈ layout first l -> s < aligned_size n) /\
    (1 <= k)%nat /\ size_ st' = size_ st * 2 ^ Z.of_nat k /\
    aligned_size n + sizeof_chunk <= size_ st' - size_ st /\
    (forall i : nat, (i < k)%nat ->
       size_ st * 2 ^ Z.of_nat i < max_size_ /\
       size_ st * 2 ^ Z.of_nat i - size_ st < aligned_size n + sizeof_chunk) /\
    ftruncate_ok (size_ st') = true /\
    p = driver_ + size_ st - snd (pop_free_tail l) + sizeof_chunk_header.
Proof.
  intros Hreach Hn Hsmall Ha Hsize.
  destruct (reachable_inv driver_ driver_aligned driver_range ftruncate_ok st live Hreach)
    as (Hsem & l & fl & HR & Hlive).
  rewrite <- (allocate_to_full_fuel st l n fuel) in Ha by (rewrite Ha; discriminate).
  pose proof (aligned_size_facts n Hn) as (Hr1 & Hr2 & Hr3).
  destruct (find_fit (aligned_size n) (candidates fl (Z.log2 (aligned_size n))))
    as [[x s]|] eqn:Eff.
  { destruct (allocate_fit driver_ driver_aligned driver_range ftruncate_ok
                st l fl n _ x s HR ltac:(lia) Hn (Nat.le_max_r fuel _) ltac:(lia) Eff)
      as (l1 & l2 & m' & fl' & _ & _ & _ & Ha' & _).
    rewrite Ha in Ha'. inversion Ha'; subst p st'. exfalso. apply Hsize. reflexivity. }
  destruct (allocate_extend driver_ driver_aligned driver_range ftruncate_ok
              st l fl n _ HR ltac:(lia) Hn (Nat.le_max_r fuel _) Hsmall Eff)
    as (k & Hstop & Hall & Hoom & Hft & Hok).
  destruct (Z_lt_le_dec (size_ st * 2 ^ Z.of_nat k - size_ st) (aligned_size n + 32))
    as [Hlt|Hge].
  { rewrite (Hoom Hlt) in Ha. discriminate. }
  destruct (ftruncate_ok (size_ st * 2 ^ Z.of_nat k)) eqn:Eft.
  2:{ rewrite (Hft Hge eq_refl) in Ha. discriminate. }
  destruct (Hok Hge eq_refl) as (m' & fl' & Ha' & HR').
  rewrite Ha in Ha'. inversion Ha'; subst p st'. cbn [size_ set_mem set_size_] in *.
  exists l, fl, k. split; [exact HR|].
  split; [exact (no_fit_all_small _ _ _ _ _ HR Eff Hr3)|].
  split.
  { destruct k; [simpl in Hge; lia|lia]. }
  split; [reflexivity|]. split; [consts; lia|]. split; [exact Hall|].
  split; [exact Eft|].
  pose proof (hole_end _ _ _ _ _ _ _ (proj1 HR)) as Hend. simpl in Hend.
  destruct (payloads_pop_tail first l) as [_ Et]. consts. lia.
Qed.

Lemma rep_allocated_chunk m sz l fl x t :
  Rep m sz l fl -> (x, t, false) ∈ layout first l ->
  chunk.size m x = t /\ chunk.allocated m x = true.
Proof.
  intros HR Hin.
  destruct (rep_chunk_bounds driver_ driver_aligned ftruncate_ok _ _ _ _ _ _ _ HR Hin)
    as (H1 & H2 & H3 & _ & _ & H6 & H7 & H8).
  assert (Hx : 0 < x) by (revert H1; hconsts; lia).
  assert (Hb : x + t + 32 < 2 ^ 64) by (revert H2 H6; hconsts; lia).
  split; [rewrite size_eq by lia; exact H7|].
  unfold chunk.allocated. rewrite (footer_eq m _ _ H7) by (try lia; consts; lia).
  wsimp. rewrite Z.add_0_r, H8. reflexivity.
Qed.

(** X15: other blocks are left alone.  In a reachable state, let q be a live
    pointer.  An allocation that returns, and the deallocation of another
    live pointer, leave the chunk of q as it was: still allocated, with the
    same payload size in its header. *)
Theorem other_live_blocks_untouched st live q :
  reachable st live -> q ∈ live ->
  chunk.allocated (mem st) (q - 16) = true /\
  (forall fuel n p st',
     0 < n < 2 ^ 64 ->
     driver.allocate driver_ ftruncate_ok fuel n st = Ok p st' ->
     p <> q /\
     chunk.size (mem st') (q - 16) = chunk.size (mem st) (q - 16) /\
     chunk.allocated (mem st') (q - 16) = true) /\
  (forall fuel p n st',
     p ∈ live -> p <> q ->
     driver.deallocate driver_ fuel p n st = Ok tt st' ->
     chunk.size (mem st') (q - 16) = chunk.size (mem st) (q - 16) /\
     chunk.allocated (mem st') (q - 16) = true).
Proof.
  intros Hreach Hq.
  destruct (reachable_inv driver_ driver_aligned driver_range ftruncate_ok st live Hreach)
    as (Hsem & l & fl & HR & Hlive).
  pose proof (proj1 (proj2 Hlive q) Hq) as Hpay.
  apply payloads_in in Hpay as [t Hin].
  destruct (rep_allocated_chunk _ _ _ _ _ _ HR Hin) as [Es Eal].
  split; [exact Eal|]. split.
  - intros fuel n p st' Hn Ha.
    destruct (allocate_outcome_any driver_ driver_aligned driver_range ftruncate_ok
                st l fl live n fuel HR Hsem Hlive Hn ltac:(rewrite Ha; discriminate))
      as [(p' & st'' & l' & fl' & s & Ha' & _ & _ & Hlive' & _ & _ & _ & Hsmall & _)|
          (e & st'' & l' & fl' & Ha' & _)].
    2:{ rewrite Ha in Ha'. discriminate. }
    rewrite Ha in Ha'. inversion Ha'; subst p' st''. clear Ha'.
    split.
    { intros ->. pose proof (proj1 Hlive') as Hnd. inversion Hnd; subst. contradiction. }
    rewrite <- (allocate_to_full_fuel st l n fuel) in Ha by (rewrite Ha; discriminate).
    destruct (allocate_small_cases st l fl n _ HR Hsem ltac:(lia) Hsmall
                (Nat.le_max_r fuel _))
      as [(x & s0 & l1 & l2 & m' & fl1 & _ & Hl & _ & _ & Ha' & HR')|
          [(k & m' & fl1 & _ & _ & Ha' & HR')|(e & _ & _ & Ha')]].
    + rewrite Ha in Ha'. inversion Ha'; subst p st'. subst l.
      rewrite Es.
      apply (rep_allocated_chunk _ _ _ _ _ _ HR').
      apply allocated_kept_by_alloc. exact Hin.
    + rewrite Ha in Ha'. inversion Ha'; subst p st'.
      rewrite Es.
      apply (rep_allocated_chunk _ _ _ _ _ _ HR').
      apply allocated_kept_by_extend. exact Hin.
    + rewrite Ha in Ha'. discriminate.
  - intros fuel p n st' Hp Hne Hd.
    destruct (deallocate_live driver_ driver_aligned driver_range ftruncate_ok
                st l fl live fuel p n st' HR Hsem Hlive Hp Hd)
      as (l1 & s & l2 & m' & fl' & Hl & Ep & -> & HR' & _).
    subst l. rewrite Es.
    apply (rep_allocated_chunk _ _ _ _ _ _ HR').
    apply allocated_kept_by_free; [exact Hin|lia].
Qed.

End more.

(** X6: a pointer that is not 16-aligned is refused by [get_chunk]:
    [deallocate] throws the logic error, releases the lock and leaves the
    state as it was, whatever the memory holds. *)
Theorem deallocate_unaligned_pointer (driver_ : Z) (st : state) (fuel : nat) (p n : Z) :
  0 < sem_ st -> 0 < p < 2 ^ 64 -> p mod data_align_ <> 0 ->
  driver.deallocate driver_ fuel p n st =
    Throw (logic_error "get_chunk: data unaligned") st.
Proof.
  intros Hsem Hp Hm. unfold driver.deallocate.
  destruct (Z.eqb_spec p NULL) as [E|_]; [unfold NULL in E; lia|].
  rewrite (with_lock_throw _ st (logic_error "get_chunk: data unaligned")
             (set_sem_ (sem_ st - 1) st)).
  - rewrite relock_id. reflexivity.
  - exact Hsem.
  - apply bind_throw. unfold chunk.get_chunk. rewrite land_align.
    destruct (Z.eqb_spec (p mod 16) 0) as [E|_]; [|reflexivity].
    exfalso. apply Hm. exact E.
  - reflexivity.
Qed.

(** X8: [get_chunk] and [data] are inverse to each other on 16-aligned
    addresses: the chunk of the payload of c is c, and the payload of the
    chunk that [get_chunk] returns for p is p. *)
Theorem get_chunk_data_round_trip (c p : Z) (st : state) :
  c mod data_align_ = 0 -> 0 <= c -> c + sizeof_chunk_header < 2 ^ 64 ->
  p mod data_align_ = 0 -> sizeof_chunk_header <= p < 2 ^ 64 ->
  chunk.get_chunk (chunk.data c) st = Ok c st /\
  exists c', chunk.get_chunk p st = Ok c' st /\ chunk.data c' = p.
Proof.
  intros Hc Hc0 Hcb Hp Hpb. split.
  - rewrite data_eq by (revert Hcb; consts; lia).
    replace c with (c + 16 - 16) at 2 by lia.
    apply get_chunk_eq; [revert Hc; consts; lia|revert Hcb; consts; lia].
  - exists (p - 16). split.
    + apply get_chunk_eq; [exact Hp|revert Hpb; consts; lia].
    + rewrite data_eq by (revert Hpb; consts; lia). lia.
Qed.

(** * The process-local handle *)

Lemma mapped_cut_out a len r x :
  a <= x < a + len -> gsa.mapped (gsa.cut a len r) x = false.
Proof.
  intros Hx. destruct r as [b n]. unfold gsa.cut, gsa.mapped. cbn [fst snd].
  rewrite existsb_app. apply orb_false_intro.
  - destruct ((b <? a) && (0 <? Z.min (b + n) a - b)); [|reflexivity].
    cbn [existsb fst snd]. rewrite orb_false_r. apply andb_false_intro2.
    apply Z.ltb_ge. lia.
  - destruct ((a + len <? b + n) && (0 <? b + n - Z.max b (a + len))); [|reflexivity].
    cbn [existsb fst snd]. rewrite orb_false_r. apply andb_false_intro1.
    apply Z.leb_gt. lia.
Qed.

Lemma mapped_unmap_out a len m x :
  a <= x < a + len -> gsa.mapped (gsa.unmap a len m) x = false.
Proof.
  intros Hx. unfold gsa.unmap.
  induction m as [|r m IH]; [reflexivity|].
  cbn [map concat]. rewrite mapped_app, IH, mapped_cut_out by exact Hx. reflexivity.
Qed.

(** X9: closing the handle.  [shm_close] on an open handle unmaps
    max_size_ bytes at driver_ and closes the descriptor; when munmap
    succeeds the handle is reset (driver_ NULL, descriptor -1, flags 0, the
    name kept), no address of the old mapping stays mapped, and a second
    [shm_close] throws the logic error; when munmap fails its error is
    thrown and the handle stays open, the descriptor not closed.  While the
    handle is open, [shm_open] throws the logic error before any system
    call and changes nothing. *)
Theorem shm_close_resets_handle (sys : gsa.os) (p : gsa.process) (sh : state) :
  gsa.driver_ p <> NULL ->
  (forall fuel name oflag mode,
     gsa.shm_open sys fuel name oflag mode p sh =
       gsa.Fail (logic_error "duplicate call to shm_open") p sh) /\
  (gsa.os_munmap sys (gsa.driver_ p) max_size_ = true ->
     exists p',
       gsa.shm_close sys p sh = gsa.Done tt p' sh /\
       gsa.driver_ p' = NULL /\ gsa.shmfd_ p' = -1 /\ gsa.shm_oflag p' = 0 /\
       gsa.shm_name p' = gsa.shm_name p /\
       gsa.trace p' = gsa.sys_close (gsa.shmfd_ p) ::
                      gsa.sys_munmap (gsa.driver_ p) max_size_ :: gsa.trace p /\
       (forall x, gsa.driver_ p <= x < gsa.driver_ p + max_size_ ->
                  gsa.mapped (gsa.maps p') x = false) /\
       gsa.shm_close sys p' sh =
         gsa.Fail (logic_error "invalid call to shm_close") p' sh) /\
  (gsa.os_munmap sys (gsa.driver_ p) max_size_ = false ->
     exists p',
       gsa.shm_close sys p sh = gsa.Fail (system_error "munmap") p' sh /\
       gsa.driver_ p' = gsa.driver_ p /\ gsa.shmfd_ p' = gsa.shmfd_ p /\
       gsa.maps p' = gsa.maps p /\
       gsa.trace p' = gsa.sys_munmap (gsa.driver_ p) max_size_ :: gsa.trace p).
Proof.
  intros Hopen. split.
  { intros fuel name oflag mode. unfold gsa.shm_open.
    destruct (Z.eqb_spec (gsa.driver_ p) NULL) as [?|_]; [contradiction|]. reflexivity. }
  split; intros Hmun; eexists; unfold gsa.shm_close, gsa.destroy;
    destruct (Z.eqb_spec (gsa.driver_ p) NULL) as [?|_]; try contradiction;
    rewrite Hmun; cbn [negb]; psimp.
  - split; [reflexivity|]. cbn.
    repeat (split; [reflexivity|]).
    split; [|reflexivity].
    intros x Hx. apply mapped_unmap_out. exact Hx.
  - split; [reflexivity|]. cbn. auto.
Qed.

(** X10: a segment that is too large.  When the file is larger than
    max_size_, [create] throws the logic error that names the size in
    decimal, after fstat alone: nothing is truncated or mapped and driver_
    is not set. *)
Theorem create_rejects_large_segment (sys : gsa.os) (fuel : nat) (p : gsa.process)
    (sh : state) (size mode : Z) :
  gsa.os_fstat sys (gsa.shmfd_ p) = Some (size, mode) -> max_size_ < size ->
  exists p',
    gsa.create sys fuel p sh =
      gsa.Fail (logic_error ("shared memory too large: " ++
                             gsa.to_string size ++ " bytes")) p' sh /\
    gsa.to_string 4294967312 = "4294967312"%string /\
    gsa.trace p' = gsa.sys_fstat (gsa.shmfd_ p) :: gsa.trace p /\
    gsa.maps p' = gsa.maps p /\ gsa.driver_ p' = gsa.driver_ p.
Proof.
  intros Hfstat Hbig. eexists. unfold gsa.create. psimp. rewrite Hfstat.
  destruct (Z.ltb_spec max_size_ size) as [_|?]; [|lia].
  split; [reflexivity|]. cbn. auto.
Qed.

(** X11: the master.  With O_TRUNC set, a file no larger than max_size_
    (grown to min_size_ when smaller) whose size is a multiple of 16, and a
    mapping at a 16-aligned address, [create] maps max_size_ bytes, sets
    driver_ to the mapping address and constructs the driver there: the
    shared state records that address and the size, its semaphore is free,
    and it is the start of the arena's histories. *)
Theorem master_create_constructs_arena (sys : gsa.os) (fuel : nat) (p : gsa.process)
    (sh : state) (size0 mode addr : Z) :
  Z.land (gsa.oflag_ p) gsa.O_TRUNC <> 0 ->
  gsa.os_fstat sys (gsa.shmfd_ p) = Some (size0, mode) -> size0 <= max_size_ ->
  (size0 < min_size_ -> gsa.os_ftruncate sys (gsa.shmfd_ p) min_size_ = true) ->
  Z.max size0 min_size_ mod data_align_ = 0 ->
  gsa.os_mmap sys NULL max_size_ (gsa.map_prot p) gsa.MAP_SHARED = addr ->
  addr <> gsa.MAP_FAILED -> addr mod data_align_ = 0 -> 0 < addr < 2 ^ 63 ->
  (2 <= fuel)%nat ->
  exists p' sh',
    gsa.create sys fuel p sh = gsa.Done tt p' sh' /\
    gsa.driver_ p' = addr /\ addr_ sh' = addr /\
    size_ sh' = Z.max size0 min_size_ /\ sem_ sh' = 1 /\
    (forall x, addr <= x < addr + max_size_ -> gsa.mapped (gsa.maps p') x = true) /\
    arena.reachable addr (gsa.os_ftruncate sys (gsa.shmfd_ p)) sh' [].
Proof.
  intros Hmaster Hfstat Hmax Hft Hm Hmmap Hok Ha Hr Hfuel.
  destruct fuel as [|[|f]]; [lia|lia|].
  assert (Hsz : min_size_ <= Z.max size0 min_size_ <= max_size_) by (consts; lia).
  destruct (construct_rep addr Ha Hr (gsa.os_ftruncate sys (gsa.shmfd_ p)) f sh
              (Z.max size0 min_size_) Hsz Hm) as (m' & fl' & Hc & HR).
  assert (Esz : (if size0 <? min_size_ then min_size_ else size0) = Z.max size0 min_size_).
  { destruct (Z.ltb_spec size0 min_size_); lia. }
  eexists _, _. unfold gsa.create. psimp. rewrite Hfstat.
  destruct (Z.ltb_spec max_size_ size0) as [?|_]; [lia|].
  assert (Eg : (size0 <? min_size_) &&
               negb (gsa.os_ftruncate sys (gsa.shmfd_ p) min_size_) = false).
  { destruct (Z.ltb_spec size0 min_size_) as [Hlt|_]; [|reflexivity].
    rewrite (Hft Hlt). reflexivity. }
  assert (Efd : forall q, gsa.shmfd_ (if size0 <? min_size_
                  then gsa.call (gsa.sys_ftruncate (gsa.shmfd_ p) min_size_) q else q) =
                gsa.shmfd_ q).
  { intros q. destruct (size0 <? min_size_); reflexivity. }
  assert (Eof : forall q, gsa.oflag_ (if size0 <? min_size_
                  then gsa.call (gsa.sys_ftruncate (gsa.shmfd_ p) min_size_) q else q) =
                gsa.oflag_ q).
  { intros q. destruct (size0 <? min_size_); reflexivity. }
  unfold gsa.map_prot in *. psimp. rewrite ?Efd, ?Eof. psimp. rewrite Eg.
  rewrite Hmmap.
  destruct (Z.eqb_spec addr gsa.MAP_FAILED) as [?|_]; [contradiction|].
  psimp. rewrite ?Eof. psimp.
  destruct (Z.eqb_spec (Z.land (gsa.oflag_ p) gsa.O_TRUNC) 0) as [?|_]; [contradiction|].
  cbn [negb]. rewrite Esz, Hc.
  split; [reflexivity|]. psimp.
  split; [reflexivity|]. split; [reflexivity|]. split; [reflexivity|].
  split; [reflexivity|]. split.
  - intros x Hx. unfold gsa.mapped. cbn [existsb fst snd].
    destruct (Z.leb_spec addr x); [|lia]. destruct (Z.ltb_spec x (addr + max_size_)); [|lia].
    reflexivity.
  - eapply arena.reach_construct; [exact Hsz|exact Hc].
Qed.

(** X12: room for n objects.  In a reachable arena, when
    [shared_allocator<T>::allocate(n)] returns for n > 0 objects of size
    sizeof(T) and n * sizeof(T) does not overflow, the pointer is new, not
    NULL and 16-aligned, the chunk behind it is allocated and has room for
    the n objects inside the committed segment, and the state is again a
    reachable one with the pointer live. *)
Theorem typed_allocate_capacity (sys : gsa.os) (p : gsa.process) (sh : state)
    (live : list Z) (sizeof_T n : Z) (fuel : nat) (q : Z) (sh' : state) :
  (gsa.driver_ p) mod 16 = 0 -> 0 < gsa.driver_ p < 2 ^ 63 ->
  arena.reachable (gsa.driver_ p) (gsa.os_ftruncate sys (gsa.shmfd_ p)) sh live ->
  0 < sizeof_T -> 0 < n -> n * sizeof_T < 2 ^ 64 ->
  gsa.typed_allocate sys sizeof_T fuel n p sh = Ok q sh' ->
  q <> NULL /\ (q ∉ live) /\ q mod data_align_ = 0 /\
  chunk.allocated (mem sh') (q - 16) = true /\
  n * sizeof_T <= chunk.size (mem sh') (q - 16) /\
  q + n * sizeof_T <= gsa.driver_ p + size_ sh' /\
  arena.reachable (gsa.driver_ p) (gsa.os_ftruncate sys (gsa.shmfd_ p)) sh' (q :: live).
Proof.
  intros Ha Hr Hreach Hk Hn Hnk Halloc.
  unfold gsa.typed_allocate, gsa.allocate in Halloc.
  rewrite wmul_small in Halloc by (consts; nia).
  set (d := gsa.driver_ p) in *. set (ft := gsa.os_ftruncate sys (gsa.shmfd_ p)) in *.
  destruct (reachable_inv d Ha Hr ft sh live Hreach) as (Hsem & l & fl & HR & Hlive).
  assert (Hpos : 0 < n * sizeof_T) by nia.
  destruct (allocate_outcome_any d Ha Hr ft sh l fl live (n * sizeof_T) fuel HR Hsem Hlive)
    as [(q' & st'' & l' & fl' & s & Ha' & Hsem' & HR' & Hlive' & Hq & Hin & Hle & Hsmall & _)|
        (e & st'' & l' & fl' & Ha' & _)].
  { lia. }
  { rewrite Halloc. discriminate. }
  2:{ rewrite Halloc in Ha'. discriminate. }
  rewrite Halloc in Ha'. inversion Ha'; subst q' st''.
  destruct (rep_chunk_bounds d Ha ft _ _ _ _ _ _ _ HR' Hin)
    as (G1 & G2 & G3 & G4 & G5 & G6 & G7 & G8).
  pose proof (aligned_size_facts (n * sizeof_T) Hpos) as (Hr1 & Hr2 & Hr3).
  assert (Hq0 : 0 < q - 16) by (revert G1; hconsts; lia).
  split; [unfold NULL; lia|].
  split; [pose proof (proj1 Hlive') as Hnd'; inversion Hnd'; assumption|].
  split; [consts; lia|].
  rewrite size_eq by (revert G2 G3 G6 Hr; consts; lia). rewrite G7.
  split.
  { unfold chunk.allocated. rewrite (footer_eq (mem sh') _ _ G7).
    - wsimp. rewrite Z.add_0_r, G8. reflexivity.
    - lia.
    - lia.
    - revert G2 G6 Hr. consts. lia. }
  assert (Hcap : n * sizeof_T <=
                 (if min_chunk_size_ <=? s - aligned_size (n * sizeof_T)
                  then aligned_size (n * sizeof_T) else s)).
  { destruct (min_chunk_size_ <=? s - aligned_size (n * sizeof_T)); lia. }
  split; [exact Hcap|]. split; [lia|].
  assert (Hne : (q =? NULL) = false) by (apply Z.eqb_neq; unfold NULL; lia).
  pose proof (arena.reach_allocate d ft fuel (n * sizeof_T) sh live q sh' Hreach
                ltac:(consts; lia) Halloc) as Hre.
  rewrite Hne in Hre. exact Hre.
Qed.

(** X13: the protection of the mapping.  [map_prot] grants PROT_READ unless
    the O_WRONLY bit of the open flags is set and PROT_WRITE exactly when the
    O_RDWR bit is set, and nothing else: a handle opened write-only is
    mapped without any access. *)
Theorem map_prot_follows_access_mode (p : gsa.process) :
  gsa.map_prot p =
    (if Z.testbit (gsa.oflag_ p) 0 then 0 else gsa.PROT_READ) +
    (if Z.testbit (gsa.oflag_ p) 1 then gsa.PROT_WRITE else 0) /\
  (Z.testbit (gsa.oflag_ p) 0 = true -> Z.testbit (gsa.oflag_ p) 1 = false ->
   gsa.map_prot p = 0).
Proof.
  assert (H0 : Z.land (gsa.oflag_ p) gsa.O_WRONLY =
               if Z.testbit (gsa.oflag_ p) 0 then 1 else 0).
  { change gsa.O_WRONLY with (Z.ones 1). rewrite Z.land_ones by lia.
    rewrite Z.bit0_odd. change (2 ^ 1) with 2.
    rewrite Zmod_odd. reflexivity. }
  assert (H1 : (Z.land (gsa.oflag_ p) gsa.O_RDWR =? 0) =
               negb (Z.testbit (gsa.oflag_ p) 1)).
  { change gsa.O_RDWR with (2 ^ 1). 
    destruct (Z.testbit (gsa.oflag_ p) 1) eqn:E; simpl.
    - apply Z.eqb_neq. intros Hz.
      assert (Ht : Z.testbit (Z.land (gsa.oflag_ p) (2 ^ 1)) 1 = true).
      { rewrite Z.land_spec, E, Z.pow2_bits_true by lia. reflexivity. }
      rewrite Hz in Ht. rewrite Z.bits_0 in Ht. discriminate.
    - apply Z.eqb_eq. apply Z.bits_inj'. intros i Hi.
      rewrite Z.land_spec, Z.bits_0, Z.pow2_bits_eqb by lia.
      destruct (Z.eqb_spec 1 i) as [<-|_]; [rewrite E; reflexivity|apply andb_false_r]. }
  assert (E : gsa.map_prot p =
    (if Z.testbit (gsa.oflag_ p) 0 then 0 else gsa.PROT_READ) +
    (if Z.testbit (gsa.oflag_ p) 1 then gsa.PROT_WRITE else 0)).
  { unfold gsa.map_prot. rewrite H0, H1.
    destruct (Z.testbit (gsa.oflag_ p) 0), (Z.testbit (gsa.oflag_ p) 1); reflexivity. }
  split; [exact E|]. intros E0 E1. rewrite E, E0, E1. reflexivity.
Qed.

(** * Further statements at the concrete arena *)

Lemma example_size_kept : size_ example.after_alloc = size_ example.fresh.
Proof. vm_compute. reflexivity. Qed.

Lemma example_too_large :
  driver.allocate example.base example.ft 100 (2 ^ 32) example.fresh =
    Throw bad_alloc example.fresh.
Proof. vm_compute. reflexivity. Qed.

Lemma allocate_returns_first_fit_witness :
  exists l fl L1 s L2,
    heap.Rep example.base (mem example.fresh) (size_ example.fresh) l fl /\
    candidates fl (Z.log2 (aligned_size 64)) = L1 ++ (67648 - 16, s) :: L2 /\
    (forall y t, (y, t) ∈ L1 -> t < aligned_size 64) /\
    aligned_size 64 <= s /\
    (67648 - 16, s, true) ∈ layout (heap.first example.base) l.
Proof.
  apply (allocate_returns_first_fit example.base example_base_aligned example_base_range
           example.ft example.fresh [] 64 100 67648 example.after_alloc).
  - exact example_reachable_fresh.
  - lia.
  - lia.
  - exact example_allocate.
  - exact example_size_kept.
Defined.

Lemma allocate_failure_keeps_arena_witness :
  bad_alloc = bad_alloc \/ bad_alloc = system_error "ftruncate".
Proof.
  destruct (allocate_failure_keeps_arena example.base example_base_aligned
              example_base_range example.ft example.fresh [] (2 ^ 32) 100 bad_alloc
              example.fresh) as (_ & He & _).
  - exact example_reachable_fresh.
  - lia.
  - lia.
  - exact example_too_large.
  - exact He.
Defined.

Lemma deallocate_undoes_allocate_witness :
  exists st2,
    driver.deallocate example.base 1 67648 64 example.after_alloc = Ok tt st2 /\
    size_ st2 = size_ example.fresh.
Proof.
  destruct (deallocate_undoes_allocate example.base example_base_aligned
              example_base_range example.ft example.fresh [] 64 100 67648
              example.after_alloc) as (st2 & l & fl & fl2 & Hd & _ & _ & Hs & _).
  - exact example_reachable_fresh.
  - lia.
  - lia.
  - exact example_allocate.
  - exact example_size_kept.
  - exists st2. split; [exact Hd|exact Hs].
Defined.

Lemma live_blocks_disjoint_witness :
  67648 mod data_align_ = 0 /\
  chunk.allocated (mem example.after_alloc) (67648 - 16) = true.
Proof.
  destruct (live_blocks_disjoint example.base example_base_aligned example_base_range
              example.ft example.after_alloc [67648]) as [_ H].
  - exact example_reachable_after.
  - destruct (H 67648 (list_elem_of_here _ _)) as (H1 & H2 & _).
    split; [exact H1|exact H2].
Defined.

Lemma reachable_calls_return_witness : sem_ example.fresh = 1.
Proof.
  destruct (reachable_calls_return example.base example_base_aligned example_base_range
              example.ft example.fresh [] 64 4096) as [H _].
  - exact example_reachable_fresh.
  - lia.
  - rewrite (proj1 (proj2 example_fresh_rep)). vm_compute. lia.
  - exact H.
Defined.

Lemma deallocate_unaligned_pointer_witness :
  driver.deallocate example.base 1 8 0 example.fresh =
    Throw (logic_error "get_chunk: data unaligned") example.fresh.
Proof.
  apply (deallocate_unaligned_pointer example.base example.fresh 1 8 0).
  - rewrite (proj1 example_fresh_rep). lia.
  - lia.
  - discriminate.
Defined.

Lemma construct_fresh_arena_witness :
  exists st, driver.construct example.base 2 4096 example.st0 = Ok tt st /\
             size_ st = 4096.
Proof.
  destruct (construct_fresh_arena example.base example_base_aligned example_base_range
              example.ft 2 4096 example.st0) as [H _].
  - split; discriminate.
  - lia.
  - destruct (H eq_refl) as (st & fl & Hc & _ & _ & Hs & _).
    exists st. split; [exact Hc|exact Hs].
Defined.

Lemma get_chunk_data_round_trip_witness :
  chunk.get_chunk (chunk.data 32) example.st0 = Ok 32 example.st0.
Proof.
  destruct (get_chunk_data_round_trip 32 48 example.st0) as [H _].
  - reflexivity.
  - lia.
  - reflexivity.
  - reflexivity.
  - split; [discriminate|reflexivity].
  - exact H.
Defined.

Lemma shm_close_resets_handle_witness :
  exists p',
    gsa.shm_close example.sys (gsa.mkProcess "1.shm" 3 578 65536 [(65536, max_size_)] [])
      example.fresh = gsa.Done tt p' example.fresh /\
    gsa.driver_ p' = NULL.
Proof.
  destruct (shm_close_resets_handle example.sys
              (gsa.mkProcess "1.shm" 3 578 65536 [(65536, max_size_)] [])
              example.fresh) as (_ & H & _).
  - discriminate.
  - destruct (H eq_refl) as (p' & Hc & Hd & _).
    exists p'. split; [exact Hc|exact Hd].
Defined.

Lemma create_rejects_large_segment_witness :
  exists p',
    gsa.create
      (gsa.mkOs (fun _ _ _ => 3) (fun _ => Some (2 ^ 33, 384)) (fun _ _ => true)
         (fun _ _ _ _ => 131072) (fun _ _ => true) (fun _ => true))
      2 example.attacher example.st0 =
    gsa.Fail (logic_error ("shared memory too large: " ++ gsa.to_string (2 ^ 33) ++ " bytes"))
      p' example.st0 /\
    gsa.maps p' = [].
Proof.
  destruct (create_rejects_large_segment
              (gsa.mkOs (fun _ _ _ => 3) (fun _ => Some (2 ^ 33, 384)) (fun _ _ => true)
                 (fun _ _ _ _ => 131072) (fun _ _ => true) (fun _ => true))
              2 example.attacher example.st0 (2 ^ 33) 384)
    as (p' & Hc & _ & _ & Hm & _).
  - reflexivity.
  - reflexivity.
  - exists p'. split; [exact Hc|exact Hm].
Defined.

Lemma master_create_constructs_arena_witness :
  exists p' sh',
    gsa.create example.sys 2 (gsa.mkProcess "1.shm" 3 578 NULL [] []) example.st0 =
      gsa.Done tt p' sh' /\
    gsa.driver_ p' = 131072 /\ addr_ sh' = 131072.
Proof.
  destruct (master_create_constructs_arena example.sys 2
              (gsa.mkProcess "1.shm" 3 578 NULL [] []) example.st0 4096 384 131072)
    as (p' & sh' & Hc & Hd & Ha & _).
  - discriminate.
  - reflexivity.
  - discriminate.
  - intros _. reflexivity.
  - reflexivity.
  - reflexivity.
  - discriminate.
  - reflexivity.
  - split; reflexivity.
  - lia.
  - exists p', sh'. split; [exact Hc|]. split; [exact Hd|exact Ha].
Defined.

Lemma typed_allocate_capacity_witness :
  16 * 4 <= chunk.size (mem example.after_alloc) (67648 - 16).
Proof.
  destruct (typed_allocate_capacity example.sys
              (gsa.mkProcess "1.shm" 3 578 example.base [] []) example.fresh []
              4 16 100 67648 example.after_alloc) as (_ & _ & _ & _ & H & _).
  - reflexivity.
  - split; reflexivity.
  - exact example_reachable_fresh.
  - lia.
  - lia.
  - reflexivity.
  - exact example_allocate.
  - exact H.
Defined.

Lemma map_prot_follows_access_mode_witness :
  gsa.map_prot (gsa.mkProcess "1.shm" 3 gsa.O_WRONLY NULL [] []) = 0.
Proof.
  apply (proj2 (map_prot_follows_access_mode
                  (gsa.mkProcess "1.shm" 3 gsa.O_WRONLY NULL [] []))); reflexivity.
Defined.

Lemma allocate_grows_when_nothing_fits_witness :
  exists k : nat, (1 <= k)%nat /\
    size_ (match driver.allocate example.base example.ft 100 2000 example.fresh with
           | Ok _ s => s | _ => example.fresh end) =
    size_ example.fresh * 2 ^ Z.of_nat k.
Proof.
  destruct (allocate_grows_when_nothing_fits example.base example_base_aligned
              example_base_range example.ft example.fresh [] 2000 100 67648
              (match driver.allocate example.base example.ft 100 2000 example.fresh with
               | Ok _ s => s | _ => example.fresh end))
    as (l & fl & k & _ & _ & Hk & Hs & _).
  - exact example_reachable_fresh.
  - lia.
  - lia.
  - vm_compute. reflexivity.
  - vm_compute. discriminate.
  - exists k. split; [exact Hk|exact Hs].
Defined.

Lemma other_live_blocks_untouched_witness :
  chunk.allocated (mem example.after_alloc) (67648 - 16) = true.
Proof.
  destruct (other_live_blocks_untouched example.base example_base_aligned
              example_base_range example.ft example.after_alloc [67648] 67648) as [H _].
  - exact example_reachable_after.
  - apply list_elem_of_here.
  - exact H.
Defined.
